(** * Arrow game: exit predicate, state key, bounded solver, level generator

    A shallow embedding of the puzzle engine of [ArrowGame.jsx]
    ([canExit], [serializeGrid], [findSolutionLimited],
    [generateRandomLevelAsync]) together with the properties the
    specification states about it.

    Conventions of the embedding.
    - A cell is [null] or an object [{id, dir, len, head}]: [option Cell].
    - A grid is an array of row arrays: [list (list (option Cell))].  Rows
      may have different lengths; nothing in the code forbids it.
    - Reading [grid[r][c]] throws a [TypeError] when [grid[r]] is
      [undefined]; it reads [undefined] (falsy, like [null]) when only [c]
      is past the end of the row.
    - [while] loops are run with fuel; [OutOfFuel] is the outcome of a run
      whose fuel did not suffice, and the theorems show it never occurs. *)

From Stdlib Require Import ZArith Lia Ascii String QArith Qround.
From stdpp Require Import base option list strings pretty gmap.

Local Open Scope Z_scope.

(** ** Data model *)

Inductive Dir := U | D | L | R.

Record Cell := mkCell { id : Z; dir : Dir; len : Z; head : bool }.

Abbreviation Row := (list (option Cell)).
Abbreviation Grid := (list (list (option Cell))).

(** A move is the coordinate pushed by the solver: [[r, c]]. *)
Abbreviation Move := (nat * nat)%type.

#[global] Instance Dir_eq_dec : EqDecision Dir.
Proof. solve_decision. Defined.

#[global] Instance Cell_eq_dec : EqDecision Cell.
Proof. solve_decision. Defined.

(** [DIR_VECTORS = { U: [-1, 0], D: [1, 0], L: [0, -1], R: [0, 1] }] *)
Definition DIR_VECTORS (d : Dir) : Z * Z :=
  match d with
  | U => (-1, 0)
  | D => (1, 0)
  | L => (0, -1)
  | R => (0, 1)
  end.

(** ** Outcomes of a JavaScript computation *)

Inductive result (A : Type) : Type :=
  | Ok (a : A)
  | TypeError
  | OutOfFuel.
Arguments Ok {A} a.
Arguments TypeError {A}.
Arguments OutOfFuel {A}.

#[global] Instance result_ret : MRet result := fun A a => Ok a.
#[global] Instance result_bind : MBind result := fun A B f m =>
  match m with
  | Ok a => f a
  | TypeError => TypeError
  | OutOfFuel => OutOfFuel
  end.

(** [grid[r][c]], with [null] and [undefined] both read as [None]. *)
Definition cellAt (grid : Grid) (r c : nat) : result (option Cell) :=
  match grid !! r with
  | None => TypeError
  | Some row => Ok (mjoin (row !! c))
  end.

(** [grid[0].length] *)
Definition width (grid : Grid) : result nat :=
  match grid !! 0%nat with
  | None => TypeError
  | Some row => Ok (length row)
  end.

(** [function allEmpty(grid)]; the solver's goal test is the same
    expression. *)
Definition allEmpty (grid : Grid) : bool :=
  forallb (fun row => forallb (fun c => bool_decide (c = None)) row) grid.

(** ** Exit predicate *)

(** [rr >= 0 && rr < H && cc >= 0 && cc < W] *)
Definition inBounds (H W rr cc : Z) : bool :=
  (0 <=? rr) && (rr <? H) && (0 <=? cc) && (cc <? W).

(** The [while] loop of [canExit], from the position [(rr, cc)]. *)
Fixpoint exitWalk (fuel : nat) (grid : Grid) (H W : Z) (pid : Z)
    (dr dc rr cc : Z) : result bool :=
  if inBounds H W rr cc then
    match fuel with
    | O => OutOfFuel
    | S fuel' =>
        other ← cellAt grid (Z.to_nat rr) (Z.to_nat cc);
        match other with
        | Some o =>
            if negb (id o =? pid) then Ok false
            else exitWalk fuel' grid H W pid dr dc (rr + dr) (cc + dc)
        | None => exitWalk fuel' grid H W pid dr dc (rr + dr) (cc + dc)
        end
    end
  else Ok true.

(** [function canExit(grid, r, c)] *)
Definition canExit (grid : Grid) (r c : nat) : result bool :=
  cell ← cellAt grid r c;
  match cell with
  | None => Ok false
  | Some cl =>
      if negb (head cl) then Ok false
      else
        let H := length grid in
        W ← width grid;
        let '(dr, dc) := DIR_VECTORS (dir cl) in
        exitWalk (H + W) grid (Z.of_nat H) (Z.of_nat W) (id cl) dr dc
          (Z.of_nat r + dr) (Z.of_nat c + dc)
  end.

(** The path of a head at [(r, c)] pointing in direction [d]: the cell
    [k] steps ahead, for [k >= 1]. *)
Definition ahead (d : Dir) (r c : nat) (k : Z) : Z * Z :=
  (Z.of_nat r + k * (DIR_VECTORS d).1, Z.of_nat c + k * (DIR_VECTORS d).2).

(** A cell of the board as the loop of [canExit] sees it: inside the
    [H x W] rectangle, where [H = grid.length] and [W = grid[0].length]. *)
Definition onBoard (grid : Grid) (p : Z * Z) : Prop :=
  0 <= p.1 < Z.of_nat (length grid) ∧
  0 <= p.2 < Z.of_nat (default 0%nat (length <$> grid !! 0%nat)).

(** The content of the board cell [p] ([None]: nothing there). *)
Definition content (grid : Grid) (p : Z * Z) : option Cell :=
  if (0 <=? p.1) && (0 <=? p.2)
  then row ← grid !! Z.to_nat p.1; mjoin (row !! Z.to_nat p.2)
  else None.

(** The path condition in the words of the specification: every cell ahead
    of the head is off the board or belongs to the same piece. *)
Definition pathOwnOrOff (grid : Grid) (r c : nat) (cl : Cell) : Prop :=
  ∀ k, 1 <= k →
    ¬ onBoard grid (ahead (dir cl) r c k) ∨
    ∃ o, content grid (ahead (dir cl) r c k) = Some o ∧ id o = id cl.

(** The path condition the code decides: no cell ahead of the head, on the
    board, holds a segment of another piece (empty cells do not block). *)
Definition pathClear (grid : Grid) (r c : nat) (cl : Cell) : Prop :=
  ∀ k, 1 <= k → onBoard grid (ahead (dir cl) r c k) →
    ∀ o, content grid (ahead (dir cl) r c k) = Some o → id o = id cl.

(** How far the board edge is from [(rr, cc)] along [d]: the variant of the
    loop of [canExit]. *)
Definition edgeDist (d : Dir) (H W rr cc : Z) : Z :=
  match d with
  | U => rr + 1
  | D => H - rr
  | L => cc + 1
  | R => W - cc
  end.

(** ** State key *)

(** [Array.prototype.join] on strings. *)
Fixpoint join (sep : string) (l : list string) : string :=
  match l with
  | [] => ""
  | s :: l' =>
      match l' with
      | [] => s
      | _ :: _ => s +:+ sep +:+ join sep l'
      end
  end.

(** [c ? c.id : 0] *)
Definition cellKey (c : option Cell) : Z :=
  match c with
  | Some cl => id cl
  | None => 0
  end.

(** [function serializeGrid(g)]; an integer id prints in decimal. *)
Definition serializeGrid (g : Grid) : string :=
  join ";" ((fun row : Row => join "," ((fun c => pretty (cellKey c)) <$> row)) <$> g).

(** ** Bounded solver *)

(** A [for] loop over the elements of [l], threading the state [s]; an
    exception in the body ends the loop. *)
Fixpoint forEach {A S : Type} (l : list A) (body : S → A → result S) (s : S)
    : result S :=
  match l with
  | [] => Ok s
  | a :: l' => s' ← body s a; forEach l' body s'
  end.

(** [function cloneState(g)] *)
Definition cloneState (g : Grid) : Grid :=
  map (fun r => map (fun c => match c with Some cl => Some cl | None => None end) r) g.

(** [ng[r][c] = v] for a cell that exists. *)
Definition setCell (g : Grid) (r c : nat) (v : option Cell) : Grid :=
  match g !! r with
  | Some row => <[r := <[c := v]> row]> g
  | None => g
  end.

(** The body of the loops of [removeId]:
    [if (ng[r][c] && ng[r][c].id === id) ng[r][c] = null] *)
Definition removeIdAt (pid : Z) (r : nat) (ng : Grid) (c : nat) : result Grid :=
  cell ← cellAt ng r c;
  match cell with
  | Some cl => if id cl =? pid then Ok (setCell ng r c None) else Ok ng
  | None => Ok ng
  end.

(** [function removeId(g, id)], closed over [rows] and [cols]. *)
Definition removeId (rows cols : nat) (g : Grid) (pid : Z) : result Grid :=
  let ng := cloneState g in
  forEach (seq 0 rows)
    (fun ng r => forEach (seq 0 cols) (removeIdAt pid r) ng) ng.

Record Node := mkNode { grid : Grid; moveSeq : list Move }.

(** The variables of the search loop: the queue, the visited set and the
    counter [states]. *)
Record Search := mkSearch {
  queue : list Node;
  visited : gset string;
  states : Z
}.

(** The scan for removable heads:
    [if (cell && cell.head && canExit(g, r, c)) moves.push([r, c])] *)
Definition removableAt (g : Grid) (r : nat) (moves : list Move) (c : nat)
    : result (list Move) :=
  cell ← cellAt g r c;
  match cell with
  | Some cl =>
      if head cl then
        b ← canExit g r c;
        Ok (if b : bool then moves ++ [(r, c)] else moves)
      else Ok moves
  | None => Ok moves
  end.

Definition removableHeads (rows cols : nat) (g : Grid) : result (list Move) :=
  forEach (seq 0 rows)
    (fun moves r => forEach (seq 0 cols) (removableAt g r) moves) [].

(** The body of [for (const [r, c] of moves)]; reading [g[r][c].id] throws
    when the cell is [null]. *)
Definition expandMove (rows cols : nat) (node : Node)
    (vq : gset string * list Node) (m : Move) : result (gset string * list Node) :=
  let g := grid node in
  cell ← cellAt g m.1 m.2;
  match cell with
  | None => TypeError
  | Some cl =>
      ng ← removeId rows cols g (id cl);
      let key := serializeGrid ng in
      if decide (key ∈ vq.1) then Ok vq
      else Ok ({[key]} ∪ vq.1, vq.2 ++ [mkNode ng (moveSeq node ++ [m])])
  end.

(** The [while (queue.length > 0)] loop.  The second component of the
    answer is the final value of [states], the number of nodes dequeued. *)
Fixpoint searchLoop (fuel : nat) (rows cols : nat) (maxStates : Z) (s : Search)
    : result (option (list Move) * Z) :=
  match queue s with
  | [] => Ok (None, states s)
  | node :: rest =>
      match fuel with
      | O => OutOfFuel
      | S fuel' =>
          let states' := states s + 1 in
          if maxStates <? states' then Ok (None, states')
          else if allEmpty (grid node) then Ok (Some (moveSeq node), states')
          else
            moves ← removableHeads rows cols (grid node);
            vq ← forEach moves (expandMove rows cols node) (visited s, rest);
            searchLoop fuel' rows cols maxStates (mkSearch vq.2 vq.1 states')
      end
  end.

(** [function findSolutionLimited(startGrid, maxStates)], together with
    the number of nodes it dequeued.  The loop leaves after at most
    [maxStates + 1] rounds, which is the fuel it gets. *)
Definition solveRun (startGrid : Grid) (maxStates : Z)
    : result (option (list Move) * Z) :=
  let rows := length startGrid in
  cols ← width startGrid;
  let startKey := serializeGrid startGrid in
  searchLoop (S (Z.to_nat maxStates)) rows cols maxStates
    (mkSearch [mkNode (cloneState startGrid) []] {[startKey]} 0).

(** The value [findSolutionLimited] returns: [Some seq] for a solution,
    [None] for [null]. *)
Definition findSolutionLimited (startGrid : Grid) (maxStates : Z)
    : result (option (list Move)) :=
  r ← solveRun startGrid maxStates; Ok r.1.

(** *** Replaying a solution *)

(** Removing a piece: every cell of the grid that holds its id is emptied. *)
Definition clearId (pid : Z) (c : option Cell) : option Cell :=
  match c with
  | Some cl => if id cl =? pid then None else Some cl
  | None => None
  end.

Definition removePiece (g : Grid) (pid : Z) : Grid :=
  (fun row : Row => clearId pid <$> row) <$> g.

(** Applying moves in order.  A move is legal when [canExit] holds at its
    coordinate in the state just before it; it removes the piece found
    there.  [None]: some move was not legal. *)
Fixpoint applyMoves (g : Grid) (ms : list Move) : option Grid :=
  match ms with
  | [] => Some g
  | m :: ms' =>
      match cellAt g m.1 m.2, canExit g m.1 m.2 with
      | Ok (Some cl), Ok true => applyMoves (removePiece g (id cl)) ms'
      | _, _ => None
      end
  end.

(** The ids of the pieces present in a grid. *)
Definition pieceIds (g : Grid) : gset Z :=
  list_to_set (omap (fmap id) (mjoin g)).

(** The id of the piece a move names in a grid. *)
Definition namedId (g : Grid) (m : Move) : option Z :=
  id <$> content g (Z.of_nat m.1, Z.of_nat m.2).

(** What [removeId] computes: the cells of the window [rows x cols] that
    hold the id are emptied, the others are kept. *)
Definition clearPrefix (cols : nat) (pid : Z) (row : Row) : Row :=
  imap (fun c x => if decide (c < cols)%nat then clearId pid x else x) row.

Definition clearWindow (rows cols : nat) (pid : Z) (g : Grid) : Grid :=
  imap (fun r row => if decide (r < rows)%nat then clearPrefix cols pid row else row) g.

(** Replaying moves with the removal [removeId] performs (inside the
    window of the start grid); the invariant of the search is stated with
    it. *)
Fixpoint applyMovesW (rows cols : nat) (g : Grid) (ms : list Move) : option Grid :=
  match ms with
  | [] => Some g
  | m :: ms' =>
      match cellAt g m.1 m.2, canExit g m.1 m.2 with
      | Ok (Some cl), Ok true =>
          applyMovesW rows cols (clearWindow rows cols (id cl) g) ms'
      | _, _ => None
      end
  end.

(** What holds of every node in the queue: its grid has the rows of the
    start grid and is the start grid after the node's moves. *)
Definition nodeOk (g0 : Grid) (cols : nat) (n : Node) : Prop :=
  length (grid n) = length g0 ∧
  applyMovesW (length g0) cols g0 (moveSeq n) = Some (grid n).

(** No segment lies outside the window [rows x cols]. *)
Definition insideWindow (rows cols : nat) (g : Grid) : Prop :=
  ∀ r c (row : Row) cl, g !! r = Some row → row !! c = Some (Some cl) →
    (r < rows)%nat ∧ (c < cols)%nat.

(** The ids of the pieces removed by a replay, in order. *)
Fixpoint playedIds (g : Grid) (ms : list Move) : list Z :=
  match ms with
  | [] => []
  | m :: ms' =>
      match cellAt g m.1 m.2 with
      | Ok (Some cl) => id cl :: playedIds (removePiece g (id cl)) ms'
      | _ => []
      end
  end.

(** Every segment of [g] is still there in [g']. *)
Definition subGrid (g g' : Grid) : Prop :=
  ∀ r c (row : Row) cl, g !! r = Some row → row !! c = Some (Some cl) →
    ∃ row', g' !! r = Some row' ∧ row' !! c = Some (Some cl).

(** The scenario of two length-1 pieces facing each other in the top row:
    [a] at [(0,0)] pointing right, [b] at [(0,1)] pointing left, every other
    cell of the grid ([tail0] is the rest of the top row) empty. *)
Definition facingPair (a b : Z) (tail0 : Row) (rest : Grid) : Grid :=
  (Some (mkCell a R 1 true) :: Some (mkCell b L 1 true) :: tail0) :: rest.

(** The character [ch] occurs in the string [s]. *)
Fixpoint occurs (ch : ascii) (s : string) : Prop :=
  match s with
  | EmptyString => False
  | String c s' => c = ch ∨ occurs ch s'
  end.

(** Two grids have the same dimensions: as many rows, and row by row as
    many cells. *)
Definition sameShape (g1 g2 : Grid) : Prop :=
  Forall2 (fun r1 r2 : Row => length r1 = length r2) g1 g2.

(** The piece id of every cell, 0 for an empty cell. *)
Definition idPattern (g : Grid) : list (list Z) :=
  (fun row : Row => cellKey <$> row) <$> g.

(** ** Level generator *)

(** [Math.random()] is a sequence [rnd] of numbers in [[0, 1)], doubles
    read as the rationals they denote; the state counts the calls made.
    The generator owns its id counter ([let idCounter = 1]). *)
Record GenState := mkGen { genGrid : Grid; idCounter : Z; draws : nat }.

(** [const dirs = ['U', 'D', 'L', 'R']] *)
Definition dirs : list Dir := [U; D; L; R].

(** [Array.from({ length: rows }, () => Array(cols).fill(null))] *)
Definition emptyGrid (rows cols : nat) : Grid :=
  replicate rows (replicate cols None).

(** One round of [for (let k = 0; k < len; k++)].  The accumulator is the
    array [positions], or [None] once the loop has left with [ok = false]. *)
Definition tryPosition (g : Grid) (rows cols r c : nat) (dr dc : Z)
    (acc : option (list (nat * nat))) (k : Z) : result (option (list (nat * nat))) :=
  match acc with
  | None => Ok None
  | Some positions =>
      let rr := Z.of_nat r - dr * k in
      let cc := Z.of_nat c - dc * k in
      if (rr <? 0) || (Z.of_nat rows <=? rr) || (cc <? 0) || (Z.of_nat cols <=? cc)
      then Ok None
      else
        match g !! Z.to_nat rr with
        | None => TypeError
        | Some row =>
            match row !! Z.to_nat cc with
            | Some None => Ok (Some (positions ++ [(Z.to_nat rr, Z.to_nat cc)]))
            | _ => Ok None
            end
        end
  end.

(** [for (let k = 0; k < positions.length; k++)
       g[rr][cc] = { id, dir, len, head: k === 0 }] *)
Definition writePiece (g : Grid) (pid : Z) (d : Dir) (ln : Z)
    (positions : list (nat * nat)) : Grid :=
  foldl (fun g kp => setCell g kp.2.1 kp.2.2
                       (Some (mkCell pid d ln (bool_decide (kp.1 = 0%nat)))))
    g (imap (fun k p => (k, p)) positions).

(** The body of the scan of the generator at the cell [(r, c)]. *)
Definition placeAt (rows cols : nat) (density maxLen : Q) (rnd : nat → Q)
    (r : nat) (st : GenState) (c : nat) : result GenState :=
  let g := genGrid st in
  match g !! r with
  | None => TypeError
  | Some row =>
      match row !! c with
      | Some None =>
          if Qle_bool density (rnd (draws st))
          then Ok (mkGen g (idCounter st) (1 + draws st))
          else
            let idx := Qfloor (rnd (1 + draws st)%nat * inject_Z 4)%Q in
            let ln := 1 + Qfloor (rnd (2 + draws st)%nat * maxLen)%Q in
            match (if 0 <=? idx then dirs !! Z.to_nat idx else None) with
            | None => TypeError
            | Some d =>
                let '(dr, dc) := DIR_VECTORS d in
                positions ← forEach (seqZ 0 ln) (tryPosition g rows cols r c dr dc)
                              (Some []);
                match positions with
                | None => Ok (mkGen g (idCounter st) (3 + draws st))
                | Some ps =>
                    Ok (mkGen (writePiece g (idCounter st) d ln ps)
                          (idCounter st + 1) (3 + draws st))
                end
            end
      | _ => Ok st
      end
  end.

(** One candidate: the scan of a fresh grid in row-major order. *)
Definition scanGrid (rows cols : nat) (density maxLen : Q) (rnd : nat → Q)
    (idc : Z) (n : nat) : result GenState :=
  forEach (seq 0 rows)
    (fun st r => forEach (seq 0 cols) (placeAt rows cols density maxLen rnd r) st)
    (mkGen (emptyGrid rows cols) idc n).

(** [Array.prototype.some] with a callback that may throw; [i] is the
    index of the first element. *)
Fixpoint someM {A : Type} (f : nat → A → result bool) (i : nat) (l : list A)
    : result bool :=
  match l with
  | [] => Ok false
  | a :: l' => b ← f i a; if b : bool then Ok true else someM f (S i) l'
  end.

(** [g.some((row) => row.some(Boolean))] *)
Definition hasArrow (g : Grid) : bool :=
  existsb (fun row => existsb (fun c : option Cell => bool_decide (is_Some c)) row) g.

(** [g.some((row, r) => row.some((cell, c) =>
       cell && cell.head && canExit(g, r, c)))] *)
Definition hasExit (g : Grid) : result bool :=
  someM (fun r (row : Row) =>
           someM (fun c (cell : option Cell) =>
                    match cell with
                    | Some cl => if head cl then canExit g r c else Ok false
                    | None => Ok false
                    end) 0 row) 0 g.

(** The attempt loop, with [n] attempts left: [Some g] when a candidate is
    accepted, [None] when the attempts are used up. *)
Fixpoint attempts (n : nat) (rows cols : nat) (density maxLen : Q)
    (rnd : nat → Q) (idc : Z) (drawn : nat) : result (option Grid) :=
  match n with
  | O => Ok None
  | S n' =>
      st ← scanGrid rows cols density maxLen rnd idc drawn;
      let g := genGrid st in
      hasImmediateExit ← (if hasArrow g then hasExit g else Ok false);
      if hasArrow g && hasImmediateExit then
        sol ← findSolutionLimited g 20000;
        match sol with
        | Some _ => Ok (Some g)
        | None => attempts n' rows cols density maxLen rnd (idCounter st) (draws st)
        end
      else attempts n' rows cols density maxLen rnd (idCounter st) (draws st)
  end.

(** The fallback layout. *)
Definition fallbackGrid (rows cols : nat) : Grid :=
  let fallback := emptyGrid rows cols in
  if (1 <=? rows)%nat && (2 <=? cols)%nat then
    let fallback := setCell fallback 0 0 (Some (mkCell 1 R 1 true)) in
    if (1 <? cols)%nat then setCell fallback 0 1 (Some (mkCell 1 R 1 false))
    else fallback
  else fallback.

(** [async function generateRandomLevelAsync(rows, cols, density, maxLen,
    maxAttempts)]; the [await] between attempts changes no value. *)
Definition generateRandomLevelAsync (rows cols : nat) (density maxLen : Q)
    (maxAttempts : nat) (rnd : nat → Q) : result Grid :=
  found ← attempts maxAttempts rows cols density maxLen rnd 1 0;
  match found with
  | Some g => Ok g
  | None => Ok (fallbackGrid rows cols)
  end.

(** *** The grid invariant *)

(** The piece [pid] of [g] is a straight run of [n] cells along the axis
    of its direction [d], from [(r0, c0)]: every segment with this id lies
    on the run and carries [d] and [n] as its direction and length, every
    cell of the run holds a segment of the piece, and one segment exactly
    is the head. *)
Definition pieceValid (g : Grid) (pid : Z) : Prop :=
  ∃ (r0 c0 : Z) (d : Dir) (n : Z),
    1 <= n ∧
    (∀ r c cl, cellAt g r c = Ok (Some cl) → id cl = pid →
       dir cl = d ∧ len cl = n ∧
       ∃ k, 0 <= k < n ∧
            Z.of_nat r = r0 + k * (DIR_VECTORS d).1 ∧
            Z.of_nat c = c0 + k * (DIR_VECTORS d).2) ∧
    (∀ k, 0 <= k < n →
       ∃ r c cl, Z.of_nat r = r0 + k * (DIR_VECTORS d).1 ∧
                 Z.of_nat c = c0 + k * (DIR_VECTORS d).2 ∧
                 cellAt g r c = Ok (Some cl) ∧ id cl = pid) ∧
    (∃ rh ch clh, cellAt g rh ch = Ok (Some clh) ∧ id clh = pid ∧ head clh = true ∧
       ∀ r c cl, cellAt g r c = Ok (Some cl) → id cl = pid → head cl = true →
                 r = rh ∧ c = ch).

(** The invariant of the data model: every piece of the grid is valid.
    (A cell holds one segment, so distinct pieces cannot overlap, and a
    segment found in the grid is in bounds.) *)
Definition gridInvariant (g : Grid) : Prop :=
  ∀ pid, pid ∈ pieceIds g → pieceValid g pid.

(** ** The game component

    The state of [ArrowGame] that its handlers read and write: the level
    as generated, the grid in play and the highlighted cell.  A handler
    maps the state of the render it closes over to the state after its
    [set...] calls.  The timers that clear the highlight later and the
    [generating] flag are left out. *)
Module UI.

Record Game := mkGame {
  initialGrid : Grid;
  grid : Grid;
  hintCell : option Move
}.

(** [function cloneGrid(g)] *)
Definition cloneGrid (g : Grid) : Grid :=
  map (fun row => map (fun cell => match cell with Some cl => Some cl | None => None end) row) g.

(** [function resetLevel()] *)
Definition resetLevel (st : Game) : Game :=
  mkGame (initialGrid st) (cloneGrid (initialGrid st)) None.

(** The loops of [handleClick] over the copy [ng].  Their bounds are
    [ng.length] and [ng[0].length]; the body writes to cells that exist
    and leaves both as they are. *)
Definition clearClicked (ng : Grid) (pid : Z) : result Grid :=
  forEach (seq 0 (length ng))
    (fun ng rr => W ← width ng; forEach (seq 0 W) (removeIdAt pid rr) ng) ng.

(** [function handleClick(r, c)] *)
Definition handleClick (st : Game) (r c : nat) : result Game :=
  cell ← cellAt (grid st) r c;
  match cell with
  | None => Ok st
  | Some cl =>
      if negb (head cl) then Ok st
      else
        b ← canExit (grid st) r c;
        if b : bool then
          ng ← clearClicked (cloneGrid (grid st)) (id cl);
          Ok (mkGame (initialGrid st) ng None)
        else Ok (mkGame (initialGrid st) (grid st) (Some (r, c)))
  end.

(** The test of [giveHint] at one cell.  [found] is the cell to highlight
    once the function has returned from inside its loops. *)
Definition hintAt (g : Grid) (r : nat) (found : option Move) (c : nat)
    : result (option Move) :=
  match found with
  | Some m => Ok (Some m)
  | None =>
      cell ← cellAt g r c;
      match cell with
      | Some cl =>
          if head cl then
            b ← canExit g r c;
            Ok (if b : bool then Some (r, c) else None)
          else Ok None
      | None => Ok None
      end
  end.

(** The loops of [giveHint]: the first head, in row-major order, for which
    [canExit] holds. *)
Definition findHint (g : Grid) : result (option Move) :=
  forEach (seq 0 (length g))
    (fun found r =>
       match found with
       | Some m => Ok (Some m)
       | None => W ← width g; forEach (seq 0 W) (hintAt g r) None
       end) None.

(** [function giveHint()]; with no cell found the highlight is cleared
    (and an alert shown). *)
Definition giveHint (st : Game) : result Game :=
  found ← findHint (grid st);
  Ok (mkGame (initialGrid st) (grid st) found).

(** [async function newRandom()] with the settings [rows], [cols],
    [density] and [maxLen] of the component; an exception of the generator
    is caught and leaves the state as it is. *)
Definition newRandom (st : Game) (rows cols : nat) (density maxLen : Q)
    (rnd : nat → Q) : result Game :=
  match generateRandomLevelAsync rows cols density maxLen 500 rnd with
  | Ok g => Ok (mkGame (cloneGrid g) (cloneGrid g) None)
  | TypeError => Ok st
  | OutOfFuel => OutOfFuel
  end.

(** [grid.flat().filter(Boolean).filter((c) => c.head).length] *)
Definition arrowsLeft (g : Grid) : nat :=
  length (List.filter head (omap (fun cell : option Cell => cell) (mjoin g))).

(** Clicks in sequence, each on the state the one before has left. *)
Fixpoint clicks (st : Game) (ms : list Move) : result Game :=
  match ms with
  | [] => Ok st
  | m :: ms' => st' ← handleClick st m.1 m.2; clicks st' ms'
  end.

(** What the player does: a click on a cell, the Hint button, the Reset
    button. *)
Inductive Event := Click (r c : nat) | Hint | Reset.

Definition step (st : Game) (ev : Event) : result Game :=
  match ev with
  | Click r c => handleClick st r c
  | Hint => giveHint st
  | Reset => Ok (resetLevel st)
  end.

(** A session: the events in order, each handled in the state the one
    before has left. *)
Definition run (st : Game) (evs : list Event) : result Game := forEach evs step st.

End UI.

(** ** The solver on a store

    The same solver with its arrays as objects.  A row array lives in the
    store and is named by a reference; [ng[r][c] = null] updates the row
    array in place, for every grid that shares it.  An outer array is the
    list of the references of its rows: the solver never assigns to an
    outer array, nor to a field of a cell object, so these stay values. *)

Module Heap.

Abbreviation loc := nat.

(** The row arrays allocated so far, in order of allocation. *)
Abbreviation store := (list Row).

Abbreviation GridRef := (list loc).

(** A computation that reads and updates the store, or throws. *)
Definition M (A : Type) : Type := store → result (A * store).

#[global] Instance M_ret : MRet M := fun A a h => Ok (a, h).
#[global] Instance M_bind : MBind M := fun A B f m h =>
  match m h with
  | Ok (a, h') => f a h'
  | TypeError => TypeError
  | OutOfFuel => OutOfFuel
  end.

Definition throw {A : Type} : M A := fun _ => TypeError.

(** A pure computation, run without touching the store. *)
Definition lift {A : Type} (r : result A) : M A := fun h =>
  match r with
  | Ok a => Ok (a, h)
  | TypeError => TypeError
  | OutOfFuel => OutOfFuel
  end.

(** A new row array. *)
Definition alloc (row : Row) : M loc := fun h => Ok (length h, h ++ [row]).

(** The content of a row array. *)
Definition read (l : loc) : M Row := fun h =>
  match h !! l with
  | Some row => Ok (row, h)
  | None => TypeError
  end.

(** [row[c] = v] on the row array [l], for a cell that exists. *)
Definition write (l : loc) (c : nat) (v : option Cell) : M unit := fun h =>
  match h !! l with
  | Some row => Ok (tt, <[l := <[c := v]> row]> h)
  | None => TypeError
  end.

Fixpoint forEach {A S : Type} (l : list A) (body : S → A → M S) (s : S) : M S :=
  match l with
  | [] => mret s
  | a :: l' => s' ← body s a; forEach l' body s'
  end.

(** [Array.prototype.map] with a callback that uses the store. *)
Fixpoint mapArray {A B : Type} (f : A → M B) (l : list A) : M (list B) :=
  match l with
  | [] => mret []
  | a :: l' => b ← f a; bs ← mapArray f l'; mret (b :: bs)
  end.

(** The grid a reference stands for, read from the store. *)
Definition snapshot (g : GridRef) : M Grid := mapArray read g.

(** [function cloneState(g)]: a new row array for every row. *)
Definition cloneState (g : GridRef) : M GridRef :=
  mapArray (fun l => row ← read l;
                     alloc (map (fun c => match c with Some cl => Some cl | None => None end) row)) g.

(** [if (ng[r][c] && ng[r][c].id === id) ng[r][c] = null] *)
Definition removeIdAt (pid : Z) (ng : GridRef) (r : nat) (_ : unit) (c : nat) : M unit :=
  match ng !! r with
  | None => throw
  | Some l =>
      row ← read l;
      match mjoin (row !! c) with
      | Some cl => if id cl =? pid then write l c None else mret tt
      | None => mret tt
      end
  end.

(** [function removeId(g, id)] *)
Definition removeId (rows cols : nat) (g : GridRef) (pid : Z) : M GridRef :=
  ng ← cloneState g;
  _ ← forEach (seq 0 rows)
        (fun _ r => forEach (seq 0 cols) (removeIdAt pid ng r) tt) tt;
  mret ng.

Record Node := mkNode { grid : GridRef; moveSeq : list Move }.

Record Search := mkSearch {
  queue : list Node;
  visited : gset string;
  states : Z
}.

(** [serializeGrid], [canExit] and the scans only read: they are run on
    the snapshot of the grid. *)
Definition serializeGrid (g : GridRef) : M string :=
  gv ← snapshot g; mret (serializeGrid gv).

Definition removableHeads (rows cols : nat) (g : GridRef) : M (list Move) :=
  gv ← snapshot g; lift (removableHeads rows cols gv).

Definition allEmpty (g : GridRef) : M bool :=
  gv ← snapshot g; mret (allEmpty gv).

Definition expandMove (rows cols : nat) (node : Node)
    (vq : gset string * list Node) (m : Move) : M (gset string * list Node) :=
  let g := grid node in
  gv ← snapshot g;
  cell ← lift (cellAt gv m.1 m.2);
  match cell with
  | None => throw
  | Some cl =>
      ng ← removeId rows cols g (id cl);
      key ← serializeGrid ng;
      if decide (key ∈ vq.1) then mret vq
      else mret ({[key]} ∪ vq.1, vq.2 ++ [mkNode ng (moveSeq node ++ [m])])
  end.

Fixpoint searchLoop (fuel : nat) (rows cols : nat) (maxStates : Z) (s : Search)
    : M (option (list Move) * Z) :=
  match queue s with
  | [] => mret (None, states s)
  | node :: rest =>
      match fuel with
      | O => fun _ => OutOfFuel
      | S fuel' =>
          let states' := states s + 1 in
          if maxStates <? states' then mret (None, states')
          else
            empty ← allEmpty (grid node);
            if empty : bool then mret (Some (moveSeq node), states')
            else
              moves ← removableHeads rows cols (grid node);
              vq ← forEach moves (expandMove rows cols node) (visited s, rest);
              searchLoop fuel' rows cols maxStates (mkSearch vq.2 vq.1 states')
      end
  end.

Definition solveRun (startGrid : GridRef) (maxStates : Z)
    : M (option (list Move) * Z) :=
  let rows := length startGrid in
  cols ← match startGrid !! 0%nat with
         | None => throw
         | Some l => row ← read l; mret (length row)
         end;
  startKey ← serializeGrid startGrid;
  start ← cloneState startGrid;
  searchLoop (S (Z.to_nat maxStates)) rows cols maxStates
    (mkSearch [mkNode start []] {[startKey]} 0).

Definition findSolutionLimited (startGrid : GridRef) (maxStates : Z)
    : M (option (list Move)) :=
  r ← solveRun startGrid maxStates; mret r.1.

(** A grid reference is well formed when its rows are allocated: the
    store then holds the grid [gv] at it. *)
Definition holds (h : store) (g : GridRef) (gv : Grid) : Prop :=
  Forall2 (fun l row => h !! l = Some row) g gv.

End Heap.

(** ** The game component on the store

    The handlers with their grids as arrays of row arrays.  [handleClick]
    writes in place, to the copy [cloneGrid] has made; the state keeps
    references to the outer arrays, which are never assigned to. *)
Module HeapUI.

Record Game := mkGame {
  initialGrid : Heap.GridRef;
  grid : Heap.GridRef;
  hintCell : option Move
}.

(** [function cloneGrid(g)]: a new row array for every row. *)
Definition cloneGrid (g : Heap.GridRef) : Heap.M Heap.GridRef :=
  Heap.mapArray
    (fun l => row ← Heap.read l;
              Heap.alloc (map (fun cell => match cell with Some cl => Some cl | None => None end)
                            row)) g.

(** [function resetLevel()] *)
Definition resetLevel (st : Game) : Heap.M Game :=
  g ← cloneGrid (initialGrid st);
  mret (mkGame (initialGrid st) g None).

(** [ng[0].length] *)
Definition width (ng : Heap.GridRef) : Heap.M nat :=
  match ng !! 0%nat with
  | None => Heap.throw
  | Some l => row ← Heap.read l; mret (length row)
  end.

(** The loops of [handleClick] over the copy [ng]. *)
Definition clearClicked (ng : Heap.GridRef) (pid : Z) : Heap.M unit :=
  Heap.forEach (seq 0 (length ng))
    (fun _ rr => W ← width ng; Heap.forEach (seq 0 W) (Heap.removeIdAt pid ng rr) tt) tt.

(** [function handleClick(r, c)]; the tests read the grid in play. *)
Definition handleClick (st : Game) (r c : nat) : Heap.M Game :=
  gv ← Heap.snapshot (grid st);
  cell ← Heap.lift (cellAt gv r c);
  match cell with
  | None => mret st
  | Some cl =>
      if negb (head cl) then mret st
      else
        b ← Heap.lift (canExit gv r c);
        if b : bool then
          ng ← cloneGrid (grid st);
          _ ← clearClicked ng (id cl);
          mret (mkGame (initialGrid st) ng None)
        else mret (mkGame (initialGrid st) (grid st) (Some (r, c)))
  end.

(** [function giveHint()] only reads. *)
Definition giveHint (st : Game) : Heap.M Game :=
  gv ← Heap.snapshot (grid st);
  found ← Heap.lift (UI.findHint gv);
  mret (mkGame (initialGrid st) (grid st) found).

Definition step (st : Game) (ev : UI.Event) : Heap.M Game :=
  match ev with
  | UI.Click r c => handleClick st r c
  | UI.Hint => giveHint st
  | UI.Reset => resetLevel st
  end.

Definition run (st : Game) (evs : list UI.Event) : Heap.M Game :=
  Heap.forEach evs step st.

End HeapUI.

(** A run on the store simulates a run on values: it ends the same way,
    the store has only grown, and the results are related by [Rel] in the
    final store. *)
Definition simulates {A B : Type} (Rel : Heap.store → A → B → Prop)
    (mH : Heap.M A) (h : Heap.store) (mV : result B) : Prop :=
  match mV with
  | Ok b => ∃ a ext, mH h = Ok (a, h ++ ext) ∧ Rel (h ++ ext) a b
  | TypeError => mH h = TypeError
  | OutOfFuel => mH h = OutOfFuel
  end.

(** A node of the queue on the store stands for a node on values. *)
Definition nodeRel (h : Heap.store) (nH : Heap.Node) (nV : Node) : Prop :=
  Heap.moveSeq nH = moveSeq nV ∧ Heap.holds h (Heap.grid nH) (grid nV).

Definition queueRel (h : Heap.store) (vqH : gset string * list Heap.Node)
    (vqV : gset string * list Node) : Prop :=
  vqH.1 = vqV.1 ∧ Forall2 (nodeRel h) vqH.2 vqV.2.

Definition searchRel (h : Heap.store) (sH : Heap.Search) (sV : Search) : Prop :=
  queueRel h (Heap.visited sH, Heap.queue sH) (visited sV, queue sV) ∧
  Heap.states sH = states sV.

(** A state of the game on the store stands for a state on values. *)
Definition gameRel (h : Heap.store) (stH : HeapUI.Game) (stV : UI.Game) : Prop :=
  Heap.holds h (HeapUI.initialGrid stH) (UI.initialGrid stV) ∧
  Heap.holds h (HeapUI.grid stH) (UI.grid stV) ∧
  HeapUI.hintCell stH = UI.hintCell stV.

(** *** Invariant of the scan *)

(** The grid is a [rows x cols] matrix. *)
Definition rect (rows cols : nat) (g : Grid) : Prop :=
  length g = rows ∧ ∀ r (row : Row), g !! r = Some row → length row = cols.

(** Every id in the grid is below [n]. *)
Definition idsBelow (n : Z) (g : Grid) : Prop :=
  ∀ r c cl, cellAt g r c = Ok (Some cl) → id cl < n.

(** Every id in the grid is at least [n]. *)
Definition idsFrom (n : Z) (g : Grid) : Prop :=
  ∀ r c cl, cellAt g r c = Ok (Some cl) → n <= id cl.

(** Some sequence of legal moves empties the grid. *)
Definition solvable (g : Grid) : Prop :=
  ∃ ms gF, applyMoves g ms = Some gF ∧ allEmpty gF = true.

(** [found] is the first cell, in row-major order over the rows of the
    grid and the columns of its first row, for which [canExit] holds;
    [None] says that there is no such cell. *)
Definition firstExit (g : Grid) (found : option Move) : Prop :=
  let W := default 0%nat (length <$> g !! 0%nat) in
  match found with
  | Some m =>
      (m.1 < length g)%nat ∧ (m.2 < W)%nat ∧ canExit g m.1 m.2 = Ok true ∧
      ∀ r c, (r < m.1 ∨ (r = m.1 ∧ c < m.2))%nat → (c < W)%nat →
        canExit g r c ≠ Ok true
  | None => ∀ r c, (r < length g)%nat → (c < W)%nat → canExit g r c ≠ Ok true
  end.

(** The number of segments of the grid that satisfy [P], counted the way
    the status line counts heads. *)
Definition countCells (P : Cell → bool) (g : Grid) : nat :=
  length (List.filter P (omap (fun cell : option Cell => cell) (mjoin g))).

(** What the scan keeps: the candidate is a matrix, its pieces are valid,
    and the id counter is above every id placed. *)
Definition genInv (rows cols : nat) (st : GenState) : Prop :=
  rect rows cols (genGrid st) ∧
  gridInvariant (genGrid st) ∧
  idsBelow (idCounter st) (genGrid st).

(** The cell [k] steps behind the head at [(r, c)] of a piece pointing in
    direction [d]. *)
Definition behind (d : Dir) (r c : nat) (k : nat) : nat * nat :=
  (Z.to_nat (Z.of_nat r - (DIR_VECTORS d).1 * Z.of_nat k),
   Z.to_nat (Z.of_nat c - (DIR_VECTORS d).2 * Z.of_nat k)).

(** The cells behind the head are on the board and empty, up to [n]. *)
Definition roomBehind (g : Grid) (rows cols : nat) (d : Dir) (r c n : nat) : Prop :=
  ∀ k, (k < n)%nat →
    0 <= Z.of_nat r - (DIR_VECTORS d).1 * Z.of_nat k < Z.of_nat rows ∧
    0 <= Z.of_nat c - (DIR_VECTORS d).2 * Z.of_nat k < Z.of_nat cols ∧
    cellAt g (behind d r c k).1 (behind d r c k).2 = Ok None.

(** *** Reachable states *)

(** The grids reachable from [g0] by legal moves: a move removes the
    piece of a head for which [canExit] holds. *)
Inductive Reach (g0 : Grid) : Grid → Prop :=
  | Reach_start : Reach g0 g0
  | Reach_move s r c cl :
      Reach g0 s →
      cellAt s r c = Ok (Some cl) →
      canExit s r c = Ok true →
      Reach g0 (removePiece s (id cl)).

(** No piece has the id 0, the number [serializeGrid] prints for an empty
    cell. *)
Definition noZeroId (g : Grid) : Prop :=
  ∀ r c cl, cellAt g r c = Ok (Some cl) → id cl ≠ 0.

(** [s] is [g0] with some cells emptied. *)
Definition restriction (g0 s : Grid) : Prop :=
  Forall2 (Forall2 (fun x0 x : option Cell => x = None ∨ x = x0)) g0 s.

(** The invariant of the search that makes it complete: the nodes of the
    queue are reachable, the key of the start grid is visited, and a
    reachable grid whose key is visited is waiting in the queue or has been
    expanded (it is not empty and the keys of its successors are
    visited). *)
Definition bfsInv (g0 : Grid) (s : Search) : Prop :=
  Forall (fun n => Reach g0 (grid n)) (queue s) ∧
  serializeGrid g0 ∈ visited s ∧
  ∀ t, Reach g0 t → serializeGrid t ∈ visited s →
    (∃ n, n ∈ queue s ∧ grid n = t) ∨
    (allEmpty t = false ∧
     ∀ r c cl, cellAt t r c = Ok (Some cl) → canExit t r c = Ok true →
       serializeGrid (removePiece t (id cl)) ∈ visited s).

(** A candidate the generator accepts from the source [rndCycle]. *)
Definition boardGenerated : Grid :=
  [[Some (mkCell 1 R 2 false); Some (mkCell 1 R 2 true); None];
   [Some (mkCell 2 R 2 false); Some (mkCell 2 R 2 true); None]].

(** ** Example boards *)

(** The 2 x 2 board of the specification: one piece of length 1 at
    [(0,0)], pointing right. *)
Definition boardSingle : Grid :=
  [[Some (mkCell 1 R 1 true); None]; [None; None]].

(** A 2 x 3 board with three pieces; piece 1 has to leave before piece 2,
    and piece 2 before piece 3. *)
Definition boardThree : Grid :=
  [[Some (mkCell 1 R 2 false); Some (mkCell 1 R 2 true); None];
   [Some (mkCell 2 U 1 true); None; Some (mkCell 3 L 1 true)]].

(** [boardThree] with other directions and lengths on the same ids. *)
Definition boardThreeTurned : Grid :=
  [[Some (mkCell 1 L 2 true); Some (mkCell 1 L 2 false); None];
   [Some (mkCell 2 D 1 true); None; Some (mkCell 3 U 4 false)]].

(** A random source that always answers 0. *)
Definition rndZero (n : nat) : Q := 0%Q.

(** A random source that repeats 0, 3/4, 1/2: with density 1/2 and
    [maxLen] 2 every cell asks for a piece of length 2 pointing right. *)
Definition rndCycle (n : nat) : Q :=
  match (n mod 3)%nat with
  | 0%nat => 0%Q
  | 1%nat => (3 # 4)%Q
  | _ => (1 # 2)%Q
  end.

(** * Properties *)

(** ** Lemmas on the exit predicate *)

Lemma cellAt_Ok grid r c v :
  cellAt grid r c = Ok v ↔ ∃ row, grid !! r = Some row ∧ v = mjoin (row !! c).
Proof.
  unfold cellAt. destruct (grid !! r) as [row|]; split.
  - intros [= <-]. eauto.
  - intros (row' & [= <-] & ->). done.
  - done.
  - intros (? & ? & _). done.
Qed.

Lemma content_unfold (grid : Grid) rr cc :
  0 <= rr → 0 <= cc →
  content grid (rr, cc) = (row ← grid !! Z.to_nat rr; mjoin (row !! Z.to_nat cc)).
Proof.
  intros Hr Hc. unfold content. simpl.
  by rewrite (proj2 (Z.leb_le 0 rr) Hr), (proj2 (Z.leb_le 0 cc) Hc).
Qed.

Lemma inBounds_spec H W rr cc :
  inBounds H W rr cc = true ↔ 0 <= rr < H ∧ 0 <= cc < W.
Proof.
  unfold inBounds. rewrite !andb_true_iff, !Z.leb_le, !Z.ltb_lt. lia.
Qed.

Lemma inBounds_false H W rr cc :
  inBounds H W rr cc = false ↔ ¬ (0 <= rr < H ∧ 0 <= cc < W).
Proof.
  rewrite <- inBounds_spec. by destruct (inBounds H W rr cc).
Qed.

Section ExitWalk.
Variable grid : Grid.
Variable W : Z.
Variable pid : Z.
Variable d : Dir.

Let H : Z := Z.of_nat (length grid).
Let dr : Z := (DIR_VECTORS d).1.
Let dc : Z := (DIR_VECTORS d).2.

Lemma cellAt_inBounds rr cc :
  inBounds H W rr cc = true →
  cellAt grid (Z.to_nat rr) (Z.to_nat cc) = Ok (content grid (rr, cc)).
Proof.
  intros [Hr Hc]%inBounds_spec. rewrite content_unfold by lia. unfold cellAt.
  destruct (grid !! Z.to_nat rr) as [row|] eqn:E; [done|].
  apply lookup_ge_None in E. subst H. lia.
Qed.

Lemma edgeDist_pos rr cc : inBounds H W rr cc = true → 1 <= edgeDist d H W rr cc.
Proof. intros ?%inBounds_spec. unfold edgeDist. destruct d; lia. Qed.

Lemma edgeDist_step rr cc :
  edgeDist d H W (rr + dr) (cc + dc) = edgeDist d H W rr cc - 1.
Proof. subst dr dc. unfold edgeDist. destruct d; simpl; lia. Qed.

(** With fuel for the distance to the edge, the loop returns. *)
Lemma exitWalk_total fuel rr cc :
  edgeDist d H W rr cc <= Z.of_nat fuel →
  ∃ b, exitWalk fuel grid H W pid dr dc rr cc = Ok b.
Proof.
  revert rr cc. induction fuel as [|fuel IH]; intros rr cc Hf; simpl.
  - destruct (inBounds H W rr cc) eqn:E; [|eauto].
    apply edgeDist_pos in E. lia.
  - destruct (inBounds H W rr cc) eqn:E; [|eauto].
    rewrite (cellAt_inBounds _ _ E). simpl.
    assert (Hf' : edgeDist d H W (rr + dr) (cc + dc) <= Z.of_nat fuel)
      by (rewrite edgeDist_step; lia).
    destruct (content grid (rr, cc)) as [o|]; [|by apply IH].
    destruct (negb (id o =? pid)); [eauto | by apply IH].
Qed.

(** Past the edge the ray never comes back onto the board. *)
Lemma ray_leaves rr cc j :
  inBounds H W (rr - dr) (cc - dc) = true →
  inBounds H W rr cc = false →
  0 <= j →
  inBounds H W (rr + j * dr) (cc + j * dc) = false.
Proof.
  rewrite inBounds_spec, !inBounds_false. subst dr dc.
  destruct d; simpl; lia.
Qed.

(** The loop answers [true] exactly when no cell of the ray holds a
    segment of another piece. *)
Lemma exitWalk_true_iff fuel rr cc :
  inBounds H W (rr - dr) (cc - dc) = true →
  edgeDist d H W rr cc <= Z.of_nat fuel →
  exitWalk fuel grid H W pid dr dc rr cc = Ok true ↔
  ∀ j, 0 <= j → inBounds H W (rr + j * dr) (cc + j * dc) = true →
    ∀ o, content grid (rr + j * dr, cc + j * dc) = Some o → id o = pid.
Proof.
  revert rr cc. induction fuel as [|fuel IH]; intros rr cc Hprev Hf.
  - simpl. destruct (inBounds H W rr cc) eqn:E.
    + apply edgeDist_pos in E. lia.
    + split; [|done]. intros _ j Hj Hin.
      rewrite (ray_leaves _ _ _ Hprev E Hj) in Hin. done.
  - simpl. destruct (inBounds H W rr cc) eqn:E.
    + rewrite (cellAt_inBounds _ _ E). simpl.
      assert (Hf' : edgeDist d H W (rr + dr) (cc + dc) <= Z.of_nat fuel)
        by (rewrite edgeDist_step; lia).
      assert (Hprev' : inBounds H W (rr + dr - dr) (cc + dc - dc) = true)
        by (replace (rr + dr - dr) with rr by lia;
            replace (cc + dc - dc) with cc by lia; done).
      specialize (IH _ _ Hprev' Hf').
      assert (Hshift : ∀ j, (rr + dr + j * dr, cc + dc + j * dc)
                            = (rr + (j + 1) * dr, cc + (j + 1) * dc))
        by (intros j; f_equal; lia).
      assert (Hrest :
        (∀ j, 0 <= j → inBounds H W (rr + j * dr) (cc + j * dc) = true →
           ∀ o, content grid (rr + j * dr, cc + j * dc) = Some o → id o = pid) ↔
        (∀ o, content grid (rr, cc) = Some o → id o = pid) ∧
        (∀ j, 0 <= j → inBounds H W (rr + dr + j * dr) (cc + dc + j * dc) = true →
           ∀ o, content grid (rr + dr + j * dr, cc + dc + j * dc) = Some o →
                id o = pid)).
      { split.
        - intros Hall. split.
          + intros o Ho. apply (Hall 0); [lia| |].
            * by replace (rr + 0 * dr) with rr by lia;
                 replace (cc + 0 * dc) with cc by lia.
            * by replace (rr + 0 * dr) with rr by lia;
                 replace (cc + 0 * dc) with cc by lia.
          + intros j Hj Hin o Ho.
            pose proof (Hshift j) as [= E1 E2].
            rewrite E1, E2 in Hin, Ho. apply (Hall (j + 1)); [lia|done..].
        - intros [H0 Hall] j Hj Hin o Ho.
          destruct (decide (j = 0)) as [->|Hne].
          + apply H0.
            by replace (rr + 0 * dr) with rr in Ho by lia;
               replace (cc + 0 * dc) with cc in Ho by lia.
          + pose proof (Hshift (j - 1)) as [= E1 E2].
            replace (j - 1 + 1) with j in E1, E2 by lia.
            apply (Hall (j - 1)); [lia|by rewrite E1, E2..]. }
      rewrite Hrest. clear Hrest.
      destruct (content grid (rr, cc)) as [o|] eqn:Ec.
      * destruct (id o =? pid) eqn:Eid; simpl.
        -- apply Z.eqb_eq in Eid. rewrite IH. split; [|by intros [_ ?]].
           intros Hall. split; [|done]. by intros o' [= <-].
        -- apply Z.eqb_neq in Eid. split; [done|]. intros [H0 _].
           destruct Eid. by apply H0.
      * rewrite IH. split; [|by intros [_ ?]]. by intros Hall.
    + split; [|done]. intros _ j Hj Hin.
      rewrite (ray_leaves _ _ _ Hprev E Hj) in Hin. done.
Qed.
End ExitWalk.

Lemma canExit_unfold grid r c cl row0 :
  cellAt grid r c = Ok (Some cl) →
  head cl = true →
  grid !! 0%nat = Some row0 →
  canExit grid r c =
    exitWalk (length grid + length row0) grid (Z.of_nat (length grid))
      (Z.of_nat (length row0)) (id cl) (DIR_VECTORS (dir cl)).1
      (DIR_VECTORS (dir cl)).2
      (Z.of_nat r + (DIR_VECTORS (dir cl)).1)
      (Z.of_nat c + (DIR_VECTORS (dir cl)).2).
Proof.
  intros Hc Hh H0. unfold canExit, width. rewrite Hc, H0. simpl.
  rewrite Hh. simpl. by destruct (DIR_VECTORS (dir cl)).
Qed.

Lemma cellAt_row0 grid r c v : cellAt grid r c = Ok v → ∃ row0, grid !! 0%nat = Some row0.
Proof.
  intros (row & Hr & _)%cellAt_Ok. destruct grid as [|row0 grid]; [done|]. eauto.
Qed.

Lemma cellAt_lt grid r c v : cellAt grid r c = Ok v → (r < length grid)%nat.
Proof. intros (row & Hr & _)%cellAt_Ok. by eapply lookup_lt_Some. Qed.

(** The fuel [canExit] gives its loop suffices from any start. *)
Lemma edgeDist_fuel d (H W : nat) rr cc :
  inBounds (Z.of_nat H) (Z.of_nat W) rr cc = true →
  edgeDist d (Z.of_nat H) (Z.of_nat W) rr cc <= Z.of_nat (H + W).
Proof. intros ?%inBounds_spec. unfold edgeDist. destruct d; lia. Qed.

Lemma exitWalk_returns grid (W : nat) pid d rr cc :
  ∃ b, exitWalk (length grid + W) grid (Z.of_nat (length grid)) (Z.of_nat W) pid
         (DIR_VECTORS d).1 (DIR_VECTORS d).2 rr cc = Ok b.
Proof.
  destruct (inBounds (Z.of_nat (length grid)) (Z.of_nat W) rr cc) eqn:E.
  - apply exitWalk_total. by apply edgeDist_fuel.
  - exists true. destruct (length grid + W)%nat; simpl; by rewrite E.
Qed.

(** [canExit] never runs out of fuel, and throws only when [grid[r]] is
    [undefined]. *)
Lemma canExit_returns grid r c :
  (r < length grid)%nat → ∃ b, canExit grid r c = Ok b.
Proof.
  intros Hr. destruct (lookup_lt_is_Some_2 grid r Hr) as [row Hrow].
  destruct (cellAt grid r c) as [[cl|]| |] eqn:Hc.
  - destruct (head cl) eqn:Hh.
    + destruct (cellAt_row0 _ _ _ _ Hc) as [row0 H0].
      rewrite (canExit_unfold _ _ _ _ _ Hc Hh H0). apply exitWalk_returns.
    + exists false. unfold canExit. rewrite Hc. simpl. by rewrite Hh.
  - exists false. unfold canExit. by rewrite Hc.
  - unfold cellAt in Hc. by rewrite Hrow in Hc.
  - unfold cellAt in Hc. by rewrite Hrow in Hc.
Qed.

Lemma canExit_true_head grid r c :
  canExit grid r c = Ok true →
  ∃ cl, cellAt grid r c = Ok (Some cl) ∧ head cl = true.
Proof.
  unfold canExit. destruct (cellAt grid r c) as [[cl|]| |]; simpl; try done.
  destruct (head cl) eqn:Hh; simpl; [intros _; eauto|done].
Qed.

(** ** What [canExit] decides *)

Lemma canExit_false_of_not_head (grid : Grid) (r c : nat) (cell : option Cell) :
  cellAt grid r c = Ok cell →
  (cell = None ∨ ∃ cl, cell = Some cl ∧ head cl = false) →
  canExit grid r c = Ok false.
Proof.
  intros Hc [->|(cl & -> & Hh)]; unfold canExit; rewrite Hc; simpl; [done|].
  by rewrite Hh.
Qed.

(** C2, as the code decides it.  For a head on the board, [canExit] returns,
    and it returns [true] exactly when no board cell ahead of the head
    holds a segment of another piece: each is empty or belongs to the same
    piece. *)
Theorem canExit_iff_pathClear (grid : Grid) (r c : nat) (cl : Cell) :
  cellAt grid r c = Ok (Some cl) →
  head cl = true →
  onBoard grid (Z.of_nat r, Z.of_nat c) →
  (∃ b, canExit grid r c = Ok b) ∧
  (canExit grid r c = Ok true ↔ pathClear grid r c cl).
Proof.
  intros Hc Hh [Hr Hcol]. simpl in Hr, Hcol. split.
  { apply canExit_returns. lia. }
  destruct (cellAt_row0 _ _ _ _ Hc) as [row0 H0].
  rewrite H0 in Hcol. simpl in Hcol.
  rewrite (canExit_unfold _ _ _ _ _ Hc Hh H0).
  set (dr := (DIR_VECTORS (dir cl)).1). set (dc := (DIR_VECTORS (dir cl)).2).
  assert (Hprev : inBounds (Z.of_nat (length grid)) (Z.of_nat (length row0))
                    (Z.of_nat r + dr - dr) (Z.of_nat c + dc - dc) = true).
  { apply inBounds_spec. lia. }
  assert (Hfuel : edgeDist (dir cl) (Z.of_nat (length grid)) (Z.of_nat (length row0))
                    (Z.of_nat r + dr) (Z.of_nat c + dc)
                  <= Z.of_nat (length grid + length row0)).
  { subst dr dc. unfold edgeDist. destruct (dir cl); simpl; lia. }
  subst dr dc.
  rewrite (exitWalk_true_iff grid _ (id cl) (dir cl) _ _ _ Hprev Hfuel).
  unfold pathClear, onBoard, ahead. rewrite H0. simpl.
  set (dr := (DIR_VECTORS (dir cl)).1). set (dc := (DIR_VECTORS (dir cl)).2).
  split.
  - intros Hall k Hk Hon o Ho.
    assert (E1 : Z.of_nat r + k * dr = Z.of_nat r + dr + (k - 1) * dr) by lia.
    assert (E2 : Z.of_nat c + k * dc = Z.of_nat c + dc + (k - 1) * dc) by lia.
    rewrite E1, E2 in Hon, Ho.
    apply (Hall (k - 1)); [lia| |done]. by apply inBounds_spec.
  - intros Hall j Hj Hin o Ho.
    assert (E1 : Z.of_nat r + dr + j * dr = Z.of_nat r + (j + 1) * dr) by lia.
    assert (E2 : Z.of_nat c + dc + j * dc = Z.of_nat c + (j + 1) * dc) by lia.
    rewrite E1, E2 in Hin, Ho.
    apply (Hall (j + 1)); [lia| |done]. by apply inBounds_spec.
Qed.

(** ** Loops *)

Lemma forEach_app {A S : Type} (l1 l2 : list A) (body : S → A → result S) s :
  forEach (l1 ++ l2) body s = (s' ← forEach l1 body s; forEach l2 body s').
Proof.
  revert s. induction l1 as [|a l1 IH]; intros s; simpl; [done|].
  destruct (body s a); simpl; [apply IH|done..].
Qed.

Lemma forEach_snoc {A S : Type} (l : list A) a (body : S → A → result S) s :
  forEach (l ++ [a]) body s = (s' ← forEach l body s; body s' a).
Proof.
  rewrite forEach_app. destruct (forEach l body s); simpl; [|done..].
  by destruct (body _ a).
Qed.

(** An invariant kept by every round holds when the loop ends, and the
    loop ends without an exception if no round throws. *)
Lemma forEach_invariant {A S : Type} (P : S → Prop) (l : list A)
    (body : S → A → result S) s :
  P s →
  (∀ s a, a ∈ l → P s → ∃ s', body s a = Ok s' ∧ P s') →
  ∃ s', forEach l body s = Ok s' ∧ P s'.
Proof.
  revert s. induction l as [|a l IH]; intros s Hs Hbody; simpl; [eauto|].
  destruct (Hbody s a) as (s1 & -> & Hs1); [left|done|]. simpl.
  apply IH; [done|]. intros s2 b Hb. apply Hbody. by right.
Qed.

Lemma forEach_Ok_invariant {A S : Type} (P : S → Prop) (l : list A)
    (body : S → A → result S) s s' :
  forEach l body s = Ok s' →
  P s →
  (∀ s a s', a ∈ l → P s → body s a = Ok s' → P s') →
  P s'.
Proof.
  revert s. induction l as [|a l IH]; intros s; simpl.
  - by intros [= ->].
  - destruct (body s a) as [s1| |] eqn:E; simpl; [|done..].
    intros Hrun Hs Hbody. apply (IH s1 Hrun).
    + eapply Hbody; [left|done..].
    + intros s2 b s3 Hb. apply Hbody. by right.
Qed.

(** ** [removeId] *)

Lemma cloneState_id g : cloneState g = g.
Proof.
  unfold cloneState. rewrite <- (map_id g) at 2. apply map_ext. intros row.
  rewrite <- (map_id row) at 2. apply map_ext. by intros [cl|].
Qed.

Lemma clearId_idemp pid c : clearId pid (clearId pid c) = clearId pid c.
Proof.
  destruct c as [cl|]; simpl; [|done].
  destruct (id cl =? pid) eqn:E; simpl; [done|]. by rewrite E.
Qed.

Lemma clearPrefix_lookup cols pid (row : Row) c :
  clearPrefix cols pid row !! c =
  (fun x => if decide (c < cols)%nat then clearId pid x else x) <$> row !! c.
Proof. unfold clearPrefix. by rewrite list_lookup_imap. Qed.

Lemma clearPrefix_length cols pid (row : Row) :
  length (clearPrefix cols pid row) = length row.
Proof. unfold clearPrefix. by rewrite length_imap. Qed.

Lemma clearWindow_lookup rows cols pid (g : Grid) r :
  clearWindow rows cols pid g !! r =
  (fun row => if decide (r < rows)%nat then clearPrefix cols pid row else row)
    <$> g !! r.
Proof. unfold clearWindow. by rewrite list_lookup_imap. Qed.

Lemma clearWindow_length rows cols pid (g : Grid) :
  length (clearWindow rows cols pid g) = length g.
Proof. unfold clearWindow. by rewrite length_imap. Qed.

Lemma clearPrefix_0 pid (row : Row) : clearPrefix 0 pid row = row.
Proof.
  apply list_eq. intros c. rewrite clearPrefix_lookup.
  by destruct (row !! c).
Qed.

Lemma clearWindow_0 cols pid (g : Grid) : clearWindow 0 cols pid g = g.
Proof.
  apply list_eq. intros r. rewrite clearWindow_lookup.
  by destruct (g !! r).
Qed.

(** One more column of the row. *)
Lemma clearPrefix_S n pid (row : Row) :
  clearPrefix (S n) pid row =
  match row !! n with
  | Some x => <[n := clearId pid x]> (clearPrefix n pid row)
  | None => clearPrefix n pid row
  end.
Proof.
  apply list_eq. intros c. destruct (row !! n) as [x|] eqn:En.
  - rewrite list_lookup_insert, clearPrefix_length, !clearPrefix_lookup.
    apply lookup_lt_Some in En as Hlt.
    destruct (decide (n = c)) as [<-|Hne].
    + rewrite En. simpl. rewrite decide_True by lia.
      rewrite decide_True by lia. done.
    + rewrite decide_False by lia.
      destruct (row !! c); simpl; [|done].
      repeat case_decide; try done; lia.
  - rewrite !clearPrefix_lookup. apply lookup_ge_None in En.
    destruct (row !! c) eqn:Ec; simpl; [|done].
    apply lookup_lt_Some in Ec. repeat case_decide; try done; lia.
Qed.

(** The inner loop of [removeId] on row [r]. *)
Lemma removeId_inner pid r (ng : Grid) (row : Row) n :
  ng !! r = Some row →
  forEach (seq 0 n) (removeIdAt pid r) ng = Ok (<[r := clearPrefix n pid row]> ng).
Proof.
  intros Hr. induction n as [|n IH].
  - simpl. rewrite clearPrefix_0, list_insert_id; done.
  - rewrite seq_S, forEach_snoc, IH. simpl.
    assert (Hlt : (r < length ng)%nat) by by eapply lookup_lt_Some.
    unfold removeIdAt, cellAt, setCell.
    rewrite list_lookup_insert_eq by done. simpl.
    rewrite clearPrefix_lookup, clearPrefix_S.
    destruct (row !! n) as [x|] eqn:En; simpl; [|done].
    rewrite decide_False by lia.
    destruct x as [cl|]; simpl.
    + destruct (id cl =? pid) eqn:E.
      * rewrite list_insert_insert_eq. done.
      * f_equal. f_equal. symmetry. apply list_insert_id.
        rewrite clearPrefix_lookup, En. simpl. rewrite decide_False by lia. done.
    + f_equal. f_equal. symmetry. apply list_insert_id.
      rewrite clearPrefix_lookup, En. simpl. rewrite decide_False by lia. done.
Qed.

Lemma clearWindow_S n cols pid (g : Grid) :
  clearWindow (S n) cols pid g =
  match g !! n with
  | Some row => <[n := clearPrefix cols pid row]> (clearWindow n cols pid g)
  | None => clearWindow n cols pid g
  end.
Proof.
  apply list_eq. intros r. destruct (g !! n) as [row|] eqn:En.
  - rewrite list_lookup_insert, clearWindow_length, !clearWindow_lookup.
    apply lookup_lt_Some in En as Hlt.
    destruct (decide (n = r)) as [<-|Hne].
    + rewrite En. simpl. rewrite decide_True by lia.
      rewrite decide_True by lia. done.
    + rewrite decide_False by lia.
      destruct (g !! r); simpl; [|done].
      repeat case_decide; try done; lia.
  - rewrite !clearWindow_lookup. apply lookup_ge_None in En.
    destruct (g !! r) eqn:Er; simpl; [|done].
    apply lookup_lt_Some in Er. repeat case_decide; try done; lia.
Qed.

Lemma removeId_outer pid cols (g : Grid) n :
  (n ≤ length g)%nat →
  forEach (seq 0 n)
    (fun ng r => forEach (seq 0 cols) (removeIdAt pid r) ng) g
  = Ok (clearWindow n cols pid g).
Proof.
  induction n as [|n IH]; intros Hn.
  - simpl. by rewrite clearWindow_0.
  - rewrite seq_S, forEach_snoc, IH by lia. simpl.
    destruct (lookup_lt_is_Some_2 g n) as [row Hrow]; [lia|].
    erewrite removeId_inner; last first.
    { rewrite clearWindow_lookup, Hrow. simpl. rewrite decide_False by lia. done. }
    by rewrite clearWindow_S, Hrow.
Qed.

(** [removeId] in closed form, for the [rows] of the start grid. *)
Lemma removeId_closed rows cols (g : Grid) pid :
  (rows ≤ length g)%nat →
  removeId rows cols g pid = Ok (clearWindow rows cols pid g).
Proof. intros Hr. unfold removeId. rewrite cloneState_id. by apply removeId_outer. Qed.

(** ** The scan for removable heads *)

Lemma removableAt_returns (g : Grid) r moves c :
  (r < length g)%nat →
  ∃ b, canExit g r c = Ok b ∧
       removableAt g r moves c = Ok (if b then moves ++ [(r, c)] else moves).
Proof.
  intros Hr. destruct (lookup_lt_is_Some_2 g r Hr) as [row Hrow].
  unfold removableAt. destruct (cellAt g r c) as [[cl|]| |] eqn:Hc; simpl.
  - destruct (head cl) eqn:Hh.
    + destruct (canExit_returns g r c Hr) as [b Hb]. exists b.
      rewrite Hb. done.
    + exists false. split; [|done].
      eapply canExit_false_of_not_head; [done|]. right. eauto.
  - exists false. split; [|done]. eapply canExit_false_of_not_head; [done|]. by left.
  - unfold cellAt in Hc. by rewrite Hrow in Hc.
  - unfold cellAt in Hc. by rewrite Hrow in Hc.
Qed.

(** The scan returns, and what it returns are coordinates of the window at
    which [canExit] holds. *)
Lemma removableHeads_returns rows cols (g : Grid) :
  (rows ≤ length g)%nat →
  ∃ moves, removableHeads rows cols g = Ok moves ∧
    Forall (fun m => canExit g m.1 m.2 = Ok true) moves.
Proof.
  intros Hrows. unfold removableHeads.
  apply (forEach_invariant (Forall (fun m => canExit g m.1 m.2 = Ok true))); [done|].
  intros moves r Hr%elem_of_seq Hmoves.
  apply (forEach_invariant (Forall (fun m => canExit g m.1 m.2 = Ok true))); [done|].
  intros moves' c _ Hmoves'.
  destruct (removableAt_returns g r moves' c) as (b & Hb & ->); [lia|].
  eexists; split; [done|]. destruct b; [|done].
  apply Forall_app. split; [done|]. by apply Forall_singleton.
Qed.

(** With no head able to exit, the scan finds nothing. *)
Lemma removableHeads_none rows cols (g : Grid) :
  (rows ≤ length g)%nat →
  (∀ r c, canExit g r c ≠ Ok true) →
  removableHeads rows cols g = Ok [].
Proof.
  intros Hrows Hno. unfold removableHeads.
  destruct (forEach_invariant (fun moves => moves = [])
              (seq 0 rows)
              (fun moves r => forEach (seq 0 cols) (removableAt g r) moves) [])
    as (moves & Hrun & ->); [done| |done].
  intros moves r Hr%elem_of_seq ->.
  apply (forEach_invariant (fun moves => moves = [])); [done|].
  intros moves' c _ ->.
  destruct (removableAt_returns g r [] c) as (b & Hb & ->); [lia|].
  destruct b; [by destruct (Hno r c)|eauto].
Qed.

(** ** The search loop *)

Lemma applyMovesW_snoc rows cols g ms m :
  applyMovesW rows cols g (ms ++ [m]) =
  (g' ← applyMovesW rows cols g ms; applyMovesW rows cols g' [m]).
Proof.
  revert g. induction ms as [|m' ms IH]; intros g.
  - simpl. by destruct (cellAt g m.1 m.2) as [[?|]| |], (canExit g m.1 m.2) as [[|]| |].
  - simpl. destruct (cellAt g m'.1 m'.2) as [[cl|]| |]; try done.
    destruct (canExit g m'.1 m'.2) as [[|]| |]; try done.
Qed.

(** One move of the expansion keeps the queue invariant and does not
    throw. *)
Lemma expandMove_returns (g0 : Grid) cols node vq m :
  nodeOk g0 cols node →
  canExit (grid node) m.1 m.2 = Ok true →
  Forall (nodeOk g0 cols) vq.2 →
  ∃ vq', expandMove (length g0) cols node vq m = Ok vq' ∧
         Forall (nodeOk g0 cols) vq'.2.
Proof.
  intros [Hlen Hplay] Hexit Hq.
  destruct (canExit_true_head _ _ _ Hexit) as (cl & Hcl & Hh).
  unfold expandMove. rewrite Hcl. simpl.
  rewrite removeId_closed by lia. simpl.
  case_decide; [eauto|].
  eexists; split; [done|]. simpl. apply Forall_app. split; [done|].
  apply Forall_singleton. split; simpl.
  - by rewrite clearWindow_length.
  - rewrite applyMovesW_snoc, Hplay. simpl. by rewrite Hcl, Hexit.
Qed.

(** The search loop from a state whose nodes satisfy the invariant: it
    returns; the counter ends at most at [maxStates + 1]; beyond
    [maxStates] the answer is [null]; a move sequence it answers replays
    to an empty grid. *)
Lemma searchLoop_spec (g0 : Grid) cols maxStates fuel s :
  Forall (nodeOk g0 cols) (queue s) →
  states s <= maxStates →
  (Z.to_nat (maxStates - states s) < fuel)%nat →
  ∃ res n,
    searchLoop fuel (length g0) cols maxStates s = Ok (res, n) ∧
    states s <= n <= maxStates + 1 ∧
    (maxStates < n → res = None) ∧
    (∀ ms, res = Some ms →
       ∃ gF, applyMovesW (length g0) cols g0 ms = Some gF ∧ allEmpty gF = true).
Proof.
  revert s. induction fuel as [|fuel IH]; intros s Hq Hst Hfuel; [lia|].
  simpl. destruct (queue s) as [|node rest] eqn:Eq.
  { exists None, (states s). repeat split; [lia..|done]. }
  apply Forall_cons in Hq as [Hnode Hrest].
  destruct (maxStates <? states s + 1) eqn:Ecap.
  { apply Z.ltb_lt in Ecap. exists None, (states s + 1).
    repeat split; [lia..|done]. }
  apply Z.ltb_ge in Ecap.
  destruct (allEmpty (grid node)) eqn:Eempty.
  { exists (Some (moveSeq node)), (states s + 1).
    split; [done|]. split; [lia|]. split; [lia|].
    intros ms [= <-]. exists (grid node). split; [apply Hnode|done]. }
  destruct (removableHeads_returns (length g0) cols (grid node)) as (moves & -> & Hmoves).
  { destruct Hnode as [-> _]. done. }
  simpl.
  destruct (forEach_invariant (fun vq => Forall (nodeOk g0 cols) vq.2) moves
              (expandMove (length g0) cols node) (visited s, rest))
    as (vq & -> & Hvq); [done| |].
  { intros vq m Hm Hvq. apply expandMove_returns; [done| |done].
    by apply (proj1 (Forall_forall _ _) Hmoves). }
  simpl.
  destruct (IH (mkSearch vq.2 vq.1 (states s + 1))) as (res & n & Hrun & Hn & Hnone & Hsound);
    [done|simpl; lia|simpl; lia|].
  exists res, n. simpl in Hn. repeat split; [done|lia|lia|done|done].
Qed.

Lemma solveRun_unfold row0 (g0' : Grid) maxStates :
  solveRun (row0 :: g0') maxStates =
  searchLoop (S (Z.to_nat maxStates)) (length (row0 :: g0')) (length row0) maxStates
    (mkSearch [mkNode (row0 :: g0') []] {[serializeGrid (row0 :: g0')]} 0).
Proof. unfold solveRun. by rewrite cloneState_id. Qed.

Lemma solveRun_spec (g0 : Grid) maxStates :
  g0 ≠ [] →
  ∃ res n,
    solveRun g0 maxStates = Ok (res, n) ∧
    (0 <= maxStates → n <= maxStates + 1) ∧
    (maxStates < n → res = None) ∧
    (∀ ms, res = Some ms →
       ∃ cols gF, width g0 = Ok cols ∧
         applyMovesW (length g0) cols g0 ms = Some gF ∧ allEmpty gF = true).
Proof.
  intros Hne. destruct g0 as [|row0 g0']; [done|].
  rewrite solveRun_unfold. set (g0 := row0 :: g0').
  destruct (decide (0 <= maxStates)) as [Hcap|Hcap].
  - destruct (searchLoop_spec g0 (length row0) maxStates (S (Z.to_nat maxStates))
                (mkSearch [mkNode g0 []] {[serializeGrid g0]} 0))
      as (res & n & Hrun & Hn & Hnone & Hsound).
    + apply Forall_singleton. by split.
    + done.
    + simpl. lia.
    + exists res, n. split; [done|]. split; [simpl in Hn; lia|]. split; [done|].
      intros ms Hms. destruct (Hsound ms Hms) as (gF & ? & ?).
      exists (length row0), gF. done.
  - exists None, 1. unfold searchLoop. simpl queue. simpl states.
    destruct (maxStates <? 0 + 1) eqn:E; [|apply Z.ltb_ge in E; lia].
    split; [done|]. split; [lia|]. done.
Qed.

Lemma findSolutionLimited_solveRun g maxStates res :
  findSolutionLimited g maxStates = Ok res ↔
  ∃ n, solveRun g maxStates = Ok (res, n).
Proof.
  unfold findSolutionLimited. destruct (solveRun g maxStates) as [[res' n]| |]; simpl.
  - split; [intros [= <-]; eauto|]. by intros (n' & [= <- _]).
  - split; [done|]. by intros (? & ?).
  - split; [done|]. by intros (? & ?).
Qed.

Lemma solveRun_Ok_nonempty g maxStates v : solveRun g maxStates = Ok v → g ≠ [].
Proof. by destruct g. Qed.

(** ** From the window to the whole grid *)

Lemma allEmpty_lookup (g : Grid) r c (row : Row) x :
  allEmpty g = true → g !! r = Some row → row !! c = Some x → x = None.
Proof.
  unfold allEmpty. rewrite forallb_forall. intros Hall Hr Hc.
  specialize (Hall row). rewrite forallb_forall in Hall.
  assert (Hin : In row g) by (apply list_elem_of_In, list_elem_of_lookup; eauto).
  specialize (Hall Hin x).
  assert (Hin' : In x row) by (apply list_elem_of_In, list_elem_of_lookup; eauto).
  by apply bool_decide_eq_true in Hall.
Qed.

Lemma insideWindow_clearWindow rows cols pid (g : Grid) :
  insideWindow rows cols (clearWindow rows cols pid g) → insideWindow rows cols g.
Proof.
  intros Hin r c row cl Hr Hc.
  destruct (decide (r < rows)%nat) as [Hlt|Hge].
  - split; [done|]. destruct (decide (c < cols)%nat) as [|Hcge]; [done|].
    apply (Hin r c (clearPrefix cols pid row) cl).
    + rewrite clearWindow_lookup, Hr. simpl. by rewrite decide_True.
    + rewrite clearPrefix_lookup, Hc. simpl. by rewrite decide_False.
  - apply (Hin r c row cl); [|done].
    rewrite clearWindow_lookup, Hr. simpl. by rewrite decide_False.
Qed.

(** A replay that ends on the empty grid never met a segment outside the
    window. *)
Lemma applyMovesW_insideWindow rows cols (g : Grid) ms gF :
  applyMovesW rows cols g ms = Some gF → allEmpty gF = true →
  insideWindow rows cols g.
Proof.
  revert g. induction ms as [|m ms IH]; intros g; simpl.
  - intros [= ->] Hempty r c row cl Hr Hc.
    by pose proof (allEmpty_lookup _ _ _ _ _ Hempty Hr Hc).
  - destruct (cellAt g m.1 m.2) as [[cl|]| |]; try done.
    destruct (canExit g m.1 m.2) as [[|]| |]; try done.
    intros Hrun Hempty. eapply insideWindow_clearWindow, IH; done.
Qed.

(** Inside the window, [removeId] removes the whole piece. *)
Lemma clearWindow_removePiece rows cols pid (g : Grid) :
  insideWindow rows cols g → clearWindow rows cols pid g = removePiece g pid.
Proof.
  intros Hin. apply list_eq. intros r. unfold removePiece.
  rewrite clearWindow_lookup, list_lookup_fmap.
  destruct (g !! r) as [row|] eqn:Hr; simpl; [|done]. f_equal.
  assert (Hrow : clearPrefix cols pid row = (clearId pid <$> row)).
  { apply list_eq. intros c. rewrite clearPrefix_lookup, list_lookup_fmap.
    destruct (row !! c) as [x|] eqn:Hc; simpl; [|done]. f_equal.
    case_decide; [done|]. destruct x as [cl|]; [|done].
    destruct (Hin r c row cl Hr Hc). lia. }
  case_decide; [done|]. rewrite <- Hrow.
  apply list_eq. intros c. rewrite clearPrefix_lookup.
  destruct (row !! c) as [x|] eqn:Hc; simpl; [|done]. f_equal.
  destruct x as [cl|]; [|by case_decide].
  destruct (Hin r c row cl Hr Hc). lia.
Qed.

Lemma applyMovesW_applyMoves rows cols (g : Grid) ms gF :
  applyMovesW rows cols g ms = Some gF → allEmpty gF = true →
  applyMoves g ms = Some gF.
Proof.
  revert g. induction ms as [|m ms IH]; intros g Hrun Hempty; [done|].
  pose proof (applyMovesW_insideWindow _ _ _ _ _ Hrun Hempty) as Hin.
  simpl in *.
  destruct (cellAt g m.1 m.2) as [[cl|]| |]; try done.
  destruct (canExit g m.1 m.2) as [[|]| |]; try done.
  rewrite <- (clearWindow_removePiece rows cols) by done. by apply IH.
Qed.

(** ** Soundness and termination of the solver *)

(** A move sequence the solver returns replays on the start grid to the
    empty grid. *)
Lemma solution_replays (g : Grid) (maxStates : Z) (ms : list Move) :
  findSolutionLimited g maxStates = Ok (Some ms) →
  ∃ gF, applyMoves g ms = Some gF ∧ allEmpty gF = true.
Proof.
  intros (n & Hrun)%findSolutionLimited_solveRun.
  destruct (solveRun_spec g maxStates) as (res & n' & Hrun' & _ & _ & Hsound).
  { by eapply solveRun_Ok_nonempty. }
  rewrite Hrun in Hrun'. injection Hrun' as <- <-.
  destruct (Hsound ms eq_refl) as (cols & gF & _ & Hplay & Hempty).
  exists gF. split; [|done]. by eapply applyMovesW_applyMoves.
Qed.

(** On a grid with a row the solver returns, within its budget. *)
Lemma solver_returns (g : Grid) (maxStates : Z) :
  g ≠ [] →
  ∃ res dequeued,
    solveRun g maxStates = Ok (res, dequeued) ∧
    findSolutionLimited g maxStates = Ok res ∧
    (0 <= maxStates → dequeued <= maxStates + 1) ∧
    (maxStates < dequeued → res = None).
Proof.
  intros Hne.
  destruct (solveRun_spec g maxStates Hne) as (res & n & Hrun & Hn & Hnone & _).
  exists res, n. split; [done|]. split; [|done].
  apply findSolutionLimited_solveRun. eauto.
Qed.

(** ** The pieces of a grid *)

Lemma elem_of_pieceIds (g : Grid) i :
  i ∈ pieceIds g ↔
  ∃ r c (row : Row) cl, g !! r = Some row ∧ row !! c = Some (Some cl) ∧ id cl = i.
Proof.
  unfold pieceIds. rewrite elem_of_list_to_set, list_elem_of_omap. split.
  - intros (x & Hx & Hid). apply list_elem_of_join in Hx as (row & Hx & Hrow).
    apply list_elem_of_lookup in Hx as [c Hc].
    apply list_elem_of_lookup in Hrow as [r Hr].
    destruct x as [cl|]; [|done]. injection Hid as <-.
    by exists r, c, row, cl.
  - intros (r & c & row & cl & Hr & Hc & <-). exists (Some cl). split; [|done].
    apply list_elem_of_join. exists row.
    split; apply list_elem_of_lookup; eauto.
Qed.

Lemma pieceIds_allEmpty (g : Grid) : allEmpty g = true → pieceIds g = ∅.
Proof.
  intros Hempty. apply set_eq. intros i. rewrite elem_of_pieceIds. split; [|by intros ?%not_elem_of_empty].
  intros (r & c & row & cl & Hr & Hc & _).
  by pose proof (allEmpty_lookup _ _ _ _ _ Hempty Hr Hc).
Qed.

Lemma removePiece_lookup (g : Grid) pid r c (row : Row) x :
  g !! r = Some row → row !! c = Some x →
  ∃ row', removePiece g pid !! r = Some row' ∧ row' !! c = Some (clearId pid x).
Proof.
  intros Hr Hc. exists ((clearId pid <$> row)). unfold removePiece.
  rewrite !list_lookup_fmap, Hr, Hc. done.
Qed.

Lemma removePiece_lookup_inv (g : Grid) pid r c (row' : Row) y :
  removePiece g pid !! r = Some row' → row' !! c = Some y →
  ∃ row x, g !! r = Some row ∧ row !! c = Some x ∧ y = clearId pid x.
Proof.
  unfold removePiece. rewrite list_lookup_fmap.
  destruct (g !! r) as [row|]; [|done]. intros [= <-].
  rewrite list_lookup_fmap. destruct (row !! c) as [x|] eqn:Hc; [|done].
  intros [= <-]. by exists row, x.
Qed.

Lemma clearId_Some pid x cl :
  clearId pid x = Some cl ↔ x = Some cl ∧ id cl ≠ pid.
Proof.
  destruct x as [cl'|]; simpl.
  - destruct (id cl' =? pid) eqn:E.
    + apply Z.eqb_eq in E. split; [done|]. by intros [[= ->] Hne].
    + apply Z.eqb_neq in E. split; [by intros [= ->]|by intros [[= ->] _]].
  - split; [done|]. by intros [? _].
Qed.

Lemma pieceIds_removePiece (g : Grid) pid :
  pieceIds (removePiece g pid) = pieceIds g ∖ {[pid]}.
Proof.
  apply set_eq. intros i.
  rewrite elem_of_difference, not_elem_of_singleton, !elem_of_pieceIds. split.
  - intros (r & c & row' & cl & Hr & Hc & <-).
    destruct (removePiece_lookup_inv _ _ _ _ _ _ Hr Hc) as (row & x & Hr' & Hc' & Hx).
    symmetry in Hx. apply clearId_Some in Hx as [-> Hne].
    split; [|done]. by exists r, c, row, cl.
  - intros [(r & c & row & cl & Hr & Hc & <-) Hne].
    destruct (removePiece_lookup g pid _ _ _ _ Hr Hc) as (row' & Hr' & Hc').
    exists r, c, row', cl. split; [done|]. split; [|done].
    rewrite Hc'. f_equal. by apply clearId_Some.
Qed.

Lemma subGrid_refl g : subGrid g g.
Proof. intros r c row cl ? ?. eauto. Qed.

Lemma subGrid_removePiece g g' pid : subGrid g g' → subGrid (removePiece g pid) g'.
Proof.
  intros Hsub r c row' cl Hr Hc.
  destruct (removePiece_lookup_inv _ _ _ _ _ _ Hr Hc) as (row & x & Hr' & Hc' & Hx).
  symmetry in Hx. apply clearId_Some in Hx as [-> _]. by eapply Hsub.
Qed.

Lemma namedId_lookup (g : Grid) r c (row : Row) cl :
  g !! r = Some row → row !! c = Some (Some cl) → namedId g (r, c) = Some (id cl).
Proof.
  intros Hr Hc. unfold namedId. simpl. rewrite content_unfold by lia.
  rewrite !Nat2Z.id, Hr. simpl. by rewrite Hc.
Qed.

Lemma cellAt_Some_lookup (g : Grid) r c cl :
  cellAt g r c = Ok (Some cl) ↔ ∃ row, g !! r = Some row ∧ row !! c = Some (Some cl).
Proof.
  rewrite cellAt_Ok. split; intros (row & Hr & Hc); exists row; (split; [done|]).
  - by destruct (row !! c) as [[?|]|]; simplify_eq/=.
  - by rewrite Hc.
Qed.

(** A move of a replay names, in any grid that still has the segments of
    the current one, the piece the replay removes. *)
Lemma playedIds_namedId (g g' : Grid) ms gF :
  applyMoves g ms = Some gF → subGrid g g' →
  namedId g' <$> ms = Some <$> playedIds g ms.
Proof.
  revert g. induction ms as [|[r c] ms IH]; intros g Hrun Hsub; [done|].
  simpl in *. destruct (cellAt g r c) as [[cl|]| |] eqn:Hc; try done.
  destruct (canExit g r c) as [[|]| |]; try done.
  apply cellAt_Some_lookup in Hc as (row & Hr & Hc).
  destruct (Hsub _ _ _ _ Hr Hc) as (row' & Hr' & Hc').
  simpl. rewrite (namedId_lookup _ _ _ _ _ Hr' Hc'). f_equal.
  apply IH; [done|]. by apply subGrid_removePiece.
Qed.

Lemma playedIds_length (g : Grid) ms gF :
  applyMoves g ms = Some gF → length (playedIds g ms) = length ms.
Proof.
  revert g. induction ms as [|m ms IH]; intros g Hrun; [done|].
  simpl in *. destruct (cellAt g m.1 m.2) as [[cl|]| |]; try done.
  destruct (canExit g m.1 m.2) as [[|]| |]; try done.
  simpl. f_equal. by apply IH.
Qed.

(** A replay that empties the grid removes each piece of the grid once. *)
Lemma playedIds_pieceIds (g : Grid) ms gF :
  applyMoves g ms = Some gF → allEmpty gF = true →
  NoDup (playedIds g ms) ∧ list_to_set (playedIds g ms) = pieceIds g.
Proof.
  revert g. induction ms as [|m ms IH]; intros g Hrun Hempty; simpl in *.
  - injection Hrun as ->. split; [constructor|]. by rewrite pieceIds_allEmpty.
  - destruct (cellAt g m.1 m.2) as [[cl|]| |] eqn:Hc; try done.
    destruct (canExit g m.1 m.2) as [[|]| |]; try done.
    destruct (IH _ Hrun Hempty) as [Hnd Hset].
    rewrite pieceIds_removePiece in Hset.
    assert (Hin : id cl ∈ pieceIds g).
    { apply cellAt_Some_lookup in Hc as (row & Hr & Hc).
      apply elem_of_pieceIds. by exists m.1, m.2, row, cl. }
    split.
    + apply NoDup_cons. split; [|done].
      intros Hel%(elem_of_list_to_set (C:=gset Z)). rewrite Hset in Hel.
      apply elem_of_difference in Hel as [_ Hn]. by apply Hn, elem_of_singleton.
    + rewrite list_to_set_cons, Hset. apply set_eq. intros i.
      rewrite elem_of_union, elem_of_singleton, elem_of_difference,
        not_elem_of_singleton.
      split; [by intros [->|[? _]]|].
      intros Hi. destruct (decide (i = id cl)); [by left|by right].
Qed.

(** C10.  A solution removes every piece of the start grid exactly once:
    its length is the number of distinct piece ids of the start grid, and
    its moves name pairwise distinct pieces of the start grid.  On a start
    grid that is already all empty (and has a row), with a cap of at least
    1, the solver returns the empty move sequence. *)
Theorem findSolutionLimited_one_move_per_piece (g : Grid) (maxStates : Z) :
  (∀ ms, findSolutionLimited g maxStates = Ok (Some ms) →
     length ms = size (pieceIds g) ∧
     ∃ names, namedId g <$> ms = Some <$> names ∧ NoDup names) ∧
  (g ≠ [] → allEmpty g = true → 1 <= maxStates →
     findSolutionLimited g maxStates = Ok (Some [])).
Proof.
  split.
  - intros ms (gF & Hrun & Hempty)%solution_replays.
    destruct (playedIds_pieceIds _ _ _ Hrun Hempty) as [Hnd Hset].
    split.
    + rewrite <- Hset, size_list_to_set by done. symmetry.
      by eapply playedIds_length.
    + exists (playedIds g ms). split; [|done].
      eapply playedIds_namedId; [done|apply subGrid_refl].
  - intros Hne Hempty Hcap. destruct g as [|row0 g']; [done|].
    apply findSolutionLimited_solveRun. exists 1.
    rewrite solveRun_unfold. unfold searchLoop. simpl queue. simpl states.
    destruct (maxStates <? 0 + 1) eqn:E; [apply Z.ltb_lt in E; lia|].
    simpl grid. by rewrite Hempty.
Qed.

(** ** Two pieces facing each other *)

Lemma facingPair_cells a b tail0 rest r c cl :
  allEmpty (tail0 :: rest) = true →
  cellAt (facingPair a b tail0 rest) r c = Ok (Some cl) →
  (r = 0 ∧ c = 0)%nat ∨ (r = 0 ∧ c = 1)%nat.
Proof.
  intros Hempty (row & Hr & Hc)%cellAt_Some_lookup. unfold facingPair in Hr.
  destruct r as [|r].
  - injection Hr as <-. destruct c as [|[|c]]; [by left|by right|].
    simpl in Hc. by pose proof (allEmpty_lookup _ 0%nat _ _ _ Hempty eq_refl Hc).
  - simpl in Hr.
    by pose proof (allEmpty_lookup (tail0 :: rest) (S r) c row _ Hempty Hr Hc).
Qed.

Lemma facingPair_right_blocked a b tail0 rest :
  a ≠ b → canExit (facingPair a b tail0 rest) 0 0 = Ok false.
Proof.
  intros Hne. unfold facingPair.
  erewrite canExit_unfold; [|done..]. simpl.
  rewrite (proj2 (inBounds_spec _ _ _ _)) by (cbn [length]; lia). simpl.
  rewrite (proj2 (Z.eqb_neq b a)) by congruence. reflexivity.
Qed.

Lemma facingPair_left_blocked a b tail0 rest :
  a ≠ b → canExit (facingPair a b tail0 rest) 0 1 = Ok false.
Proof.
  intros Hne. unfold facingPair.
  erewrite canExit_unfold; [|done..]. simpl.
  rewrite (proj2 (Z.eqb_neq a b)) by congruence. reflexivity.
Qed.

(** C8.  Two length-1 pieces in the top row, at [(0,0)] pointing right and
    at [(0,1)] pointing left, on an otherwise empty grid: [canExit] is
    false for both heads and the solver answers not-found, whatever the
    cap. *)
Theorem facingPair_unsolvable (a b : Z) (tail0 : Row) (rest : Grid) (maxStates : Z) :
  a ≠ b →
  allEmpty (tail0 :: rest) = true →
  canExit (facingPair a b tail0 rest) 0 0 = Ok false ∧
  canExit (facingPair a b tail0 rest) 0 1 = Ok false ∧
  findSolutionLimited (facingPair a b tail0 rest) maxStates = Ok None.
Proof.
  intros Hne Hempty.
  pose proof (facingPair_right_blocked a b tail0 rest Hne) as Hright.
  pose proof (facingPair_left_blocked a b tail0 rest Hne) as Hleft.
  split; [done|]. split; [done|].
  apply findSolutionLimited_solveRun. exists 1.
  unfold facingPair at 1. rewrite solveRun_unfold.
  fold (facingPair a b tail0 rest). set (g := facingPair a b tail0 rest) in *.
  unfold searchLoop. simpl queue. simpl states.
  destruct (maxStates <? 0 + 1); [done|]. simpl grid.
  assert (Hfull : allEmpty g = false) by done.
  rewrite Hfull. fold searchLoop.
  rewrite (removableHeads_none _ _ g).
  - simpl. by destruct (Z.to_nat maxStates).
  - done.
  - intros r c Hexit.
    destruct (canExit_true_head _ _ _ Hexit) as (cl & Hcl & _).
    destruct (facingPair_cells _ _ _ _ _ _ _ Hempty Hcl) as [[-> ->]|[-> ->]];
      congruence.
Qed.

(** ** The state key *)

Lemma occurs_app ch s1 s2 : occurs ch (s1 +:+ s2) ↔ occurs ch s1 ∨ occurs ch s2.
Proof. induction s1 as [|c s1 IH]; simpl; [tauto|]. rewrite IH. tauto. Qed.

(** Strings free of the separator are cut apart by it in one way only. *)
Lemma app_sep_inj ch s1 s2 t1 t2 :
  ¬ occurs ch s1 → ¬ occurs ch s2 →
  s1 +:+ String ch t1 = s2 +:+ String ch t2 → s1 = s2 ∧ t1 = t2.
Proof.
  revert s2. induction s1 as [|c s1 IH]; intros [|c' s2] H1 H2 Heq; simpl in *.
  - by injection Heq as ->.
  - injection Heq as <- _. tauto.
  - injection Heq as -> _. tauto.
  - injection Heq as -> Heq. destruct (IH s2) as [-> ->]; [tauto..|done|done].
Qed.

Lemma join_cons_cons sep s s' l :
  join sep (s :: s' :: l) = s +:+ sep +:+ join sep (s' :: l).
Proof. done. Qed.

Lemma join_inj ch (l1 l2 : list string) :
  length l1 = length l2 →
  Forall (fun s => ¬ occurs ch s) l1 →
  Forall (fun s => ¬ occurs ch s) l2 →
  join (String ch "") l1 = join (String ch "") l2 → l1 = l2.
Proof.
  revert l2. induction l1 as [|s1 l1 IH]; intros [|s2 l2] Hlen H1 H2 Heq; try done.
  apply Forall_cons in H1 as [Hs1 H1]. apply Forall_cons in H2 as [Hs2 H2].
  destruct l1 as [|s1' l1], l2 as [|s2' l2]; try done.
  - simpl in Heq. by subst.
  - rewrite !join_cons_cons in Heq. simpl in Heq.
    apply app_sep_inj in Heq as [-> Heq]; [|done..].
    f_equal. apply IH; [simpl in *; lia|done..].
Qed.

Lemma join_not_occurs ch sep (l : list string) :
  ¬ occurs ch sep → Forall (fun s => ¬ occurs ch s) l → ¬ occurs ch (join sep l).
Proof.
  intros Hsep. induction l as [|s l IH]; intros Hl; [simpl; tauto|].
  apply Forall_cons in Hl as [Hs Hl]. destruct l as [|s' l]; [done|].
  rewrite join_cons_cons, !occurs_app. specialize (IH Hl). tauto.
Qed.

(** Decimal numerals hold digits and a sign only. *)
Lemma pretty_N_go_occurs ch (x : N) s :
  (∀ n, pretty_N_char n ≠ ch) → occurs ch (pretty_N_go x s) → occurs ch s.
Proof.
  intros Hch. revert s. induction (N.lt_wf_0 x) as [x _ IH]; intros s.
  destruct (decide (x = 0%N)) as [->|Hx]; [done|].
  rewrite pretty_N_go_step by lia. intros Hocc.
  apply IH in Hocc; [|apply N.div_lt; lia].
  simpl in Hocc. destruct Hocc as [Hc|Hs]; [by destruct (Hch _ Hc)|done].
Qed.

Lemma pretty_N_not_occurs ch (x : N) :
  (∀ n, pretty_N_char n ≠ ch) → ¬ occurs ch (pretty x).
Proof.
  intros Hch. unfold pretty, pretty_N. case_decide.
  - simpl. intros [Hc|[]]. by apply (Hch 0%N).
  - intros Hocc%pretty_N_go_occurs; done.
Qed.

Lemma pretty_Z_not_occurs ch (z : Z) :
  (∀ n, pretty_N_char n ≠ ch) → ch ≠ "-"%char → ¬ occurs ch (pretty z).
Proof.
  intros Hch Hdash. destruct z as [|p|p]; unfold pretty, pretty_Z.
  - simpl. intros [Hc|[]]. by apply (Hch 0%N).
  - by apply pretty_N_not_occurs.
  - simpl. intros [Hc|Hocc]; [done|]. by apply (pretty_N_not_occurs ch (Npos p)).
Qed.

Lemma comma_not_digit n : pretty_N_char n ≠ ","%char.
Proof. unfold pretty_N_char. by repeat case_match. Qed.

Lemma semicolon_not_digit n : pretty_N_char n ≠ ";"%char.
Proof. unfold pretty_N_char. by repeat case_match. Qed.

Lemma rowKey_inj (r1 r2 : Row) :
  length r1 = length r2 →
  join "," ((fun c => pretty (cellKey c)) <$> r1)
  = join "," ((fun c => pretty (cellKey c)) <$> r2) →
  cellKey <$> r1 = cellKey <$> r2.
Proof.
  intros Hlen Heq. apply join_inj in Heq.
  - apply (inj (fmap (pretty : Z → string))). by rewrite <- !list_fmap_compose.
  - by rewrite !length_fmap.
  - apply Forall_fmap, Forall_forall. intros c _.
    apply pretty_Z_not_occurs; [apply comma_not_digit|done].
  - apply Forall_fmap, Forall_forall. intros c _.
    apply pretty_Z_not_occurs; [apply comma_not_digit|done].
Qed.

Lemma rowKey_no_semicolon (row : Row) :
  ¬ occurs ";" (join "," ((fun c => pretty (cellKey c)) <$> row)).
Proof.
  apply join_not_occurs; [simpl; intros [|[]]; done|].
  apply Forall_fmap, Forall_forall. intros c _.
  apply pretty_Z_not_occurs; [apply semicolon_not_digit|done].
Qed.

(** C6.  The key of a grid is a function of the grid, and for two grids of
    the same dimensions the keys are equal exactly when every cell holds
    the same piece id (0 for an empty cell) in both; direction, length and
    head flag play no part. *)
Theorem serializeGrid_eq_iff (g1 g2 : Grid) :
  sameShape g1 g2 →
  (serializeGrid g1 = serializeGrid g2 ↔ idPattern g1 = idPattern g2).
Proof.
  intros Hshape. split.
  - unfold serializeGrid. intros Heq. apply join_inj in Heq.
    + unfold idPattern. induction Hshape as [|r1 r2 g1 g2 Hlen Hshape IH]; [done|].
      rewrite !fmap_cons in *. injection Heq as Hrow Heq.
      f_equal; [by apply rowKey_inj|by apply IH].
    + rewrite !length_fmap. by eapply Forall2_length.
    + apply Forall_fmap, Forall_forall. intros row _. apply rowKey_no_semicolon.
    + apply Forall_fmap, Forall_forall. intros row _. apply rowKey_no_semicolon.
  - unfold serializeGrid, idPattern. intros Heq. f_equal.
    clear Hshape. revert g2 Heq.
    induction g1 as [|r1 g1 IH]; intros [|r2 g2] Heq; try done.
    rewrite !fmap_cons in *. injection Heq as Hrow Heq.
    f_equal; [|by apply IH].
    f_equal. transitivity ((pretty : Z → string) <$> (cellKey <$> r1));
      [by rewrite <- list_fmap_compose|].
    rewrite Hrow. by rewrite <- list_fmap_compose.
Qed.

(** ** The fallback of the generator *)

Lemma fallbackGrid_two_columns rows cols :
  fallbackGrid (S rows) (S (S cols)) =
  (Some (mkCell 1 R 1 true) :: Some (mkCell 1 R 1 false) :: replicate cols None)
    :: replicate rows (replicate (S (S cols)) None).
Proof. reflexivity. Qed.

Lemma fallbackGrid_narrow rows cols :
  (rows = 0 ∨ cols ≤ 1)%nat → fallbackGrid rows cols = emptyGrid rows cols.
Proof.
  intros Hdim. unfold fallbackGrid.
  destruct rows as [|rows]; [done|]. destruct cols as [|[|cols]]; [done|done|lia].
Qed.

(** C5, as the code builds the fallback.  When the attempts are used up
    the generator returns the fallback layout.  With at least one row and
    two columns it is one piece over the cells [(0,0)] and [(0,1)]:
    direction Right, length field 1, head at column 0, and nothing else.
    With fewer than two columns (or no row) it is the all-empty grid. *)
Theorem generate_fallback (rows cols : nat) (density maxLen : Q)
    (maxAttempts : nat) (rnd : nat → Q) :
  attempts maxAttempts rows cols density maxLen rnd 1 0 = Ok None →
  generateRandomLevelAsync rows cols density maxLen maxAttempts rnd
    = Ok (fallbackGrid rows cols) ∧
  ((1 ≤ rows)%nat → (2 ≤ cols)%nat →
     fallbackGrid rows cols =
     (Some (mkCell 1 R 1 true) :: Some (mkCell 1 R 1 false)
        :: replicate (cols - 2) None)
       :: replicate (rows - 1) (replicate cols None)) ∧
  ((rows = 0 ∨ cols ≤ 1)%nat → fallbackGrid rows cols = emptyGrid rows cols).
Proof.
  intros Hnone. split; [|split].
  - unfold generateRandomLevelAsync. by rewrite Hnone.
  - intros Hr Hc. destruct rows as [|rows]; [lia|].
    destruct cols as [|[|cols]]; [lia|lia|].
    rewrite fallbackGrid_two_columns. simpl.
    by rewrite !Nat.sub_0_r.
  - apply fallbackGrid_narrow.
Qed.

(** The fallback piece has two cells and the length field 1. *)
Lemma fallbackGrid_not_valid rows cols :
  ¬ gridInvariant (fallbackGrid (S rows) (S (S cols))).
Proof.
  rewrite fallbackGrid_two_columns. intros Hinv.
  destruct (Hinv 1) as (r0 & c0 & d & n & Hn & Hon & _).
  { apply elem_of_pieceIds. by eexists 0%nat, 0%nat, _, _. }
  destruct (Hon 0%nat 0%nat (mkCell 1 R 1 true)) as (Hd & Hlen & k & Hk & _ & Hc);
    [done|done|].
  destruct (Hon 0%nat 1%nat (mkCell 1 R 1 false)) as (_ & _ & k' & Hk' & _ & Hc');
    [done|done|].
  simpl in *. subst d n. simpl in *. lia.
Qed.

(** ** The solver on the store *)

Lemma heap_holds_app h ext g gv : Heap.holds h g gv → Heap.holds (h ++ ext) g gv.
Proof.
  unfold Heap.holds. intros Hg. eapply Forall2_impl; [done|].
  intros l row Hl. by apply lookup_app_l_Some.
Qed.

Lemma heap_holds_length h g gv : Heap.holds h g gv → length g = length gv.
Proof. apply Forall2_length. Qed.

(** The references [length h, length h + 1, ...] hold the rows appended to
    the store [h]. *)
Lemma heap_holds_fresh h (gv : Grid) :
  Heap.holds (h ++ gv) (seq (length h) (length gv)) gv.
Proof.
  unfold Heap.holds. apply Forall2_same_length_lookup. split.
  - by rewrite length_seq.
  - intros i l row Hl Hrow. apply lookup_seq in Hl as [-> Hi].
    rewrite lookup_app_r by lia.
    by replace (length h + i - length h)%nat with i by lia.
Qed.

Lemma heap_snapshot_holds h g gv :
  Heap.holds h g gv → Heap.snapshot g h = Ok (gv, h).
Proof.
  unfold Heap.snapshot. induction 1 as [|l row g gv Hl Hg IH]; [done|].
  simpl. unfold mbind, Heap.M_bind. unfold Heap.read at 1. by rewrite Hl, IH.
Qed.

Lemma heap_cloneState_holds h g gv :
  Heap.holds h g gv →
  Heap.cloneState g h = Ok (seq (length h) (length gv), h ++ gv).
Proof.
  unfold Heap.cloneState. intros Hg. revert g h Hg.
  induction gv as [|row gv IH]; intros g h Hg.
  - apply Forall2_nil_inv_r in Hg as ->. simpl. by rewrite app_nil_r.
  - apply Forall2_cons_inv_r in Hg as (l & g' & Hl & Hg & ->).
    simpl. unfold mbind, Heap.M_bind. unfold Heap.read at 1. rewrite Hl.
    unfold Heap.alloc at 1.
    assert (Hcopy : map (fun c : option Cell =>
                           match c with Some cl => Some cl | None => None end) row = row).
    { rewrite <- (map_id row) at 2. apply map_ext. by intros [?|]. }
    rewrite Hcopy.
    specialize (IH g' (h ++ [row]) (heap_holds_app _ _ _ _ Hg)).
    unfold mbind, Heap.M_bind in IH. rewrite IH.
    rewrite length_app, Nat.add_1_r, <- app_assoc. done.
Qed.

(** The loops of [removeId] on the rows appended to [h] run as the loops
    on values. *)
Lemma heap_forEach_lockstep {A S : Type} (enc : S → Heap.store) (inv : S → Prop)
    (bodyH : unit → A → Heap.M unit) (bodyV : S → A → result S) (l : list A) :
  (∀ s a, inv s →
     match bodyV s a with
     | Ok s' => bodyH tt a (enc s) = Ok (tt, enc s') ∧ inv s'
     | TypeError => bodyH tt a (enc s) = TypeError
     | OutOfFuel => bodyH tt a (enc s) = OutOfFuel
     end) →
  ∀ s, inv s →
    match forEach l bodyV s with
    | Ok s' => Heap.forEach l bodyH tt (enc s) = Ok (tt, enc s') ∧ inv s'
    | TypeError => Heap.forEach l bodyH tt (enc s) = TypeError
    | OutOfFuel => Heap.forEach l bodyH tt (enc s) = OutOfFuel
    end.
Proof.
  intros Hbody. induction l as [|a l IH]; intros s Hs; simpl; [done|].
  specialize (Hbody s a Hs).
  destruct (bodyV s a) as [s1| |]; simpl; unfold mbind, Heap.M_bind.
  - destruct Hbody as [-> Hs1]. by apply IH.
  - by rewrite Hbody.
  - by rewrite Hbody.
Qed.

Lemma setCell_length (g : Grid) r c v : length (setCell g r c v) = length g.
Proof. unfold setCell. destruct (g !! r); [by rewrite length_insert|done]. Qed.

Lemma removeIdAt_length pid r (g g' : Grid) c :
  removeIdAt pid r g c = Ok g' → length g' = length g.
Proof.
  unfold removeIdAt. destruct (cellAt g r c) as [[cl|]| |]; simpl; try done.
  - destruct (id cl =? pid); intros [= <-]; [apply setCell_length|done].
  - by intros [= <-].
Qed.

Lemma heap_removeIdAt_lockstep pid h (cur : Grid) r c :
  match removeIdAt pid r cur c with
  | Ok cur' =>
      Heap.removeIdAt pid (seq (length h) (length cur)) r tt c (h ++ cur)
      = Ok (tt, h ++ cur') ∧ length cur' = length cur
  | TypeError =>
      Heap.removeIdAt pid (seq (length h) (length cur)) r tt c (h ++ cur) = TypeError
  | OutOfFuel =>
      Heap.removeIdAt pid (seq (length h) (length cur)) r tt c (h ++ cur) = OutOfFuel
  end.
Proof.
  destruct (removeIdAt pid r cur c) as [cur'| |] eqn:Hrun.
  - split; [|by eapply removeIdAt_length].
    unfold removeIdAt, cellAt in Hrun. unfold Heap.removeIdAt.
    destruct (cur !! r) as [row|] eqn:Hr; [|done]. simpl in Hrun.
    apply lookup_lt_Some in Hr as Hlt.
    rewrite lookup_seq_lt by done.
    unfold mbind, Heap.M_bind, Heap.read.
    assert (Hsub : (length h + r - length h = r)%nat) by lia.
    rewrite lookup_app_r, Hsub, Hr by lia.
    destruct (mjoin (row !! c)) as [cl|]; [|by injection Hrun as <-].
    destruct (id cl =? pid); [|by injection Hrun as <-].
    injection Hrun as <-. unfold Heap.write, setCell.
    rewrite lookup_app_r, Hsub, Hr by lia.
    rewrite insert_app_r_alt, Hsub by lia. done.
  - unfold removeIdAt, cellAt in Hrun. unfold Heap.removeIdAt.
    destruct (cur !! r) as [row|] eqn:Hr.
    + simpl in Hrun. destruct (mjoin (row !! c)) as [cl|]; [|done].
      by destruct (id cl =? pid).
    + apply lookup_ge_None in Hr. by rewrite lookup_seq_ge.
  - unfold removeIdAt, cellAt in Hrun.
    destruct (cur !! r) as [row|]; [|done]. simpl in Hrun.
    destruct (mjoin (row !! c)) as [cl|]; [|done]. by destruct (id cl =? pid).
Qed.

Lemma simulates_ret {A B : Type} (Rel : Heap.store → A → B → Prop) h a b :
  Rel h a b → simulates Rel (mret a) h (Ok b).
Proof. intros HR. exists a, []. by rewrite app_nil_r. Qed.

Lemma simulates_bind {A B A' B' : Type}
    (R1 : Heap.store → A → B → Prop) (R2 : Heap.store → A' → B' → Prop)
    (mH : Heap.M A) (mV : result B) (fH : A → Heap.M A') (fV : B → result B') h :
  simulates R1 mH h mV →
  (∀ ext a b, R1 (h ++ ext) a b → simulates R2 (fH a) (h ++ ext) (fV b)) →
  simulates R2 (mH ≫= fH) h (mV ≫= fV).
Proof.
  intros Hm Hf. unfold simulates in *. destruct mV as [b| |]; simpl.
  - destruct Hm as (a & ext & Hrun & HR). specialize (Hf ext a b HR).
    unfold mbind, Heap.M_bind. rewrite Hrun.
    destruct (fV b) as [b'| |]; [|done..].
    destruct Hf as (a' & ext' & Hrun' & HR').
    exists a', (ext ++ ext'). by rewrite app_assoc.
  - unfold mbind, Heap.M_bind. by rewrite Hm.
  - unfold mbind, Heap.M_bind. by rewrite Hm.
Qed.

Lemma simulates_lift {A : Type} (Rel : Heap.store → A → A → Prop) h (r : result A) :
  (∀ a, Rel h a a) → simulates Rel (Heap.lift r) h r.
Proof.
  intros HR. destruct r as [a| |]; simpl; [|done..].
  exists a, []. by rewrite app_nil_r.
Qed.

Lemma heap_forEach_simulates {A SH SV : Type} (Rel : Heap.store → SH → SV → Prop)
    (bodyH : SH → A → Heap.M SH) (bodyV : SV → A → result SV) (l : list A) :
  (∀ h sH sV a, Rel h sH sV → simulates Rel (bodyH sH a) h (bodyV sV a)) →
  ∀ h sH sV, Rel h sH sV →
    simulates Rel (Heap.forEach l bodyH sH) h (forEach l bodyV sV).
Proof.
  intros Hbody. induction l as [|a l IH]; intros h sH sV HR.
  - by apply simulates_ret.
  - simpl. eapply simulates_bind; [by apply Hbody|].
    intros ext sH' sV' HR'. by apply IH.
Qed.

Lemma heap_snapshot_simulates h g gv :
  Heap.holds h g gv → simulates (fun _ x y => x = y) (Heap.snapshot g) h (Ok gv).
Proof.
  intros Hg. exists gv, []. by rewrite app_nil_r, (heap_snapshot_holds _ _ _ Hg).
Qed.

Lemma heap_removeId_loops pid h rows cols n (cur : Grid) :
  length cur = n →
  match forEach (seq 0 rows)
          (fun ng r => forEach (seq 0 cols) (removeIdAt pid r) ng) cur with
  | Ok cur' =>
      Heap.forEach (seq 0 rows)
        (fun _ r => Heap.forEach (seq 0 cols)
                      (Heap.removeIdAt pid (seq (length h) n) r) tt) tt (h ++ cur)
      = Ok (tt, h ++ cur') ∧ length cur' = n
  | TypeError =>
      Heap.forEach (seq 0 rows)
        (fun _ r => Heap.forEach (seq 0 cols)
                      (Heap.removeIdAt pid (seq (length h) n) r) tt) tt (h ++ cur)
      = TypeError
  | OutOfFuel =>
      Heap.forEach (seq 0 rows)
        (fun _ r => Heap.forEach (seq 0 cols)
                      (Heap.removeIdAt pid (seq (length h) n) r) tt) tt (h ++ cur)
      = OutOfFuel
  end.
Proof.
  apply (heap_forEach_lockstep (fun cur : Grid => h ++ cur)
           (fun cur : Grid => length cur = n)
           (fun _ r => Heap.forEach (seq 0 cols)
                         (Heap.removeIdAt pid (seq (length h) n) r) tt)
           (fun ng r => forEach (seq 0 cols) (removeIdAt pid r) ng)).
  intros s r Hs.
  apply (heap_forEach_lockstep (fun cur : Grid => h ++ cur)
           (fun cur : Grid => length cur = n)
           (Heap.removeIdAt pid (seq (length h) n) r) (removeIdAt pid r)); [|done].
  intros s' c Hs'. pose proof (heap_removeIdAt_lockstep pid h s' r c) as Hstep.
  rewrite Hs' in Hstep. destruct (removeIdAt pid r s' c); [|done..].
  destruct Hstep as [? ?]. split; congruence.
Qed.

Lemma heap_removeId_simulates rows cols h g gv pid :
  Heap.holds h g gv →
  simulates Heap.holds (Heap.removeId rows cols g pid) h (removeId rows cols gv pid).
Proof.
  intros Hg. unfold Heap.removeId, removeId, simulates. rewrite cloneState_id.
  pose proof (heap_removeId_loops pid h rows cols (length gv) gv eq_refl) as Hloops.
  destruct (forEach (seq 0 rows) _ gv) as [gv'| |];
    unfold mbind, Heap.M_bind; rewrite (heap_cloneState_holds _ _ _ Hg).
  - destruct Hloops as [Hl Hlen]. rewrite Hl.
    exists (seq (length h) (length gv)), gv'. split; [done|].
    rewrite <- Hlen. apply heap_holds_fresh.
  - by rewrite Hloops.
  - by rewrite Hloops.
Qed.

Lemma nodeRel_app h ext nH nV : nodeRel h nH nV → nodeRel (h ++ ext) nH nV.
Proof. intros [? ?]. split; [done|]. by apply heap_holds_app. Qed.

Lemma queueRel_app h ext vqH vqV : queueRel h vqH vqV → queueRel (h ++ ext) vqH vqV.
Proof.
  intros [? Hq]. split; [done|]. eapply Forall2_impl; [done|].
  intros nH nV. apply nodeRel_app.
Qed.

(** Reading a grid the store holds. *)
Lemma simulates_snapshot {A B : Type} (Rel : Heap.store → A → B → Prop)
    h g gv (fH : Grid → Heap.M A) (mV : result B) :
  Heap.holds h g gv →
  simulates Rel (fH gv) h mV →
  simulates Rel (Heap.snapshot g ≫= fH) h mV.
Proof.
  intros Hg Hsim. unfold simulates, mbind, Heap.M_bind in *.
  by rewrite (heap_snapshot_holds _ _ _ Hg).
Qed.

Lemma simulates_serializeGrid {A B : Type} (Rel : Heap.store → A → B → Prop)
    h g gv (fH : string → Heap.M A) (mV : result B) :
  Heap.holds h g gv →
  simulates Rel (fH (serializeGrid gv)) h mV →
  simulates Rel (Heap.serializeGrid g ≫= fH) h mV.
Proof.
  intros Hg Hsim. unfold Heap.serializeGrid, simulates, mbind, Heap.M_bind in *.
  by rewrite (heap_snapshot_holds _ _ _ Hg).
Qed.

Lemma simulates_allEmpty {A B : Type} (Rel : Heap.store → A → B → Prop)
    h g gv (fH : bool → Heap.M A) (mV : result B) :
  Heap.holds h g gv →
  simulates Rel (fH (allEmpty gv)) h mV →
  simulates Rel (Heap.allEmpty g ≫= fH) h mV.
Proof.
  intros Hg Hsim. unfold Heap.allEmpty, simulates, mbind, Heap.M_bind in *.
  by rewrite (heap_snapshot_holds _ _ _ Hg).
Qed.

Lemma heap_removableHeads_simulates rows cols h g gv :
  Heap.holds h g gv →
  simulates (fun _ x y => x = y) (Heap.removableHeads rows cols g) h
    (removableHeads rows cols gv).
Proof.
  intros Hg. unfold Heap.removableHeads.
  apply (simulates_snapshot _ _ _ gv); [done|].
  by apply (simulates_lift (fun _ x y => x = y)).
Qed.

Lemma heap_expandMove_simulates rows cols h nH nV vqH vqV m :
  nodeRel h nH nV ∧ queueRel h vqH vqV →
  simulates (fun h vqH vqV => nodeRel h nH nV ∧ queueRel h vqH vqV)
    (Heap.expandMove rows cols nH vqH m) h (expandMove rows cols nV vqV m).
Proof.
  intros [[Hseq Hg] [Hvis Hq]]. unfold Heap.expandMove, expandMove.
  destruct vqH as [visH qH], vqV as [visV qV]. simpl in Hvis, Hq. subst visH.
  cbn [fst snd].
  apply (simulates_snapshot _ _ _ (grid nV)); [done|].
  eapply simulates_bind.
  { apply (simulates_lift (fun _ x y => x = y)). done. }
  intros ext cell ? <-. destruct cell as [cl|]; [|done].
  eapply simulates_bind.
  { apply heap_removeId_simulates. by apply heap_holds_app. }
  intros ext' ng gv' Hng.
  apply (simulates_serializeGrid _ _ _ gv'); [done|].
  case_decide; apply simulates_ret.
  - split; [do 2 apply nodeRel_app; by split|].
    do 2 apply queueRel_app. by split.
  - split; [do 2 apply nodeRel_app; by split|].
    split; [done|]. simpl. apply Forall2_app.
    + eapply Forall2_impl; [done|]. intros ? ? ?. by do 2 apply nodeRel_app.
    + constructor; [|done]. split; [simpl; by rewrite Hseq|done].
Qed.

Lemma heap_searchLoop_simulates rows cols maxStates fuel h sH sV :
  searchRel h sH sV →
  simulates (fun _ x y => x = y)
    (Heap.searchLoop fuel rows cols maxStates sH) h
    (searchLoop fuel rows cols maxStates sV).
Proof.
  revert h sH sV. induction fuel as [|fuel IH]; intros h sH sV [[Hvis Hq] Hst];
    simpl in Hvis, Hq.
  - simpl. destruct Hq as [|nH nV qH qV Hn Hq]; [|done].
    apply simulates_ret. by rewrite Hst.
  - simpl. destruct Hq as [|nH nV qH qV Hn Hq].
    { apply simulates_ret. by rewrite Hst. }
    rewrite Hst. destruct (maxStates <? states sV + 1); [by apply simulates_ret|].
    destruct Hn as [Hseq Hg].
    apply (simulates_allEmpty _ _ _ (grid nV)); [done|].
    destruct (allEmpty (grid nV)).
    { apply simulates_ret. by rewrite Hseq. }
    eapply simulates_bind.
    { by apply heap_removableHeads_simulates. }
    intros ext moves ? <-.
    eapply simulates_bind.
    { apply (heap_forEach_simulates
               (fun h vqH vqV => nodeRel h nH nV ∧ queueRel h vqH vqV)).
      - intros h' vqH vqV m HR. by apply heap_expandMove_simulates.
      - split; [apply nodeRel_app; by split|]. apply queueRel_app.
        split; [exact Hvis|exact Hq]. }
    intros ext' vqH vqV [_ [Hvis' Hq']]. apply IH. by split.
Qed.

Lemma heap_cloneState_simulates h g gv :
  Heap.holds h g gv → simulates Heap.holds (Heap.cloneState g) h (Ok gv).
Proof.
  intros Hg. exists (seq (length h) (length gv)), gv.
  split; [by apply heap_cloneState_holds|apply heap_holds_fresh].
Qed.

Lemma heap_solveRun_simulates h g gv maxStates :
  Heap.holds h g gv →
  simulates (fun _ x y => x = y) (Heap.solveRun g maxStates) h (solveRun gv maxStates).
Proof.
  intros Hg. unfold Heap.solveRun, solveRun.
  rewrite (heap_holds_length _ _ _ Hg).
  eapply (simulates_bind (fun _ x y => x = y)).
  { unfold width. destruct Hg as [|l row0 g gv Hl Hg]; [done|]. simpl.
    exists (length row0), []. rewrite app_nil_r. split; [|done].
    unfold mbind, Heap.M_bind, Heap.read. by rewrite Hl. }
  intros ext cols ? <-.
  apply (simulates_serializeGrid _ _ _ gv); [by apply heap_holds_app|].
  apply (simulates_bind Heap.holds (fun _ x y => x = y) (Heap.cloneState g)
           (Ok (cloneState gv)) _
           (fun start =>
              searchLoop (S (Z.to_nat maxStates)) (length gv) cols maxStates
                (mkSearch [mkNode start []] {[serializeGrid gv]} 0))).
  { rewrite cloneState_id. apply heap_cloneState_simulates. by apply heap_holds_app. }
  intros ext' start startV Hstart. apply heap_searchLoop_simulates.
  split; [|done]. split; [done|]. simpl. constructor; [|done]. by split.
Qed.

(** C9.  The solver leaves its input alone.  Run on a store that holds the
    start grid, [findSolutionLimited] returns what it returns on the value
    of the grid, the row arrays that existed before the call are unchanged
    (the store has only grown), and so the start grid holds in every cell
    the value it held before. *)
Theorem findSolutionLimited_pure (h : Heap.store) (g : Heap.GridRef) (gv : Grid)
    (maxStates : Z) :
  Heap.holds h g gv →
  gv ≠ [] →
  ∃ res h',
    Heap.findSolutionLimited g maxStates h = Ok (res, h') ∧
    findSolutionLimited gv maxStates = Ok res ∧
    (∀ l row, h !! l = Some row → h' !! l = Some row) ∧
    Heap.holds h' g gv.
Proof.
  intros Hg Hne.
  destruct (solver_returns gv maxStates Hne)
    as (res & n & Hrun & Hres & _).
  pose proof (heap_solveRun_simulates h g gv maxStates Hg) as Hsim.
  rewrite Hrun in Hsim. destruct Hsim as (a & ext & HrunH & ->).
  exists res, (h ++ ext). split; [|split; [done|split]].
  - unfold Heap.findSolutionLimited, mbind, Heap.M_bind. by rewrite HrunH.
  - intros l row Hl. by apply lookup_app_l_Some.
  - by apply heap_holds_app.
Qed.

(** ** The scan of the generator *)

Lemma cellAt_setCell (g : Grid) r c v (row : Row) r' c' :
  g !! r = Some row → (c < length row)%nat →
  cellAt (setCell g r c v) r' c' =
  if decide (r' = r ∧ c' = c) then Ok v else cellAt g r' c'.
Proof.
  intros Hrow Hc. apply lookup_lt_Some in Hrow as Hr.
  unfold setCell, cellAt. rewrite Hrow, list_lookup_insert.
  destruct (decide (r = r' ∧ (r < length g)%nat)) as [[<- _]|Hne].
  - rewrite list_lookup_insert, Hrow.
    destruct (decide (c = c' ∧ (c < length row)%nat)) as [[<- _]|Hne].
    + by rewrite decide_True.
    + rewrite decide_False by (intros [_ ->]; apply Hne; done). done.
  - rewrite decide_False by (intros [-> _]; apply Hne; done). done.
Qed.

Lemma rect_setCell rows cols (g : Grid) r c v :
  rect rows cols g → rect rows cols (setCell g r c v).
Proof.
  intros [Hlen Hrows]. unfold setCell. destruct (g !! r) as [row|] eqn:Hrow; [|done].
  split; [by rewrite length_insert|].
  intros r' row'. rewrite list_lookup_insert. case_decide as Hd.
  - intros [= <-]. rewrite length_insert. by eapply Hrows.
  - apply Hrows.
Qed.

Lemma rect_lookup rows cols (g : Grid) r c :
  rect rows cols g → (r < rows)%nat → (c < cols)%nat →
  ∃ row, g !! r = Some row ∧ (c < length row)%nat.
Proof.
  intros [Hlen Hrows] Hr Hc.
  destruct (lookup_lt_is_Some_2 g r) as [row Hrow]; [lia|].
  exists row. split; [done|]. by rewrite (Hrows _ _ Hrow).
Qed.

Lemma writePiece_snoc (g : Grid) pid d ln ps p :
  writePiece g pid d ln (ps ++ [p]) =
  setCell (writePiece g pid d ln ps) p.1 p.2
    (Some (mkCell pid d ln (bool_decide (length ps = 0%nat)))).
Proof.
  unfold writePiece. rewrite imap_app, foldl_app. simpl.
  by rewrite Nat.add_0_r.
Qed.

Lemma behind_inj d r c k1 k2 :
  0 <= Z.of_nat r - (DIR_VECTORS d).1 * Z.of_nat k1 →
  0 <= Z.of_nat c - (DIR_VECTORS d).2 * Z.of_nat k1 →
  0 <= Z.of_nat r - (DIR_VECTORS d).1 * Z.of_nat k2 →
  0 <= Z.of_nat c - (DIR_VECTORS d).2 * Z.of_nat k2 →
  behind d r c k1 = behind d r c k2 → k1 = k2.
Proof.
  unfold behind. intros ? ? ? ? [= H1 H2]. destruct d; simpl in *; lia.
Qed.

(** The cells of the grid after a piece is written behind its head. *)
Lemma writePiece_cells rows cols (g : Grid) pid d ln r c n :
  rect rows cols g →
  roomBehind g rows cols d r c n →
  rect rows cols (writePiece g pid d ln (behind d r c <$> seq 0 n)) ∧
  (∀ k, (k < n)%nat →
     cellAt (writePiece g pid d ln (behind d r c <$> seq 0 n))
       (behind d r c k).1 (behind d r c k).2
     = Ok (Some (mkCell pid d ln (bool_decide (k = 0%nat))))) ∧
  (∀ r' c', (∀ k, (k < n)%nat → (r', c') ≠ behind d r c k) →
     cellAt (writePiece g pid d ln (behind d r c <$> seq 0 n)) r' c'
     = cellAt g r' c').
Proof.
  intros Hrect. induction n as [|n IH]; intros Hroom.
  - split; [done|]. split; [intros; lia|done].
  - destruct IH as (Hrect' & Hin & Hout).
    { intros k Hk. apply Hroom. lia. }
    rewrite seq_S, fmap_app. simpl. rewrite writePiece_snoc, length_fmap, length_seq.
    set (g1 := writePiece g pid d ln (behind d r c <$> seq 0 n)) in *.
    destruct (Hroom n) as (Hr & Hc & Hempty); [lia|].
    destruct (rect_lookup rows cols g1 (behind d r c n).1 (behind d r c n).2)
      as (row & Hrow & Hlt); [done|unfold behind; simpl; lia..|].
    split; [by apply rect_setCell|]. split.
    + intros k Hk. rewrite (cellAt_setCell _ _ _ _ _ _ _ Hrow Hlt).
      destruct (decide (k = n)) as [->|Hne].
      * rewrite decide_True by done. done.
      * rewrite decide_False.
        { apply Hin. lia. }
        intros [H1 H2]. apply Hne.
        destruct (Hroom k) as (? & ? & _); [lia|].
        apply (behind_inj d r c); [lia..|].
        by apply injective_projections.
    + intros r' c' Hne. rewrite (cellAt_setCell _ _ _ _ _ _ _ Hrow Hlt).
      rewrite decide_False.
      { apply Hout. intros k Hk. apply Hne. lia. }
      intros [-> ->]. apply (Hne n); [lia|]. by destruct (behind d r c n).
Qed.

Lemma seqZ_to_nat m (ln : Z) : seqZ m ln = seqZ m (Z.of_nat (Z.to_nat ln)).
Proof. unfold seqZ. by rewrite Nat2Z.id. Qed.

(** The loop that collects the positions of a piece: when it ends with
    [ok] still true, the positions are the [n] cells behind the head, all
    on the board and empty. *)
Lemma tryPosition_loop (g : Grid) rows cols d r c n ps :
  forEach (seqZ 0 (Z.of_nat n))
    (tryPosition g rows cols r c (DIR_VECTORS d).1 (DIR_VECTORS d).2) (Some [])
  = Ok (Some ps) →
  ps = behind d r c <$> seq 0 n ∧ roomBehind g rows cols d r c n.
Proof.
  revert ps. induction n as [|n IH]; intros ps.
  - simpl. intros [= <-]. split; [done|]. intros k Hk. lia.
  - rewrite seqZ_S, forEach_snoc, Z.add_0_l, seq_S, fmap_app.
    destruct (forEach (seqZ 0 (Z.of_nat n)) _ (Some [])) as [[ps'|]| |]; simpl; try done.
    destruct (IH ps' eq_refl) as [-> Hroom].
    destruct (_ || _) eqn:Eb; [done|].
    apply orb_false_iff in Eb as [Eb Eb4]. apply orb_false_iff in Eb as [Eb Eb3].
    apply orb_false_iff in Eb as [Eb1 Eb2].
    apply Z.ltb_ge in Eb1, Eb3. apply Z.leb_gt in Eb2, Eb4.
    destruct (g !! _) as [row|] eqn:Hrow; [|done].
    destruct (row !! _) as [[cl|]|] eqn:Hcell; try done.
    intros [= <-]. split; [done|].
    intros k Hk. destruct (decide (k = n)) as [->|Hne]; [|apply Hroom; lia].
    split; [lia|]. split; [lia|].
    unfold cellAt, behind. simpl. by rewrite Hrow, Hcell.
Qed.

Lemma elem_of_behind d r c n p :
  p ∈ behind d r c <$> seq 0 n ↔ ∃ k, (k < n)%nat ∧ p = behind d r c k.
Proof.
  rewrite list_elem_of_fmap. split.
  - intros (k & -> & Hk%elem_of_seq). exists k. split; [lia|done].
  - intros (k & Hk & ->). exists k. split; [done|]. apply elem_of_seq. lia.
Qed.

(** A piece keeps its validity when the cells holding its id stay the
    same. *)
Lemma pieceValid_ext (g g' : Grid) pid :
  (∀ r c cl, id cl = pid →
     cellAt g' r c = Ok (Some cl) ↔ cellAt g r c = Ok (Some cl)) →
  pieceValid g pid → pieceValid g' pid.
Proof.
  intros Hext (r0 & c0 & d & n & Hn & Hon & Hfull & rh & ch & clh & Hh & Hid & Hhead & Huniq).
  exists r0, c0, d, n. split; [done|]. split; [|split].
  - intros r c cl Hc Hcid. apply (Hon r c cl); [by apply Hext|done].
  - intros k Hk. destruct (Hfull k Hk) as (r & c & cl & Hr & Hc & Hcell & Hcid).
    exists r, c, cl. repeat split; try done. by apply Hext.
  - exists rh, ch, clh. split; [by apply Hext|]. split; [done|]. split; [done|].
    intros r c cl Hc Hcid. apply Huniq; [by apply Hext|done].
Qed.

(** Writing a new piece behind its head, under a fresh id, keeps the
    invariant of the scan. *)
Lemma writePiece_inv rows cols (g : Grid) pid d ln r c :
  rect rows cols g → gridInvariant g → idsBelow pid g →
  roomBehind g rows cols d r c (Z.to_nat ln) →
  rect rows cols (writePiece g pid d ln (behind d r c <$> seq 0 (Z.to_nat ln))) ∧
  gridInvariant (writePiece g pid d ln (behind d r c <$> seq 0 (Z.to_nat ln))) ∧
  idsBelow (pid + 1) (writePiece g pid d ln (behind d r c <$> seq 0 (Z.to_nat ln))).
Proof.
  intros Hrect Hinv Hbelow Hroom.
  destruct (writePiece_cells rows cols g pid d ln r c (Z.to_nat ln) Hrect Hroom)
    as (Hrect' & Hin & Hout).
  set (n := Z.to_nat ln) in *.
  set (g' := writePiece g pid d ln (behind d r c <$> seq 0 n)) in *.
  assert (Hclass : ∀ r' c' cl, cellAt g' r' c' = Ok (Some cl) →
            (∃ k, (k < n)%nat ∧ (r', c') = behind d r c k ∧
                  cl = mkCell pid d ln (bool_decide (k = 0%nat))) ∨
            (cellAt g r' c' = Ok (Some cl) ∧
             ∀ k, (k < n)%nat → (r', c') ≠ behind d r c k)).
  { intros r' c' cl Hcl.
    destruct (decide ((r', c') ∈ behind d r c <$> seq 0 n)) as [Hel|Hnel].
    - left. apply elem_of_behind in Hel as (k & Hk & Hp). exists k.
      split; [done|]. split; [done|].
      specialize (Hin k Hk). rewrite <- Hp in Hin. simpl in Hin. congruence.
    - right. assert (Hne : ∀ k, (k < n)%nat → (r', c') ≠ behind d r c k).
      { intros k Hk Hp. apply Hnel, elem_of_behind. eauto. }
      split; [|done]. by rewrite <- (Hout r' c' Hne). }
  assert (Hold : ∀ r' c' cl, cellAt g r' c' = Ok (Some cl) →
            cellAt g' r' c' = Ok (Some cl)).
  { intros r' c' cl Hcl. rewrite Hout; [done|]. intros k Hk Hp.
    destruct (Hroom k Hk) as (_ & _ & Hempty). rewrite <- Hp in Hempty.
    simpl in Hempty. congruence. }
  split; [done|]. split.
  - intros pid' (r' & c' & row & cl & Hr & Hc & Hid)%elem_of_pieceIds.
    assert (Hcl : cellAt g' r' c' = Ok (Some cl)) by (apply cellAt_Some_lookup; eauto).
    destruct (Hclass _ _ _ Hcl) as [(k0 & Hk0 & Hp0 & ->)|[Hcl0 _]].
    + simpl in Hid. subst pid'.
      assert (Hln : ln = Z.of_nat n) by (subst n; lia).
      exists (Z.of_nat r - (ln - 1) * (DIR_VECTORS d).1),
             (Z.of_nat c - (ln - 1) * (DIR_VECTORS d).2), d, ln.
      split; [lia|]. split; [|split].
      * intros r1 c1 cl1 Hcl1 Hid1.
        destruct (Hclass _ _ _ Hcl1) as [(k & Hk & Hp & ->)|[Hcl1' _]].
        -- split; [done|]. split; [done|].
           exists (ln - 1 - Z.of_nat k). split; [lia|].
           destruct (Hroom k Hk) as (Hkr & Hkc & _).
           injection Hp as -> ->. rewrite !Z2Nat.id by lia.
           destruct d; simpl; lia.
        -- apply Hbelow in Hcl1'. lia.
      * intros j Hj.
        assert (Hk : (Z.to_nat (ln - 1 - j) < n)%nat) by lia.
        destruct (Hroom _ Hk) as (Hkr & Hkc & _).
        eexists _, _, _. split; [|split; [|split; [apply (Hin _ Hk)|done]]].
        -- unfold behind. simpl. rewrite !Z2Nat.id by lia.
           destruct d; simpl; lia.
        -- unfold behind. simpl. rewrite !Z2Nat.id by lia.
           destruct d; simpl; lia.
      * assert (H0 : (0 < n)%nat) by lia.
        eexists _, _, _. split; [apply (Hin 0%nat H0)|]. split; [done|].
        split; [done|]. intros r1 c1 cl1 Hcl1 Hid1 Hhead1.
        destruct (Hclass _ _ _ Hcl1) as [(k & Hk & Hp & ->)|[Hcl1' _]].
        -- simpl in Hhead1. apply bool_decide_eq_true in Hhead1 as ->.
           by injection Hp as -> ->.
        -- apply Hbelow in Hcl1'. lia.
    + apply (pieceValid_ext g).
      * intros r1 c1 cl1 Hid1. split; [|apply Hold].
        intros Hcl1. destruct (Hclass _ _ _ Hcl1) as [(k & Hk & Hp & ->)|[Hcl1' _]];
          [|done].
        simpl in Hid1. apply Hbelow in Hcl0. lia.
      * apply Hinv, elem_of_pieceIds.
        apply cellAt_Some_lookup in Hcl0 as (row0 & ? & ?). by exists r', c', row0, cl.
  - intros r' c' cl Hcl.
    destruct (Hclass _ _ _ Hcl) as [(k & Hk & Hp & ->)|[Hcl' _]]; [simpl; lia|].
    apply Hbelow in Hcl'. lia.
Qed.

Lemma cellAt_emptyGrid rows cols r c cl : cellAt (emptyGrid rows cols) r c ≠ Ok (Some cl).
Proof.
  intros (row & Hr & Hc)%cellAt_Some_lookup. unfold emptyGrid in Hr.
  apply lookup_replicate in Hr as [-> _]. by apply lookup_replicate in Hc as [? _].
Qed.

Lemma genInv_emptyGrid rows cols idc n :
  genInv rows cols (mkGen (emptyGrid rows cols) idc n).
Proof.
  split; [|split]; simpl.
  - split; [apply length_replicate|]. intros r row [-> _]%lookup_replicate.
    apply length_replicate.
  - intros pid (r & c & row & cl & Hr & Hc & _)%elem_of_pieceIds.
    destruct (cellAt_emptyGrid rows cols r c cl). apply cellAt_Some_lookup. eauto.
  - intros r c cl Hcl. by destruct (cellAt_emptyGrid rows cols r c cl).
Qed.

(** One cell of the scan keeps the invariant. *)
Lemma placeAt_inv rows cols density maxLen rnd r st c st' :
  genInv rows cols st →
  placeAt rows cols density maxLen rnd r st c = Ok st' →
  genInv rows cols st'.
Proof.
  intros (Hrect & Hinv & Hbelow). unfold placeAt.
  destruct (genGrid st !! r) as [row|]; [|done].
  destruct (row !! c) as [[cl|]|]; [by intros [= <-]| |by intros [= <-]].
  destruct (Qle_bool density _); [by intros [= <-]|].
  destruct (if 0 <=? _ then _ else _) as [d|]; [|done].
  rewrite (surjective_pairing (DIR_VECTORS d)). rewrite seqZ_to_nat.
  destruct (forEach _ _ (Some [])) as [[ps|]| |] eqn:Hloop; simpl; try done.
  - apply tryPosition_loop in Hloop as [-> Hroom]. intros [= <-].
    by apply writePiece_inv.
  - by intros [= <-].
Qed.

(** The scan of one candidate ends on a grid whose pieces are valid. *)
Lemma scanGrid_inv rows cols density maxLen rnd idc n st :
  scanGrid rows cols density maxLen rnd idc n = Ok st → genInv rows cols st.
Proof.
  unfold scanGrid. intros Hscan.
  apply (forEach_Ok_invariant (genInv rows cols) _ _ _ _ Hscan).
  - apply genInv_emptyGrid.
  - intros st1 r st2 _ Hst1 Hrow.
    apply (forEach_Ok_invariant (genInv rows cols) _ _ _ _ Hrow); [done|].
    intros st3 c st4 _. apply placeAt_inv.
Qed.

(** A candidate the generator accepts satisfies the grid invariant: the
    attempts write the number of cells of a piece into its length field and
    put its body behind its head. *)
Lemma attempts_valid n rows cols density maxLen rnd idc drawn g :
  attempts n rows cols density maxLen rnd idc drawn = Ok (Some g) →
  gridInvariant g.
Proof.
  revert idc drawn. induction n as [|n IH]; intros idc drawn; simpl; [done|].
  destruct (scanGrid rows cols density maxLen rnd idc drawn) as [st| |] eqn:Hscan;
    simpl; [|done..].
  apply scanGrid_inv in Hscan as (_ & Hinv & _).
  destruct (if hasArrow (genGrid st) then _ else _) as [b| |]; simpl; [|done..].
  destruct (hasArrow (genGrid st) && b); [|apply IH].
  destruct (findSolutionLimited (genGrid st) 20000) as [[sol|]| |]; simpl; [|apply IH|done..].
  by intros [= <-].
Qed.

Lemma generate_accepted_valid rows cols density maxLen maxAttempts rnd g :
  attempts maxAttempts rows cols density maxLen rnd 1 0 = Ok (Some g) →
  generateRandomLevelAsync rows cols density maxLen maxAttempts rnd = Ok g ∧
  gridInvariant g.
Proof.
  intros Hacc. split; [|by eapply attempts_valid].
  unfold generateRandomLevelAsync. by rewrite Hacc.
Qed.

(** A run that accepts its first candidate: two pieces of length 2, each
    with its body behind its head. *)
Lemma generate_accepted_example :
  generateRandomLevelAsync 2 3 (1 # 2) 2 5 rndCycle =
  Ok [[Some (mkCell 1 R 2 false); Some (mkCell 1 R 2 true); None];
      [Some (mkCell 2 R 2 false); Some (mkCell 2 R 2 true); None]].
Proof. vm_compute. reflexivity. Qed.

(** * The claims of the specification *)

(** C1.  Soundness of the solver.  If [findSolutionLimited] returns a move
    sequence, the moves can be applied in order to the start grid: each
    names a head for which [canExit] holds on the state just before it,
    each removes every cell of that piece, and the grid reached at the end
    is all empty. *)
Theorem findSolutionLimited_sound (g : Grid) (maxStates : Z) (ms : list Move) :
  findSolutionLimited g maxStates = Ok (Some ms) →
  ∃ gF, applyMoves g ms = Some gF ∧ allEmpty gF = true.
Proof. apply solution_replays. Qed.

Lemma findSolutionLimited_sound_witness :
  findSolutionLimited boardThree 20000
    = Ok (Some [(0, 1); (1, 0); (1, 2)]%nat) ∧
  ∃ gF, applyMoves boardThree [(0, 1); (1, 0); (1, 2)]%nat = Some gF ∧
        allEmpty gF = true.
Proof.
  assert (H : findSolutionLimited boardThree 20000
              = Ok (Some [(0, 1); (1, 0); (1, 2)]%nat)) by (vm_compute; reflexivity).
  split; [exact H|]. exact (findSolutionLimited_sound _ _ _ H).
Defined.

(** C2, in the words of the specification, fails on the board of the
    specification's own scenario: the head at [(0,0)] can exit although the
    cell [(0,1)] ahead of it is on the board and belongs to no piece. *)
Lemma canExit_spec_wording_fails :
  cellAt boardSingle 0 0 = Ok (Some (mkCell 1 R 1 true)) ∧
  ¬ (canExit boardSingle 0 0 = Ok true ↔
     pathOwnOrOff boardSingle 0 0 (mkCell 1 R 1 true)).
Proof.
  split; [reflexivity|]. intros [Hpath _].
  destruct (Hpath eq_refl 1 ltac:(lia)) as [Hoff|(o & Ho & _)].
  - apply Hoff. unfold onBoard. simpl. lia.
  - discriminate Ho.
Qed.

Lemma canExit_iff_pathClear_witness :
  (∃ b, canExit boardSingle 0 0 = Ok b) ∧
  (canExit boardSingle 0 0 = Ok true ↔
   pathClear boardSingle 0 0 (mkCell 1 R 1 true)).
Proof.
  apply (canExit_iff_pathClear boardSingle 0 0 (mkCell 1 R 1 true)).
  - reflexivity.
  - reflexivity.
  - unfold onBoard. simpl. lia.
Defined.

(** C4.  Termination and cost of the solver.  On a grid with at least one
    row [findSolutionLimited] returns, whatever the cap; for a cap that is
    a count (not negative) it dequeues at most [maxStates + 1] nodes; and
    when the counter has passed [maxStates] the answer is not-found. *)
Theorem findSolutionLimited_terminates (g : Grid) (maxStates : Z) :
  g ≠ [] →
  ∃ res dequeued,
    solveRun g maxStates = Ok (res, dequeued) ∧
    findSolutionLimited g maxStates = Ok res ∧
    (0 <= maxStates → dequeued <= maxStates + 1) ∧
    (maxStates < dequeued → res = None).
Proof. apply solver_returns. Qed.

Lemma findSolutionLimited_terminates_witness :
  ∃ res dequeued,
    solveRun boardThree 2 = Ok (res, dequeued) ∧
    findSolutionLimited boardThree 2 = Ok res ∧
    (0 <= 2 → dequeued <= 2 + 1) ∧
    (2 < dequeued → res = None).
Proof. apply (findSolutionLimited_terminates boardThree 2). discriminate. Defined.

Lemma serializeGrid_eq_iff_witness :
  serializeGrid boardThree = serializeGrid boardThreeTurned ↔
  idPattern boardThree = idPattern boardThreeTurned.
Proof.
  apply (serializeGrid_eq_iff boardThree boardThreeTurned).
  unfold sameShape, boardThree, boardThreeTurned. repeat constructor.
Defined.

(** C7.  On an in-bounds coordinate whose cell is empty or holds a segment
    that is not a head, [canExit] returns [false]; it does not throw. *)
Theorem canExit_not_head_false (grid : Grid) (r c : nat) (cell : option Cell) :
  cellAt grid r c = Ok cell →
  (cell = None ∨ ∃ cl, cell = Some cl ∧ head cl = false) →
  canExit grid r c = Ok false.
Proof. apply canExit_false_of_not_head. Qed.

Lemma canExit_not_head_false_witness :
  canExit boardThree 0 2 = Ok false ∧ canExit boardThree 0 0 = Ok false.
Proof.
  split.
  - apply (canExit_not_head_false boardThree 0 2 None); [reflexivity|by left].
  - apply (canExit_not_head_false boardThree 0 0 (Some (mkCell 1 R 2 false)));
      [reflexivity|]. right. by eexists.
Defined.

Lemma facingPair_unsolvable_witness :
  canExit (facingPair 1 2 [] []) 0 0 = Ok false ∧
  canExit (facingPair 1 2 [] []) 0 1 = Ok false ∧
  findSolutionLimited (facingPair 1 2 [] []) 20000 = Ok None.
Proof. apply (facingPair_unsolvable 1 2 [] [] 20000); [discriminate|reflexivity]. Defined.

Lemma findSolutionLimited_pure_witness :
  ∃ res h',
    Heap.findSolutionLimited [0; 1]%nat 20000 boardThree = Ok (res, h') ∧
    findSolutionLimited boardThree 20000 = Ok res ∧
    (∀ l row, boardThree !! l = Some row → h' !! l = Some row) ∧
    Heap.holds h' [0; 1]%nat boardThree.
Proof.
  apply (findSolutionLimited_pure boardThree [0; 1]%nat boardThree 20000).
  - unfold Heap.holds, boardThree. repeat constructor.
  - discriminate.
Defined.

Lemma findSolutionLimited_one_move_per_piece_witness :
  (length [(0, 1); (1, 0); (1, 2)]%nat = size (pieceIds boardThree) ∧
   ∃ names, namedId boardThree <$> [(0, 1); (1, 0); (1, 2)]%nat = Some <$> names ∧
            NoDup names) ∧
  findSolutionLimited [[None; None]; [None; None]] 1 = Ok (Some []).
Proof.
  split.
  - apply (proj1 (findSolutionLimited_one_move_per_piece boardThree 20000)).
    vm_compute. reflexivity.
  - apply (proj2 (findSolutionLimited_one_move_per_piece
                    [[None; None]; [None; None]] 1));
      [discriminate|reflexivity|lia].
Defined.

(** C5, as the specification states it for a single column, fails: with
    two rows and one column the fallback holds no piece at all. *)
Lemma generate_fallback_one_column_empty :
  attempts 0 2 1 0 1 rndZero 1 0 = Ok None ∧
  generateRandomLevelAsync 2 1 0 1 0 rndZero = Ok [[None]; [None]] ∧
  pieceIds [[None]; [None]] = ∅.
Proof. split; [reflexivity|]. split; [reflexivity|]. by apply pieceIds_allEmpty. Qed.

Lemma generate_fallback_witness :
  generateRandomLevelAsync 2 2 0 1 3 rndZero = Ok (fallbackGrid 2 2) ∧
  ((1 ≤ 2)%nat → (2 ≤ 2)%nat →
     fallbackGrid 2 2 =
     (Some (mkCell 1 R 1 true) :: Some (mkCell 1 R 1 false)
        :: replicate (2 - 2) None)
       :: replicate (2 - 1) (replicate 2 None)) ∧
  ((2 = 0 ∨ 2 ≤ 1)%nat → fallbackGrid 2 2 = emptyGrid 2 2).
Proof.
  apply (generate_fallback 2 2 0 1 3 rndZero). vm_compute. reflexivity.
Defined.

(** C3 at the fallback.  With density 0 every attempt yields the empty
    board, the generator returns the fallback, and the fallback breaks the
    invariant: its piece occupies the two cells [(0,0)] and [(0,1)] while
    its length field is 1. *)
Theorem generate_fallback_breaks_invariant :
  generateRandomLevelAsync 2 2 0 1 3 rndZero = Ok (fallbackGrid 2 2) ∧
  cellAt (fallbackGrid 2 2) 0 0 = Ok (Some (mkCell 1 R 1 true)) ∧
  cellAt (fallbackGrid 2 2) 0 1 = Ok (Some (mkCell 1 R 1 false)) ∧
  ¬ gridInvariant (fallbackGrid 2 2).
Proof.
  split; [vm_compute; reflexivity|]. split; [reflexivity|]. split; [reflexivity|].
  apply fallbackGrid_not_valid.
Qed.

(** * Further properties of the code *)

(** ** [canExit] and [removeId] *)

Lemma cellAt_removePiece (g : Grid) pid r c :
  cellAt (removePiece g pid) r c =
  match cellAt g r c with
  | Ok x => Ok (clearId pid x)
  | TypeError => TypeError
  | OutOfFuel => OutOfFuel
  end.
Proof.
  unfold cellAt, removePiece. rewrite list_lookup_fmap.
  destruct (g !! r) as [row|]; simpl; [|done].
  rewrite list_lookup_fmap. by destruct (row !! c) as [[?|]|].
Qed.

Lemma removePiece_length (g : Grid) pid : length (removePiece g pid) = length g.
Proof. unfold removePiece. by rewrite length_fmap. Qed.

Lemma removePiece_width (g : Grid) pid : width (removePiece g pid) = width g.
Proof.
  unfold width, removePiece. rewrite list_lookup_fmap.
  destruct (g !! 0%nat); simpl; [|done]. by rewrite length_fmap.
Qed.

(** A walk that passes on [g] passes on [g] with a piece removed. *)
Lemma exitWalk_removePiece (g : Grid) pid H W pid' dr dc fuel rr cc :
  exitWalk fuel g H W pid' dr dc rr cc = Ok true →
  exitWalk fuel (removePiece g pid) H W pid' dr dc rr cc = Ok true.
Proof.
  revert rr cc. induction fuel as [|fuel IH]; intros rr cc; simpl.
  - by destruct (inBounds H W rr cc).
  - destruct (inBounds H W rr cc); [|done].
    rewrite cellAt_removePiece.
    destruct (cellAt g (Z.to_nat rr) (Z.to_nat cc)) as [[o|]| |]; simpl; try done.
    + destruct (id o =? pid') eqn:Eo; simpl; [|done].
      destruct (id o =? pid); simpl; [apply IH|].
      rewrite Eo. simpl. apply IH.
    + apply IH.
Qed.

Lemma canExit_removePiece_aux (g : Grid) r c cl pid :
  canExit g r c = Ok true →
  cellAt g r c = Ok (Some cl) →
  id cl ≠ pid →
  canExit (removePiece g pid) r c = Ok true.
Proof.
  intros Hexit Hcl Hne.
  destruct (canExit_true_head _ _ _ Hexit) as (cl' & Hcl' & Hh).
  rewrite Hcl in Hcl'. injection Hcl' as <-.
  destruct (cellAt_row0 _ _ _ _ Hcl) as [row0 H0].
  rewrite (canExit_unfold _ _ _ _ _ Hcl Hh H0) in Hexit.
  assert (Hcl1 : cellAt (removePiece g pid) r c = Ok (Some cl)).
  { rewrite cellAt_removePiece, Hcl. simpl.
    by rewrite (proj2 (Z.eqb_neq (id cl) pid) Hne). }
  assert (H01 : removePiece g pid !! 0%nat = Some (clearId pid <$> row0)).
  { unfold removePiece. by rewrite list_lookup_fmap, H0. }
  rewrite (canExit_unfold _ _ _ _ _ Hcl1 Hh H01).
  rewrite removePiece_length, length_fmap. by apply exitWalk_removePiece.
Qed.

(** X1.  [canExit] throws exactly when the row index is outside the grid;
    for a row of the grid it returns a boolean, whatever the column and
    whatever the lengths of the rows, and its loop always ends. *)
Theorem canExit_throws_iff (g : Grid) (r c : nat) :
  (canExit g r c = TypeError ↔ (length g ≤ r)%nat) ∧
  ((r < length g)%nat → ∃ b, canExit g r c = Ok b) ∧
  canExit g r c ≠ OutOfFuel.
Proof.
  destruct (decide (r < length g)%nat) as [Hlt|Hge].
  - destruct (canExit_returns g r c Hlt) as [b Hb]. rewrite Hb.
    split; [split; [done|lia]|]. split; [eauto|done].
  - assert (Hthrow : canExit g r c = TypeError).
    { unfold canExit, cellAt. by rewrite lookup_ge_None_2 by lia. }
    rewrite Hthrow. split; [split; [lia|done]|]. split; [lia|done].
Qed.

(** X2.  A head that can exit can still exit after any other piece has
    been removed: removing a piece never blocks an exit. *)
Theorem canExit_removePiece (g : Grid) (r c : nat) (cl : Cell) (pid : Z) :
  canExit g r c = Ok true →
  cellAt g r c = Ok (Some cl) →
  id cl ≠ pid →
  canExit (removePiece g pid) r c = Ok true.
Proof. apply canExit_removePiece_aux. Qed.

Lemma canExit_removePiece_witness :
  canExit (removePiece boardThree 3) 0 1 = Ok true.
Proof.
  apply (canExit_removePiece boardThree 0 1 (mkCell 1 R 2 true) 3);
    [reflexivity|reflexivity|discriminate].
Defined.

Lemma rect_insideWindow rows cols (g : Grid) : rect rows cols g → insideWindow rows cols g.
Proof.
  intros [Hlen Hrows] r c row cl Hr Hc. split.
  - rewrite <- Hlen. by eapply lookup_lt_Some.
  - rewrite <- (Hrows _ _ Hr). by eapply lookup_lt_Some.
Qed.

Lemma rect_removePiece rows cols (g : Grid) pid :
  rect rows cols g → rect rows cols (removePiece g pid).
Proof.
  intros [Hlen Hrows]. split; [by rewrite removePiece_length|].
  intros r row'. unfold removePiece. rewrite list_lookup_fmap.
  destruct (g !! r) as [row|] eqn:Hr; [|done]. intros [= <-].
  rewrite length_fmap. by eapply Hrows.
Qed.

Lemma removeId_rect rows cols (g : Grid) pid :
  rect rows cols g → removeId rows cols g pid = Ok (removePiece g pid).
Proof.
  intros Hrect. rewrite removeId_closed by (destruct Hrect as [-> _]; done).
  f_equal. by apply clearWindow_removePiece, rect_insideWindow.
Qed.

Lemma cellAt_removePiece_Some (g : Grid) pid r c cl :
  cellAt (removePiece g pid) r c = Ok (Some cl) ↔
  cellAt g r c = Ok (Some cl) ∧ id cl ≠ pid.
Proof.
  rewrite cellAt_removePiece. destruct (cellAt g r c) as [x| |]; [|by split; [|intros []]..].
  split.
  - intros [= Hx]. apply clearId_Some in Hx as [-> Hne]. done.
  - intros [[= ->] Hne]. f_equal. by apply clearId_Some.
Qed.

Lemma gridInvariant_removePiece (g : Grid) pid :
  gridInvariant g → gridInvariant (removePiece g pid).
Proof.
  intros Hinv pid'. rewrite pieceIds_removePiece.
  intros [Hin Hne%not_elem_of_singleton]%elem_of_difference.
  apply (pieceValid_ext g); [|by apply Hinv].
  intros r c cl Hid. rewrite cellAt_removePiece_Some. split; [by intros [? _]|].
  intros Hcl. split; [done|]. congruence.
Qed.

(** X3.  On a [rows x cols] matrix [removeId] does not throw and empties
    exactly the cells that hold the id: the piece is gone from the result,
    every other piece is still there with all its cells, and the result is
    a matrix of the same dimensions. *)
Theorem removeId_matrix (rows cols : nat) (g : Grid) (pid : Z) :
  rect rows cols g →
  removeId rows cols g pid = Ok (removePiece g pid) ∧
  (∀ r c, cellAt (removePiece g pid) r c =
          match cellAt g r c with
          | Ok x => Ok (clearId pid x)
          | TypeError => TypeError
          | OutOfFuel => OutOfFuel
          end) ∧
  pieceIds (removePiece g pid) = pieceIds g ∖ {[pid]} ∧
  rect rows cols (removePiece g pid).
Proof.
  intros Hrect. split; [by apply removeId_rect|]. split; [apply cellAt_removePiece|].
  split; [apply pieceIds_removePiece|by apply rect_removePiece].
Qed.

Lemma removeId_matrix_witness :
  removeId 2 3 boardThree 1 =
  Ok [[None; None; None];
      [Some (mkCell 2 U 1 true); None; Some (mkCell 3 L 1 true)]].
Proof.
  assert (Hrect : rect 2 3 boardThree).
  { split; [reflexivity|]. intros [|[|r]] row; simpl; try done; by intros [= <-]. }
  exact (proj1 (removeId_matrix 2 3 boardThree 1 Hrect)).
Defined.

(** X4.  Removing a piece keeps the grid invariant: on a matrix whose
    pieces are all valid, the grid [removeId] returns has only valid
    pieces. *)
Theorem removeId_keeps_invariant (rows cols : nat) (g : Grid) (pid : Z) :
  rect rows cols g →
  gridInvariant g →
  ∃ g', removeId rows cols g pid = Ok g' ∧ gridInvariant g' ∧ rect rows cols g'.
Proof.
  intros Hrect Hinv. exists (removePiece g pid).
  split; [by apply removeId_rect|]. split; [by apply gridInvariant_removePiece|].
  by apply rect_removePiece.
Qed.

Lemma rect_boardGenerated : rect 2 3 boardGenerated.
Proof.
  split; [reflexivity|]. intros [|[|r]] row; simpl; try done; by intros [= <-].
Qed.

Lemma gridInvariant_boardGenerated : gridInvariant boardGenerated.
Proof.
  apply (attempts_valid 5 2 3 (1 # 2) 2 rndCycle 1 0). vm_compute. reflexivity.
Qed.

Lemma removeId_keeps_invariant_witness :
  ∃ g', removeId 2 3 boardGenerated 1 = Ok g' ∧ gridInvariant g' ∧ rect 2 3 g'.
Proof.
  apply (removeId_keeps_invariant 2 3 boardGenerated 1).
  - apply rect_boardGenerated.
  - apply gridInvariant_boardGenerated.
Defined.

(** ** Completeness of the search *)

Lemma restriction_refl g : restriction g g.
Proof.
  unfold restriction. apply Forall2_same_length_lookup_2; [done|].
  intros r row row' Hr Hr'. rewrite Hr in Hr'. injection Hr' as <-.
  apply Forall2_same_length_lookup_2; [done|].
  intros c x x' Hx Hx'. rewrite Hx in Hx'. injection Hx' as <-. by right.
Qed.

Lemma restriction_removePiece g0 s pid :
  restriction g0 s → restriction g0 (removePiece s pid).
Proof.
  unfold restriction, removePiece. intros Hres.
  apply Forall2_fmap_r. eapply Forall2_impl; [done|].
  intros row0 row Hrow. apply Forall2_fmap_r. eapply Forall2_impl; [done|].
  intros x0 x [-> | ->]; [by left|]. simpl.
  destruct x0 as [cl|]; simpl; [|by left]. destruct (id cl =? pid); [by left|by right].
Qed.

Lemma Reach_restriction g0 t : Reach g0 t → restriction g0 t.
Proof.
  induction 1; [apply restriction_refl|by apply restriction_removePiece].
Qed.

Lemma restriction_rect rows cols g0 s :
  rect rows cols g0 → restriction g0 s → rect rows cols s.
Proof.
  intros [Hlen Hrows] Hres. split.
  - rewrite <- Hlen. symmetry. by eapply Forall2_length.
  - intros r row Hr.
    destruct (Forall2_lookup_r _ _ _ _ _ Hres Hr) as (row0 & Hr0 & Hrow).
    rewrite <- (Hrows _ _ Hr0). symmetry. by eapply Forall2_length.
Qed.

(** Among the restrictions of a grid without id 0, a row is determined by
    the ids of its cells. *)
Lemma restriction_row_inj (row0 r1 r2 : Row) :
  Forall (fun x0 : option Cell => ∀ cl, x0 = Some cl → id cl ≠ 0) row0 →
  Forall2 (fun x0 x : option Cell => x = None ∨ x = x0) row0 r1 →
  Forall2 (fun x0 x : option Cell => x = None ∨ x = x0) row0 r2 →
  cellKey <$> r1 = cellKey <$> r2 → r1 = r2.
Proof.
  intros Hnz H1. revert r2. induction H1 as [|x0 x1 row0 r1 Hx1 H1 IH]; intros r2 H2 Hkeys.
  - by apply Forall2_nil_inv_l in H2 as ->.
  - apply Forall2_cons_inv_l in H2 as (x2 & r2' & Hx2 & H2 & ->).
    apply Forall_cons in Hnz as [Hx0 Hnz].
    rewrite !fmap_cons in Hkeys. injection Hkeys as Hk Hkeys.
    f_equal; [|by apply IH].
    destruct Hx1 as [-> | ->], Hx2 as [-> | ->]; try done.
    + destruct x0 as [cl|]; [|done]. simpl in Hk. by destruct (Hx0 cl).
    + destruct x0 as [cl|]; [|done]. simpl in Hk. by destruct (Hx0 cl).
Qed.

Lemma noZeroId_Forall (g0 : Grid) :
  noZeroId g0 →
  Forall (Forall (fun x0 : option Cell => ∀ cl, x0 = Some cl → id cl ≠ 0)) g0.
Proof.
  intros Hnz. apply Forall_lookup. intros r row Hr.
  apply Forall_lookup. intros c x Hc cl ->.
  apply (Hnz r c cl), cellAt_Some_lookup. eauto.
Qed.

(** Two restrictions of a grid without id 0 that have the same key are the
    same grid. *)
Lemma restriction_key_inj (g0 s1 s2 : Grid) :
  noZeroId g0 → restriction g0 s1 → restriction g0 s2 →
  serializeGrid s1 = serializeGrid s2 → s1 = s2.
Proof.
  intros Hnz%noZeroId_Forall H1 H2 Hkey. unfold serializeGrid in Hkey.
  apply join_inj in Hkey.
  - unfold restriction in *. revert s2 H2 Hkey.
    induction H1 as [|row0 r1 g0 s1 Hr1 H1 IH]; intros s2 H2 Hkey.
    + by apply Forall2_nil_inv_l in H2 as ->.
    + apply Forall2_cons_inv_l in H2 as (r2 & s2' & Hr2 & H2 & ->).
      apply Forall_cons in Hnz as [Hrow0 Hnz].
      rewrite !fmap_cons in Hkey. injection Hkey as Hrow Hkey.
      f_equal; [|by apply IH].
      apply (restriction_row_inj row0); [done..|].
      apply rowKey_inj; [|done].
      rewrite <- (Forall2_length _ _ _ Hr1). by apply Forall2_length in Hr2.
  - rewrite !length_fmap. rewrite <- (Forall2_length _ _ _ H1).
    by apply Forall2_length in H2.
  - apply Forall_fmap, Forall_forall. intros row _. apply rowKey_no_semicolon.
  - apply Forall_fmap, Forall_forall. intros row _. apply rowKey_no_semicolon.
Qed.

Lemma applyMoves_Reach g0 s ms gF :
  Reach g0 s → applyMoves s ms = Some gF → Reach g0 gF.
Proof.
  revert s. induction ms as [|m ms IH]; intros s Hs; simpl.
  - by intros [= <-].
  - destruct (cellAt s m.1 m.2) as [[cl|]| |] eqn:Hcl; try done.
    destruct (canExit s m.1 m.2) as [[|]| |] eqn:Hexit; try done.
    apply IH. by eapply Reach_move.
Qed.

(** A loop over [0 .. n-1] with an invariant that depends on the index. *)
Lemma forEach_seq_invariant {S : Type} (P : nat → S → Prop) n
    (body : S → nat → result S) s s' :
  forEach (seq 0 n) body s = Ok s' →
  P 0%nat s →
  (∀ i s1 s2, (i < n)%nat → P i s1 → body s1 i = Ok s2 → P (Datatypes.S i) s2) →
  P n s'.
Proof.
  revert s'. induction n as [|n IH]; intros s' Hrun H0 Hstep.
  - simpl in Hrun. by injection Hrun as <-.
  - rewrite seq_S, forEach_snoc in Hrun. simpl in Hrun.
    destruct (forEach (seq 0 n) body s) as [s1| |] eqn:Hn; simpl in Hrun; [|done..].
    apply (Hstep n s1 s'); [lia| |done].
    apply IH; [done..|]. intros i s2 s3 Hi. apply Hstep. lia.
Qed.

(** The scan misses no head of the window that can exit. *)
Lemma removableHeads_complete rows cols (g : Grid) moves :
  (rows ≤ length g)%nat →
  removableHeads rows cols g = Ok moves →
  ∀ r c, (r < rows)%nat → (c < cols)%nat → canExit g r c = Ok true → (r, c) ∈ moves.
Proof.
  intros Hrows Hrun. unfold removableHeads in Hrun.
  apply (forEach_seq_invariant
           (fun i (ms : list Move) =>
              ∀ r c, (r < i)%nat → (c < cols)%nat → canExit g r c = Ok true → (r, c) ∈ ms)
           _ _ _ _ Hrun).
  - intros r c Hr. lia.
  - intros i ms1 ms2 Hi Hms1 Hrow.
    assert (Hinner :
      (∀ r c, (r < i)%nat → (c < cols)%nat → canExit g r c = Ok true → (r, c) ∈ ms2) ∧
      (∀ c, (c < cols)%nat → canExit g i c = Ok true → (i, c) ∈ ms2)).
    { apply (forEach_seq_invariant
               (fun j (ms : list Move) =>
                  (∀ r c, (r < i)%nat → (c < cols)%nat → canExit g r c = Ok true →
                          (r, c) ∈ ms) ∧
                  (∀ c, (c < j)%nat → canExit g i c = Ok true → (i, c) ∈ ms))
               _ _ _ _ Hrow); [split; [done|intros c Hc; lia]|].
      intros j ms3 ms4 Hj [Hold Hnew] Hbody.
      destruct (removableAt_returns g i ms3 j) as (b & Hb & Hret); [lia|].
      rewrite Hret in Hbody. injection Hbody as <-.
      assert (Hmono : ∀ m, m ∈ ms3 → m ∈ (if b then ms3 ++ [(i, j)] else ms3)).
      { intros m Hm. destruct b; [apply elem_of_app; by left|done]. }
      split.
      - intros r c Hr Hc Hexit. by apply Hmono, Hold.
      - intros c Hc Hexit. destruct (decide (c = j)) as [->|Hne].
        + rewrite Hexit in Hb. injection Hb as <-.
          apply elem_of_app. right. by apply list_elem_of_singleton.
        + apply Hmono, Hnew; [lia|done]. }
    destruct Hinner as [Hold Hnew].
    intros r c Hr Hc Hexit. destruct (decide (r = i)) as [->|Hne].
    + by apply Hnew.
    + apply Hold; [lia|done..].
Qed.

(** One move of the expansion, on a matrix: the key of the successor is
    visited afterwards, and the successor was queued if its key was new. *)
Lemma expandMove_successor (g0 : Grid) cols node vq m vq' :
  rect (length g0) cols (grid node) →
  canExit (grid node) m.1 m.2 = Ok true →
  expandMove (length g0) cols node vq m = Ok vq' →
  ∃ cl, cellAt (grid node) m.1 m.2 = Ok (Some cl) ∧
    serializeGrid (removePiece (grid node) (id cl)) ∈ vq'.1 ∧
    (vq' = vq ∨
     vq' = ({[serializeGrid (removePiece (grid node) (id cl))]} ∪ vq.1,
            vq.2 ++ [mkNode (removePiece (grid node) (id cl)) (moveSeq node ++ [m])])).
Proof.
  intros Hrect Hexit. destruct (canExit_true_head _ _ _ Hexit) as (cl & Hcl & _).
  unfold expandMove. rewrite Hcl. simpl. rewrite (removeId_rect _ _ _ _ Hrect). simpl.
  case_decide as Hin; intros [= <-]; exists cl; (split; [done|]).
  - split; [done|by left].
  - split; [|by right]. simpl. apply elem_of_union. left. by apply elem_of_singleton.
Qed.

(** The expansion of a node: the visited set grows, every new key comes
    with a reachable node pushed on the queue, and the keys of all the
    successors are visited. *)
Lemma expand_loop (g0 : Grid) cols node moves vq vq' :
  rect (length g0) cols (grid node) →
  Reach g0 (grid node) →
  Forall (fun m => canExit (grid node) m.1 m.2 = Ok true) moves →
  forEach moves (expandMove (length g0) cols node) vq = Ok vq' →
  vq.1 ⊆ vq'.1 ∧
  (∃ new, vq'.2 = vq.2 ++ new ∧
     Forall (fun n => Reach g0 (grid n)) new ∧
     ∀ k, k ∈ vq'.1 → k ∈ vq.1 ∨ ∃ n, n ∈ new ∧ serializeGrid (grid n) = k) ∧
  (∀ m cl, m ∈ moves → cellAt (grid node) m.1 m.2 = Ok (Some cl) →
     serializeGrid (removePiece (grid node) (id cl)) ∈ vq'.1).
Proof.
  intros Hrect Hreach. revert vq.
  induction moves as [|m moves IH]; intros vq Hmoves Hrun; simpl in Hrun.
  - injection Hrun as <-. split; [done|]. split.
    + exists []. rewrite app_nil_r. split; [done|]. split; [constructor|]. by left.
    + intros m cl Hm. by apply elem_of_nil in Hm.
  - apply Forall_cons in Hmoves as [Hm Hmoves].
    destruct (expandMove (length g0) cols node vq m) as [vq1| |] eqn:Hstep;
      simpl in Hrun; [|done..].
    destruct (expandMove_successor _ _ _ _ _ _ Hrect Hm Hstep) as (cl & Hcl & Hkey & Hvq1).
    destruct (IH vq1 Hmoves Hrun) as (Hsub & (new & Hq & Hnew & Hkeys) & Hsucc).
    assert (Hstep1 : vq.1 ⊆ vq1.1 ∧
              ∃ new1, vq1.2 = vq.2 ++ new1 ∧
                Forall (fun n => Reach g0 (grid n)) new1 ∧
                ∀ k, k ∈ vq1.1 → k ∈ vq.1 ∨ ∃ n, n ∈ new1 ∧ serializeGrid (grid n) = k).
    { destruct Hvq1 as [->| ->].
      - split; [done|]. exists []. rewrite app_nil_r. split; [done|].
        split; [constructor|]. by left.
      - simpl. split; [apply union_subseteq_r|]. eexists. split; [done|]. split.
        + apply Forall_singleton. simpl. by eapply Reach_move.
        + intros k [Hk%elem_of_singleton|Hk]%elem_of_union; [|by left].
          right. eexists. split; [by apply list_elem_of_singleton|]. by rewrite Hk. }
    destruct Hstep1 as (Hsub1 & new1 & Hq1 & Hnew1 & Hkeys1).
    split; [by etrans|]. split.
    + exists (new1 ++ new). split; [by rewrite Hq, Hq1, app_assoc|].
      split; [by apply Forall_app|].
      intros k Hk. destruct (Hkeys k Hk) as [Hk1|(n & Hn & Hkn)].
      * destruct (Hkeys1 k Hk1) as [?|(n & Hn & Hkn)]; [by left|].
        right. exists n. split; [|done]. apply elem_of_app. by left.
      * right. exists n. split; [|done]. apply elem_of_app. by right.
    + intros m' cl' [->|Hm']%elem_of_cons Hcl'.
      * rewrite Hcl in Hcl'. injection Hcl' as <-. by apply Hsub.
      * by eapply Hsucc.
Qed.

(** When the queue is empty every reachable grid has been expanded: none
    is empty. *)
Lemma bfsInv_closed (g0 : Grid) s t :
  bfsInv g0 s → queue s = [] → Reach g0 t →
  serializeGrid t ∈ visited s ∧ allEmpty t = false.
Proof.
  intros (_ & Hstart & Hexp) Hq.
  assert (Hdone : ∀ t, Reach g0 t → serializeGrid t ∈ visited s →
            allEmpty t = false ∧
            ∀ r c cl, cellAt t r c = Ok (Some cl) → canExit t r c = Ok true →
              serializeGrid (removePiece t (id cl)) ∈ visited s).
  { intros t' Ht' Hk. destruct (Hexp t' Ht' Hk) as [(n & Hn & _)|?]; [|done].
    rewrite Hq in Hn. by apply elem_of_nil in Hn. }
  induction 1 as [|t r c cl Ht IH Hcl Hexit].
  - split; [done|]. by apply Hdone; [constructor|].
  - destruct IH as [Hk _].
    assert (Hk' : serializeGrid (removePiece t (id cl)) ∈ visited s).
    { by apply (proj2 (Hdone t Ht Hk) r c cl). }
    split; [done|]. apply Hdone; [by eapply Reach_move|done].
Qed.

Lemma searchLoop_complete (g0 : Grid) cols maxStates fuel s n :
  rect (length g0) cols g0 → noZeroId g0 →
  bfsInv g0 s →
  searchLoop fuel (length g0) cols maxStates s = Ok (None, n) →
  n <= maxStates →
  ∀ t, Reach g0 t → allEmpty t = false.
Proof.
  intros Hrect Hnz. revert s. induction fuel as [|fuel IH]; intros s Hinv Hrun Hn.
  - simpl in Hrun. destruct (queue s) eqn:Hq; [|done].
    intros t Ht. by apply (bfsInv_closed g0 s t).
  - simpl in Hrun. destruct (queue s) as [|node rest] eqn:Hq.
    { intros t Ht. by apply (bfsInv_closed g0 s t). }
    destruct (maxStates <? states s + 1) eqn:Ecap.
    { apply Z.ltb_lt in Ecap. injection Hrun as <-. lia. }
    destruct (allEmpty (grid node)) eqn:Eempty; [done|].
    destruct Hinv as (Hreach & Hstart & Hexp). rewrite Hq in Hreach.
    apply Forall_cons in Hreach as [Hnode Hrest].
    assert (Hrect0 : rect (length g0) cols (grid node)).
    { eapply restriction_rect; [done|]. by apply Reach_restriction. }
    destruct (removableHeads_returns (length g0) cols (grid node))
      as (moves & Hmoves & Hexits).
    { destruct Hrect0 as [-> _]. done. }
    rewrite Hmoves in Hrun. simpl in Hrun.
    destruct (forEach moves _ (visited s, rest)) as [vq| |] eqn:Hloop;
      simpl in Hrun; [|done..].
    destruct (expand_loop g0 cols node moves _ _ Hrect0 Hnode Hexits Hloop)
      as (Hsub & (new & Hqueue & Hnew & Hkeys) & Hsucc).
    simpl in Hsub, Hqueue, Hkeys.
    apply (IH (mkSearch vq.2 vq.1 (states s + 1))); [|done|done].
    split; [|split]; simpl.
    + rewrite Hqueue. by apply Forall_app.
    + by apply Hsub.
    + intros t Ht Hk. destruct (Hkeys _ Hk) as [Hold|(n' & Hn' & Hkn')].
      * destruct (Hexp t Ht Hold) as [(n' & Hn' & Hgrid)|[Hne Hsuccs]].
        -- rewrite Hq in Hn'. apply elem_of_cons in Hn' as [->|Hn'].
           ++ right. subst t. split; [done|].
              intros r c cl Hcl Hexit. apply (Hsucc (r, c) cl); [|done].
              apply cellAt_Some_lookup in Hcl as Hlook.
              destruct Hlook as (row & Hr & Hc).
              destruct (rect_insideWindow _ _ _ Hrect0 r c row cl Hr Hc) as [Hr' Hc'].
              eapply removableHeads_complete; [|done..].
              destruct Hrect0 as [-> _]. done.
           ++ left. exists n'. split; [|done]. rewrite Hqueue.
              apply elem_of_app. by left.
        -- right. split; [done|]. intros r c cl Hcl Hexit.
           apply Hsub. by eapply Hsuccs.
      * left. exists n'. split; [rewrite Hqueue; apply elem_of_app; by right|].
        apply (restriction_key_inj g0); [done| |by apply Reach_restriction|done].
        apply Reach_restriction. by apply (proj1 (Forall_forall _ _) Hnew).
Qed.

Lemma solveRun_complete (g : Grid) cols maxStates n :
  rect (length g) cols g → noZeroId g →
  solveRun g maxStates = Ok (None, n) →
  n <= maxStates →
  ∀ ms gF, applyMoves g ms = Some gF → allEmpty gF = false.
Proof.
  intros Hrect Hnz Hrun Hn ms gF Hplay.
  destruct g as [|row0 g']; [done|].
  rewrite solveRun_unfold in Hrun.
  assert (Hcols : length row0 = cols) by (by apply (proj2 Hrect 0%nat)).
  rewrite Hcols in Hrun.
  apply (searchLoop_complete (row0 :: g') cols maxStates _ _ n Hrect Hnz) with (t := gF)
    in Hrun; [done| |done|].
  - split; [|split]; simpl.
    + apply Forall_singleton. constructor.
    + by apply elem_of_singleton.
    + intros t Ht Hk%elem_of_singleton. left. eexists. split; [by left|]. simpl.
      symmetry. apply (restriction_key_inj (row0 :: g')); [done| |apply restriction_refl|done].
      by apply Reach_restriction.
  - eapply applyMoves_Reach; [constructor|done].
Qed.

(** X5.  The search is complete within its budget.  On a matrix without
    the piece id 0, if the solver answers not-found after dequeuing at most
    [maxStates] nodes (the budget was not used up), then the grid cannot be
    solved: no sequence of legal moves leads to the empty grid. *)
Theorem findSolutionLimited_complete (g : Grid) (cols : nat) (maxStates n : Z) :
  rect (length g) cols g →
  noZeroId g →
  solveRun g maxStates = Ok (None, n) →
  n <= maxStates →
  ¬ ∃ ms gF, applyMoves g ms = Some gF ∧ allEmpty gF = true.
Proof.
  intros Hrect Hnz Hrun Hn (ms & gF & Hplay & Hempty).
  rewrite (solveRun_complete g cols maxStates n Hrect Hnz Hrun Hn ms gF Hplay) in Hempty.
  done.
Qed.

Lemma findSolutionLimited_complete_witness :
  ¬ ∃ ms gF, applyMoves (facingPair 1 2 [] []) ms = Some gF ∧ allEmpty gF = true.
Proof.
  apply (findSolutionLimited_complete (facingPair 1 2 [] []) 2 20000 1).
  - split; [reflexivity|]. intros [|r] row; simpl; [by intros [= <-]|done].
  - intros r c cl Hcl.
    destruct r as [|r]; [|done]. destruct c as [|[|c]]; [| |done].
    + injection Hcl as <-. done.
    + injection Hcl as <-. done.
  - vm_compute. reflexivity.
  - lia.
Defined.

(** ** Playing never leads to a dead end *)

Lemma clearId_comm p q (x : option Cell) : clearId p (clearId q x) = clearId q (clearId p x).
Proof.
  destruct x as [cl|]; [|done]. simpl.
  destruct (id cl =? q) eqn:Eq, (id cl =? p) eqn:Ep; simpl; rewrite ?Eq, ?Ep; done.
Qed.

Lemma removePiece_comm (g : Grid) p q :
  removePiece (removePiece g p) q = removePiece (removePiece g q) p.
Proof.
  unfold removePiece. rewrite <- !list_fmap_compose. apply list_fmap_ext.
  intros _ row _. simpl. rewrite <- !list_fmap_compose. apply list_fmap_ext.
  intros _ x _. simpl. apply clearId_comm.
Qed.

Lemma removePiece_same_id (g : Grid) (cl cl' : Cell) :
  id cl = id cl' → removePiece g (id cl) = removePiece g (id cl').
Proof. by intros ->. Qed.

(** A solution of [g] gives a solution of the grid after any legal move:
    the move's piece is skipped where the solution removes it. *)
Lemma solvable_after_move (ms : list Move) (g gF : Grid) r c cl :
  applyMoves g ms = Some gF → allEmpty gF = true →
  cellAt g r c = Ok (Some cl) → canExit g r c = Ok true →
  ∃ ms' gF', applyMoves (removePiece g (id cl)) ms' = Some gF' ∧
    allEmpty gF' = true ∧ S (length ms') = length ms.
Proof.
  revert g. induction ms as [|m ms IH]; intros g Hplay Hempty Hcl Hexit.
  - injection Hplay as ->. apply cellAt_Some_lookup in Hcl as (row & Hr & Hc).
    by pose proof (allEmpty_lookup _ _ _ _ _ Hempty Hr Hc).
  - simpl in Hplay.
    destruct (cellAt g m.1 m.2) as [[cl1|]| |] eqn:Hcl1; try done.
    destruct (canExit g m.1 m.2) as [[|]| |] eqn:Hexit1; try done.
    destruct (decide (id cl1 = id cl)) as [Heq|Hne].
    + exists ms, gF. rewrite <- Heq. done.
    + destruct (IH (removePiece g (id cl1))) as (ms' & gF' & Hplay' & Hempty' & Hlen);
        [done|done| |by eapply canExit_removePiece_aux|].
      { apply cellAt_removePiece_Some. split; [done|]. by intros ?. }
      exists (m :: ms'), gF'. simpl.
      assert (Hcl1' : cellAt (removePiece g (id cl)) m.1 m.2 = Ok (Some cl1)).
      { by apply cellAt_removePiece_Some. }
      rewrite Hcl1', (canExit_removePiece_aux g m.1 m.2 cl1 (id cl) Hexit1 Hcl1 Hne).
      rewrite removePiece_comm. by rewrite Hlen.
Qed.

(** X6.  The game has no dead end.  If a grid can be solved and a legal
    move is played on it (a head for which [canExit] holds is removed with
    its piece), the grid that results can be solved too, in one move less. *)
Theorem legal_move_keeps_solvable (g gF : Grid) (ms : list Move) (r c : nat) (cl : Cell) :
  applyMoves g ms = Some gF → allEmpty gF = true →
  cellAt g r c = Ok (Some cl) → canExit g r c = Ok true →
  ∃ ms' gF', applyMoves (removePiece g (id cl)) ms' = Some gF' ∧
    allEmpty gF' = true ∧ S (length ms') = length ms.
Proof. apply solvable_after_move. Qed.

Lemma legal_move_keeps_solvable_witness :
  ∃ ms' gF', applyMoves (removePiece boardGenerated 2) ms' = Some gF' ∧
    allEmpty gF' = true ∧ S (length ms') = 2%nat.
Proof.
  apply (legal_move_keeps_solvable boardGenerated
           [[None; None; None]; [None; None; None]] [(0, 1); (1, 1)]%nat 1 1
           (mkCell 2 R 2 true)); reflexivity.
Defined.

(** ** The tests of the generator before it runs the solver *)

Lemma allEmpty_hasArrow (g : Grid) : allEmpty g = negb (hasArrow g).
Proof.
  unfold allEmpty, hasArrow. induction g as [|row g IH]; [done|].
  cbn [forallb existsb]. rewrite IH, negb_orb. f_equal.
  induction row as [|x row IHr]; [done|].
  cbn [forallb existsb]. rewrite IHr, negb_orb. f_equal. by destruct x.
Qed.

Lemma someM_false {A : Type} (f : nat → A → result bool) i (l : list A) j a :
  someM f i l = Ok false → l !! j = Some a → f (i + j)%nat a = Ok false.
Proof.
  revert i j. induction l as [|x l IH]; intros i j Hsome Hj; [done|].
  simpl in Hsome. destruct (f i x) as [[|]| |] eqn:Hx; simpl in Hsome; try done.
  destruct j as [|j].
  - injection Hj as <-. by rewrite Nat.add_0_r.
  - replace (i + S j)%nat with (S i + j)%nat by lia. by apply IH.
Qed.

Lemma someM_true {A : Type} (f : nat → A → result bool) i (l : list A) :
  someM f i l = Ok true → ∃ j a, l !! j = Some a ∧ f (i + j)%nat a = Ok true.
Proof.
  revert i. induction l as [|x l IH]; intros i Hsome; [done|].
  simpl in Hsome. destruct (f i x) as [[|]| |] eqn:Hx; simpl in Hsome; try done.
  - exists 0%nat, x. by rewrite Nat.add_0_r.
  - destruct (IH _ Hsome) as (j & a & Hj & Hf). exists (S j), a.
    split; [done|]. by replace (i + S j)%nat with (S i + j)%nat by lia.
Qed.

Lemma hasExit_false (g : Grid) r c : hasExit g = Ok false → canExit g r c ≠ Ok true.
Proof.
  intros Hnone Hexit.
  destruct (canExit_true_head _ _ _ Hexit) as (cl & Hcl & Hhead).
  apply cellAt_Some_lookup in Hcl as (row & Hr & Hc).
  pose proof (someM_false _ _ _ _ _ Hnone Hr) as Hrow. simpl in Hrow.
  pose proof (someM_false _ _ _ _ _ Hrow Hc) as Hcell. simpl in Hcell.
  rewrite Hhead in Hcell. congruence.
Qed.

Lemma hasExit_true (g : Grid) : hasExit g = Ok true → ∃ r c, canExit g r c = Ok true.
Proof.
  intros Hsome. apply someM_true in Hsome as (r & row & Hr & Hrow).
  apply someM_true in Hrow as (c & cell & Hc & Hcell). simpl in Hcell.
  exists r, c. destruct cell as [cl|]; [|done]. by destruct (head cl).
Qed.

(** A grid with a segment but no head that can leave: the search dequeues
    the start node, finds no move, and ends. *)
Lemma solver_stuck (g : Grid) maxStates :
  allEmpty g = false →
  (∀ r c, canExit g r c ≠ Ok true) →
  findSolutionLimited g maxStates = Ok None.
Proof.
  intros Hfull Hnone. destruct g as [|row0 g']; [done|].
  apply findSolutionLimited_solveRun. exists 1.
  rewrite solveRun_unfold. set (g := row0 :: g') in *.
  unfold searchLoop. simpl queue. simpl states.
  destruct (maxStates <? 0 + 1); [done|]. simpl grid.
  rewrite Hfull. fold searchLoop.
  rewrite (removableHeads_none _ _ g); [|done|done].
  simpl. by destruct (Z.to_nat maxStates).
Qed.

Lemma stuck_unsolvable (g : Grid) :
  allEmpty g = false →
  (∀ r c, canExit g r c ≠ Ok true) →
  ¬ ∃ ms gF, applyMoves g ms = Some gF ∧ allEmpty gF = true.
Proof.
  intros Hfull Hnone (ms & gF & Hplay & Hempty).
  destruct ms as [|m ms]; simpl in Hplay.
  - injection Hplay as ->. congruence.
  - destruct (cellAt g m.1 m.2) as [[cl|]| |]; try done.
    destruct (canExit g m.1 m.2) as [[|]| |] eqn:Hexit; try done.
    by destruct (Hnone _ _ Hexit).
Qed.

(** X7.  The generator rejects without running the solver only what the
    solver would reject.  A candidate with a segment ([hasArrow]) in which
    no head can leave ([hasImmediateExit] false) cannot be solved, and
    [findSolutionLimited] answers not-found on it whatever its cap. *)
Theorem precheck_sound (g : Grid) :
  hasArrow g = true →
  hasExit g = Ok false →
  (∀ maxStates, findSolutionLimited g maxStates = Ok None) ∧
  ¬ ∃ ms gF, applyMoves g ms = Some gF ∧ allEmpty gF = true.
Proof.
  intros Harrow Hexit.
  assert (Hfull : allEmpty g = false) by (by rewrite allEmpty_hasArrow, Harrow).
  split.
  - intros maxStates. apply solver_stuck; [done|]. intros r c. by apply hasExit_false.
  - apply stuck_unsolvable; [done|]. intros r c. by apply hasExit_false.
Qed.

Lemma precheck_sound_witness :
  (∀ maxStates, findSolutionLimited (facingPair 1 2 [None] [[None; None; None]]) maxStates
     = Ok None) ∧
  ¬ ∃ ms gF, applyMoves (facingPair 1 2 [None] [[None; None; None]]) ms = Some gF ∧
      allEmpty gF = true.
Proof.
  apply (precheck_sound (facingPair 1 2 [None] [[None; None; None]])); reflexivity.
Defined.

(** ** The levels the generator returns *)

Lemma cellAt_setCell_Some (g : Grid) r c v r' c' cl :
  cellAt (setCell g r c v) r' c' = Ok (Some cl) →
  v = Some cl ∨ cellAt g r' c' = Ok (Some cl).
Proof.
  unfold setCell. destruct (g !! r) as [row|] eqn:Hrow; [|by right].
  unfold cellAt. rewrite list_lookup_insert. case_decide as Hd; [|by right].
  destruct Hd as [<- _]. rewrite list_lookup_insert, Hrow.
  case_decide; [|by right]. intros [= ->]. by left.
Qed.

Lemma writePiece_ids (g : Grid) pid d ln ps r c cl :
  cellAt (writePiece g pid d ln ps) r c = Ok (Some cl) →
  cellAt g r c = Ok (Some cl) ∨ id cl = pid.
Proof.
  induction ps as [|p ps IH] using rev_ind; [by left|].
  rewrite writePiece_snoc. intros [[= <-]|Hold]%cellAt_setCell_Some; [by right|].
  by apply IH.
Qed.

(** One cell of the scan: the id counter does not go down and no id below
    the first counter is written. *)
Lemma placeAt_ids lo rows cols density maxLen rnd r st c st' :
  lo <= idCounter st → idsFrom lo (genGrid st) →
  placeAt rows cols density maxLen rnd r st c = Ok st' →
  lo <= idCounter st' ∧ idsFrom lo (genGrid st').
Proof.
  intros Hlo Hids. unfold placeAt.
  destruct (genGrid st !! r) as [row|]; [|done].
  destruct (row !! c) as [[cl|]|]; [by intros [= <-]| |by intros [= <-]].
  destruct (Qle_bool density _); [by intros [= <-]|].
  destruct (if 0 <=? _ then _ else _) as [d|]; [|done].
  rewrite (surjective_pairing (DIR_VECTORS d)).
  destruct (forEach _ _ (Some [])) as [[ps|]| |]; simpl; try done.
  - intros [= <-]. simpl. split; [lia|].
    intros r' c' cl Hcl. apply writePiece_ids in Hcl as [Hold| ->]; [|done].
    by eapply Hids.
  - by intros [= <-].
Qed.

Lemma scanGrid_ids rows cols density maxLen rnd idc n st :
  scanGrid rows cols density maxLen rnd idc n = Ok st →
  idc <= idCounter st ∧ idsFrom idc (genGrid st).
Proof.
  unfold scanGrid. intros Hscan.
  apply (forEach_Ok_invariant
           (fun st => idc <= idCounter st ∧ idsFrom idc (genGrid st)) _ _ _ _ Hscan).
  - split; [simpl; lia|]. intros r c cl Hcl. by destruct (cellAt_emptyGrid rows cols r c cl).
  - intros st1 r st2 _ Hst1 Hrow.
    apply (forEach_Ok_invariant
             (fun st => idc <= idCounter st ∧ idsFrom idc (genGrid st)) _ _ _ _ Hrow);
      [done|].
    intros st3 c st4 _ [? ?]. by apply placeAt_ids.
Qed.

(** A candidate the attempts accept: a matrix of the size asked for, with
    valid pieces and ids from 1 on, that the solver has solved. *)
Lemma attempts_level n rows cols density maxLen rnd idc drawn g :
  1 <= idc →
  attempts n rows cols density maxLen rnd idc drawn = Ok (Some g) →
  rect rows cols g ∧ idsFrom 1 g ∧ solvable g.
Proof.
  revert idc drawn. induction n as [|n IH]; intros idc drawn Hidc; simpl; [done|].
  destruct (scanGrid rows cols density maxLen rnd idc drawn) as [st| |] eqn:Hscan;
    simpl; [|done..].
  apply scanGrid_ids in Hscan as Hids. destruct Hids as [Hcount Hids].
  apply scanGrid_inv in Hscan as (Hrect & _ & _).
  assert (Hnext : 1 <= idCounter st) by lia.
  destruct (if hasArrow (genGrid st) then _ else _) as [b| |]; simpl; [|done..].
  destruct (hasArrow (genGrid st) && b); [|by apply IH].
  destruct (findSolutionLimited (genGrid st) 20000) as [[sol|]| |] eqn:Hsol;
    simpl; [|by apply IH|done..].
  intros [= <-]. split; [done|]. split.
  - intros r c cl Hcl. apply Hids in Hcl. lia.
  - destruct (solution_replays _ _ _ Hsol) as (gF & Hplay & Hempty). by exists sol, gF.
Qed.

(** A head whose grid holds no other piece can leave. *)
Lemma canExit_lonely (g : Grid) r c cl (row0 : Row) :
  cellAt g r c = Ok (Some cl) → head cl = true →
  g !! 0%nat = Some row0 → (c < length row0)%nat →
  (∀ r' c' o, cellAt g r' c' = Ok (Some o) → id o = id cl) →
  canExit g r c = Ok true.
Proof.
  intros Hc Hh H0 Hcol Hlone. apply cellAt_lt in Hc as Hr.
  rewrite (canExit_unfold _ _ _ _ _ Hc Hh H0).
  set (dr := (DIR_VECTORS (dir cl)).1). set (dc := (DIR_VECTORS (dir cl)).2).
  assert (Hprev : inBounds (Z.of_nat (length g)) (Z.of_nat (length row0))
                    (Z.of_nat r + dr - dr) (Z.of_nat c + dc - dc) = true).
  { apply inBounds_spec. lia. }
  assert (Hfuel : edgeDist (dir cl) (Z.of_nat (length g)) (Z.of_nat (length row0))
                    (Z.of_nat r + dr) (Z.of_nat c + dc)
                  <= Z.of_nat (length g + length row0)).
  { subst dr dc. unfold edgeDist. destruct (dir cl); simpl; lia. }
  subst dr dc.
  apply (exitWalk_true_iff g _ (id cl) (dir cl) _ _ _ Hprev Hfuel).
  intros j Hj [Hin1 Hin2]%inBounds_spec o Ho.
  rewrite content_unfold in Ho by lia.
  set (rr := Z.to_nat (Z.of_nat r + (DIR_VECTORS (dir cl)).1 + j * (DIR_VECTORS (dir cl)).1)) in *.
  set (cc := Z.to_nat (Z.of_nat c + (DIR_VECTORS (dir cl)).2 + j * (DIR_VECTORS (dir cl)).2)) in *.
  apply (Hlone rr cc). unfold cellAt.
  destruct (g !! rr) as [row|]; [|done]. simpl in Ho. by rewrite Ho.
Qed.

Lemma rect_emptyGrid rows cols : rect rows cols (emptyGrid rows cols).
Proof. apply (genInv_emptyGrid rows cols 0 0). Qed.

Lemma rect_fallbackGrid rows cols : rect rows cols (fallbackGrid rows cols).
Proof.
  unfold fallbackGrid. destruct (_ && _); [|apply rect_emptyGrid].
  destruct (1 <? cols)%nat; repeat apply rect_setCell; apply rect_emptyGrid.
Qed.

Lemma fallbackGrid_ids rows cols r c cl :
  cellAt (fallbackGrid rows cols) r c = Ok (Some cl) → id cl = 1.
Proof.
  unfold fallbackGrid. destruct (_ && _).
  - destruct (1 <? cols)%nat.
    + intros [[= <-]|[[= <-]|Hcl]%cellAt_setCell_Some]%cellAt_setCell_Some; [done..|].
      by destruct (cellAt_emptyGrid rows cols r c cl).
    + intros [[= <-]|Hcl]%cellAt_setCell_Some; [done|].
      by destruct (cellAt_emptyGrid rows cols r c cl).
  - intros Hcl. by destruct (cellAt_emptyGrid rows cols r c cl).
Qed.

Lemma allEmpty_emptyGrid rows cols : allEmpty (emptyGrid rows cols) = true.
Proof.
  unfold allEmpty, emptyGrid. apply forallb_forall. intros row Hrow%list_elem_of_In.
  apply elem_of_replicate in Hrow as [-> _].
  apply forallb_forall. intros x Hx%list_elem_of_In.
  by apply elem_of_replicate in Hx as [-> _].
Qed.

Lemma allEmpty_pieceIds (g : Grid) : pieceIds g = ∅ → allEmpty g = true.
Proof.
  intros Hnone. unfold allEmpty. apply forallb_forall. intros row Hrow%list_elem_of_In.
  apply forallb_forall. intros x Hx%list_elem_of_In. apply bool_decide_eq_true.
  destruct x as [cl|]; [|done].
  apply list_elem_of_lookup in Hrow as [r Hr]. apply list_elem_of_lookup in Hx as [c Hc].
  assert (Hin : id cl ∈ pieceIds g) by (apply elem_of_pieceIds; by exists r, c, row, cl).
  rewrite Hnone in Hin. by apply elem_of_empty in Hin.
Qed.

(** The fallback can be played: its piece, when there is one, leaves at
    once. *)
Lemma fallbackGrid_solvable rows cols : solvable (fallbackGrid rows cols).
Proof.
  destruct (decide (rows = 0 ∨ cols ≤ 1)%nat) as [Hnarrow|Hwide].
  - rewrite (fallbackGrid_narrow _ _ Hnarrow). exists [], (emptyGrid rows cols).
    split; [done|apply allEmpty_emptyGrid].
  - destruct rows as [|rows]; [lia|]. destruct cols as [|[|cols]]; [lia..|].
    set (g := fallbackGrid (S rows) (S (S cols))).
    assert (Hcl : cellAt g 0 0 = Ok (Some (mkCell 1 R 1 true))).
    { subst g. by rewrite fallbackGrid_two_columns. }
    assert (Hexit : canExit g 0 0 = Ok true).
    { eapply (canExit_lonely g 0 0 _ _ Hcl); [done| | |].
      - subst g. by rewrite fallbackGrid_two_columns.
      - simpl. lia.
      - intros r' c' o Ho. by apply fallbackGrid_ids in Ho. }
    exists [(0, 0)%nat], (removePiece g 1). cbn [applyMoves fst snd]. rewrite Hcl, Hexit.
    cbn [id].
    split; [done|]. apply allEmpty_pieceIds. rewrite pieceIds_removePiece.
    apply set_eq. intros i. split; [|by intros ?%elem_of_empty].
    intros [Hi Hne]%elem_of_difference. destruct Hne. apply elem_of_singleton.
    apply elem_of_pieceIds in Hi as (r & c & row & cl & Hr & Hc & <-).
    apply (fallbackGrid_ids (S rows) (S (S cols)) r c). apply cellAt_Some_lookup. eauto.
Qed.

(** X8.  Every grid the generator returns, accepted candidate or
    fallback, is a matrix of the size asked for, [rows] rows of [cols]
    cells, and its piece ids are at least 1 (so that no piece has the id 0
    that [serializeGrid] prints for an empty cell). *)
Theorem generate_matrix (rows cols : nat) (density maxLen : Q) (maxAttempts : nat)
    (rnd : nat → Q) (g : Grid) :
  generateRandomLevelAsync rows cols density maxLen maxAttempts rnd = Ok g →
  rect rows cols g ∧ idsFrom 1 g ∧ noZeroId g.
Proof.
  unfold generateRandomLevelAsync.
  destruct (attempts _ _ _ _ _ _ _ _) as [[g'|]| |] eqn:Hatt; simpl; [| |done..];
    intros [= <-].
  - destruct (attempts_level _ _ _ _ _ _ _ _ _ (Z.le_refl 1) Hatt) as (Hrect & Hids & _).
    split; [done|]. split; [done|]. intros r c cl Hcl. apply Hids in Hcl. lia.
  - split; [apply rect_fallbackGrid|]. split.
    + intros r c cl Hcl. apply fallbackGrid_ids in Hcl. lia.
    + intros r c cl Hcl. apply fallbackGrid_ids in Hcl. lia.
Qed.

Lemma generate_matrix_witness :
  rect 2 3 boardGenerated ∧ idsFrom 1 boardGenerated ∧ noZeroId boardGenerated.
Proof.
  apply (generate_matrix 2 3 (1 # 2) 2 5 rndCycle boardGenerated).
  vm_compute. reflexivity.
Defined.

(** X9.  Every grid the generator returns can be solved: a sequence of
    legal moves empties it.  (An accepted candidate has been solved by
    [findSolutionLimited]; the piece of the fallback leaves at once.) *)
Theorem generate_solvable (rows cols : nat) (density maxLen : Q) (maxAttempts : nat)
    (rnd : nat → Q) (g : Grid) :
  generateRandomLevelAsync rows cols density maxLen maxAttempts rnd = Ok g →
  solvable g.
Proof.
  unfold generateRandomLevelAsync.
  destruct (attempts _ _ _ _ _ _ _ _) as [[g'|]| |] eqn:Hatt; simpl; [| |done..];
    intros [= <-].
  - by destruct (attempts_level _ _ _ _ _ _ _ _ _ (Z.le_refl 1) Hatt) as (_ & _ & ?).
  - apply fallbackGrid_solvable.
Qed.

Lemma generate_solvable_witness : solvable (fallbackGrid 2 2).
Proof.
  apply (generate_solvable 2 2 0 1 3 rndZero (fallbackGrid 2 2)).
  vm_compute. reflexivity.
Defined.

(** ** The generator returns *)

Lemma Qfloor_unit_scale (q : Q) (n : Z) :
  (0 <= q)%Q → (q < 1)%Q → 0 < n → 0 <= Qfloor (q * inject_Z n)%Q < n.
Proof.
  intros H0 H1 Hn.
  assert (Hn' : (0 < inject_Z n)%Q) by (rewrite Zlt_Qlt in Hn; exact Hn).
  split.
  - rewrite <- (Qfloor_Z 0). apply Qfloor_resp_le. apply Qmult_le_0_compat; [exact H0|].
    apply Qlt_le_weak. exact Hn'.
  - apply Z.lt_nge. intros Hge. rewrite Zle_Qle in Hge.
    pose proof (Qfloor_le (q * inject_Z n)) as Hfl.
    assert (Hlt : (q * inject_Z n < inject_Z n)%Q).
    { rewrite <- (Qmult_1_l (inject_Z n)) at 2. apply Qmult_lt_compat_r; assumption. }
    apply (Qlt_irrefl (inject_Z n)). eapply Qle_lt_trans; [|eassumption].
    eapply Qle_trans; eassumption.
Qed.

(** The loop that collects positions reads only rows that exist. *)
Lemma tryPosition_returns (g : Grid) rows cols r c dr dc (l : list Z) acc :
  rect rows cols g →
  ∃ acc', forEach l (tryPosition g rows cols r c dr dc) acc = Ok acc'.
Proof.
  intros [Hlen _]. revert acc. induction l as [|k l IH]; intros acc; simpl; [eauto|].
  assert (Hbody : ∃ acc1, tryPosition g rows cols r c dr dc acc k = Ok acc1).
  { unfold tryPosition. destruct acc as [ps|]; [|eauto].
    destruct (_ || _) eqn:Eb; [eauto|].
    apply orb_false_iff in Eb as [Eb _]. apply orb_false_iff in Eb as [Eb _].
    apply orb_false_iff in Eb as [Eb1 Eb2].
    apply Z.ltb_ge in Eb1. apply Z.leb_gt in Eb2.
    destruct (g !! _) as [row|] eqn:Hrow.
    - destruct (row !! _) as [[cl|]|]; eauto.
    - apply lookup_ge_None in Hrow. lia. }
  destruct Hbody as [acc1 ->]. simpl. apply IH.
Qed.

Lemma placeAt_returns rows cols density maxLen rnd r st c :
  (∀ i, (0 <= rnd i)%Q ∧ (rnd i < 1)%Q) →
  genInv rows cols st → (r < rows)%nat →
  ∃ st', placeAt rows cols density maxLen rnd r st c = Ok st'.
Proof.
  intros Hrnd (Hrect & _ & _) Hr. unfold placeAt.
  destruct (genGrid st !! r) as [row|] eqn:Hrow.
  2:{ apply lookup_ge_None in Hrow. destruct Hrect as [Hlen _]. lia. }
  destruct (row !! c) as [[cl|]|]; [eauto| |eauto].
  destruct (Qle_bool density _); [eauto|].
  destruct (Hrnd (1 + draws st)%nat) as [H0 H1].
  pose proof (Qfloor_unit_scale _ 4 H0 H1 eq_refl) as Hidx.
  rewrite (proj2 (Z.leb_le 0 _) (proj1 Hidx)).
  destruct (lookup_lt_is_Some_2 dirs (Z.to_nat (Qfloor (rnd (1 + draws st)%nat * inject_Z 4))))
    as [d Hd]; [change (length dirs) with 4%nat; lia|].
  rewrite Hd. rewrite (surjective_pairing (DIR_VECTORS d)).
  destruct (tryPosition_returns (genGrid st) rows cols r c (DIR_VECTORS d).1
              (DIR_VECTORS d).2
              (seqZ 0 (1 + Qfloor (rnd (2 + draws st)%nat * maxLen))) (Some []) Hrect)
    as [ps ->].
  simpl. destruct ps; eauto.
Qed.

Lemma scanGrid_returns rows cols density maxLen rnd idc n :
  (∀ i, (0 <= rnd i)%Q ∧ (rnd i < 1)%Q) →
  ∃ st, scanGrid rows cols density maxLen rnd idc n = Ok st.
Proof.
  intros Hrnd. unfold scanGrid.
  destruct (forEach_invariant (genInv rows cols) (seq 0 rows)
              (fun st r => forEach (seq 0 cols) (placeAt rows cols density maxLen rnd r) st)
              (mkGen (emptyGrid rows cols) idc n)) as (st & Hst & _); [| |by exists st].
  - apply genInv_emptyGrid.
  - intros st r Hr%elem_of_seq Hinv.
    apply forEach_invariant; [done|].
    intros st1 c _ Hinv1.
    destruct (placeAt_returns rows cols density maxLen rnd r st1 c Hrnd Hinv1) as [st2 Hst2];
      [lia|].
    exists st2. split; [done|]. by eapply placeAt_inv.
Qed.

Lemma someM_returns {A : Type} (f : nat → A → result bool) i (l : list A) :
  (∀ j a, l !! j = Some a → ∃ b, f (i + j)%nat a = Ok b) →
  ∃ b, someM f i l = Ok b.
Proof.
  revert i. induction l as [|x l IH]; intros i Hf; simpl; [eauto|].
  destruct (Hf 0%nat x eq_refl) as [b Hb]. rewrite Nat.add_0_r in Hb. rewrite Hb. simpl.
  destruct b; [eauto|]. apply IH. intros j a Hj.
  replace (S i + j)%nat with (i + S j)%nat by lia. by apply Hf.
Qed.

Lemma hasExit_returns (g : Grid) : ∃ b, hasExit g = Ok b.
Proof.
  unfold hasExit. apply someM_returns. intros r row Hr. simpl.
  apply someM_returns. intros c cell _. simpl.
  destruct cell as [cl|]; [|eauto]. destruct (head cl); [|eauto].
  apply canExit_returns. by eapply lookup_lt_Some.
Qed.

Lemma attempts_returns n rows cols density maxLen rnd idc drawn :
  (∀ i, (0 <= rnd i)%Q ∧ (rnd i < 1)%Q) →
  ∃ found, attempts n rows cols density maxLen rnd idc drawn = Ok found.
Proof.
  intros Hrnd. revert idc drawn. induction n as [|n IH]; intros idc drawn; simpl; [eauto|].
  destruct (scanGrid_returns rows cols density maxLen rnd idc drawn Hrnd) as [st ->].
  simpl. destruct (hasArrow (genGrid st)) eqn:Harrow; simpl; [|apply IH].
  destruct (hasExit_returns (genGrid st)) as [b ->]. simpl.
  destruct b; [|apply IH].
  destruct (solver_returns (genGrid st) 20000) as (res & k & _ & -> & _).
  { intros Hnil. by rewrite Hnil in Harrow. }
  simpl. destruct res; [eauto|apply IH].
Qed.



(** ** The handlers of the game component *)

Lemma cloneGrid_id (g : Grid) : UI.cloneGrid g = g.
Proof. apply cloneState_id. Qed.

Lemma width_clearWindow n cols pid (g : Grid) : width (clearWindow n cols pid g) = width g.
Proof.
  unfold width. rewrite clearWindow_lookup. destruct (g !! 0%nat) as [row|]; simpl; [|done].
  case_decide; [by rewrite clearPrefix_length|done].
Qed.

(** The loops of [handleClick] after [n] rows: the bound [ng[0].length],
    read again for every row, stays what it was. *)
Lemma clearClicked_outer pid (g : Grid) W n :
  width g = Ok W → (n ≤ length g)%nat →
  forEach (seq 0 n)
    (fun ng rr => W ← width ng; forEach (seq 0 W) (removeIdAt pid rr) ng) g
  = Ok (clearWindow n W pid g).
Proof.
  intros HW. induction n as [|n IH]; intros Hn.
  - simpl. by rewrite clearWindow_0.
  - rewrite seq_S, forEach_snoc, IH by lia. simpl.
    rewrite width_clearWindow, HW. simpl.
    destruct (lookup_lt_is_Some_2 g n) as [row Hrow]; [lia|].
    erewrite removeId_inner; last first.
    { rewrite clearWindow_lookup, Hrow. simpl. rewrite decide_False by lia. done. }
    by rewrite clearWindow_S, Hrow.
Qed.

Lemma clearClicked_closed (g : Grid) pid W :
  width g = Ok W → UI.clearClicked g pid = Ok (clearWindow (length g) W pid g).
Proof. intros HW. unfold UI.clearClicked. by apply clearClicked_outer. Qed.

Lemma cellAt_width (g : Grid) r c v : cellAt g r c = Ok v → ∃ W, width g = Ok W.
Proof.
  intros [row0 H0]%cellAt_row0. exists (length row0). unfold width. by rewrite H0.
Qed.

(** A click on a head that can leave. *)
Lemma handleClick_exit (st : UI.Game) r c cl W :
  cellAt (UI.grid st) r c = Ok (Some cl) →
  canExit (UI.grid st) r c = Ok true →
  width (UI.grid st) = Ok W →
  UI.handleClick st r c =
  Ok (UI.mkGame (UI.initialGrid st)
        (clearWindow (length (UI.grid st)) W (id cl) (UI.grid st)) None).
Proof.
  intros Hcl Hexit HW. unfold UI.handleClick. rewrite Hcl. simpl.
  destruct (canExit_true_head _ _ _ Hexit) as (cl' & Hcl' & Hhead).
  rewrite Hcl in Hcl'. injection Hcl' as <-. rewrite Hhead, Hexit. simpl.
  by rewrite cloneGrid_id, (clearClicked_closed _ _ _ HW).
Qed.

(** Any other click leaves the grid as it is. *)
Lemma handleClick_no_exit (st st' : UI.Game) r c :
  canExit (UI.grid st) r c ≠ Ok true →
  UI.handleClick st r c = Ok st' →
  UI.grid st' = UI.grid st ∧ UI.initialGrid st' = UI.initialGrid st.
Proof.
  intros Hno. unfold UI.handleClick.
  destruct (cellAt (UI.grid st) r c) as [[cl|]| |]; simpl; [| |done..].
  - destruct (head cl); simpl; [|by intros [= <-]].
    destruct (canExit (UI.grid st) r c) as [[|]| |]; simpl; [done| |done..].
    by intros [= <-].
  - by intros [= <-].
Qed.

Lemma clearWindow_rect rows cols (g : Grid) pid :
  rect rows cols g → clearWindow (length g) cols pid g = removePiece g pid.
Proof.
  intros Hrect. apply clearWindow_removePiece.
  destruct Hrect as [Hlen Hrows]. rewrite Hlen. by apply rect_insideWindow.
Qed.

Lemma rect_width rows cols (g : Grid) r c v :
  rect rows cols g → cellAt g r c = Ok v → width g = Ok cols.
Proof.
  intros [_ Hrows] [row0 H0]%cellAt_row0. unfold width. rewrite H0.
  by rewrite (Hrows _ _ H0).
Qed.

(** X11.  What a click does, on a board that is a matrix and for a row
    that exists: [handleClick] throws nothing and never touches the level
    kept for Reset; on a head that can leave it removes every cell of that
    piece and nothing else, and clears the highlight; on a blocked head it
    leaves the grid as it is and highlights the cell; on an empty cell or a
    body segment it changes nothing. *)
Theorem handleClick_spec (rows cols : nat) (st : UI.Game) (r c : nat) :
  rect rows cols (UI.grid st) → (r < rows)%nat →
  ∃ st', UI.handleClick st r c = Ok st' ∧
    UI.initialGrid st' = UI.initialGrid st ∧
    match cellAt (UI.grid st) r c with
    | Ok (Some cl) =>
        if head cl then
          ∃ b, canExit (UI.grid st) r c = Ok b ∧
            if b : bool
            then UI.grid st' = removePiece (UI.grid st) (id cl) ∧ UI.hintCell st' = None
            else UI.grid st' = UI.grid st ∧ UI.hintCell st' = Some (r, c)
        else st' = st
    | _ => st' = st
    end.
Proof.
  intros Hrect Hr.
  assert (Hlt : (r < length (UI.grid st))%nat) by (destruct Hrect as [-> _]; done).
  destruct (canExit_returns (UI.grid st) r c Hlt) as [b Hb].
  destruct (lookup_lt_is_Some_2 _ _ Hlt) as [row Hrow].
  assert (Hcell : cellAt (UI.grid st) r c = Ok (mjoin (row !! c))).
  { unfold cellAt. by rewrite Hrow. }
  pose proof (rect_width _ _ _ _ _ _ Hrect Hcell) as HW.
  destruct (mjoin (row !! c)) as [cl|] eqn:Hcl.
  - destruct (head cl) eqn:Hhead.
    + destruct b.
      * rewrite (handleClick_exit st r c cl cols Hcell Hb HW), Hcell, Hhead.
        eexists. split; [done|]. split; [done|]. exists true. split; [done|]. simpl.
        split; [|done]. by apply (clearWindow_rect rows).
      * unfold UI.handleClick. rewrite Hcell. simpl. rewrite Hhead, Hb. simpl.
        eexists. split; [done|]. split; [done|]. by exists false.
    + unfold UI.handleClick. rewrite Hcell. simpl. rewrite Hhead. simpl.
      by exists st.
  - unfold UI.handleClick. rewrite Hcell. simpl. by exists st.
Qed.

Lemma handleClick_spec_witness :
  ∃ st', UI.handleClick (UI.mkGame boardThree boardThree None) 0 1 = Ok st' ∧
    UI.initialGrid st' = boardThree ∧
    ∃ b, canExit boardThree 0 1 = Ok b ∧
      if b : bool
      then UI.grid st' = removePiece boardThree 1 ∧ UI.hintCell st' = None
      else UI.grid st' = boardThree ∧ UI.hintCell st' = Some (0, 1)%nat.
Proof.
  apply (handleClick_spec 2 3 (UI.mkGame boardThree boardThree None) 0 1).
  - split; [reflexivity|]. intros [|[|r]] row; simpl; [by intros [= <-]..|done].
  - lia.
Defined.

(** X12.  A click keeps the board playable.  If the grid in play is a
    matrix whose pieces are valid and which can be solved, so is the grid
    after any click that returns: no piece is damaged or added and no
    click leads to a position without solution. *)
Theorem handleClick_keeps_playable (rows cols : nat) (st st' : UI.Game) (r c : nat) :
  rect rows cols (UI.grid st) →
  gridInvariant (UI.grid st) →
  solvable (UI.grid st) →
  UI.handleClick st r c = Ok st' →
  rect rows cols (UI.grid st') ∧ gridInvariant (UI.grid st') ∧ solvable (UI.grid st') ∧
  pieceIds (UI.grid st') ⊆ pieceIds (UI.grid st).
Proof.
  intros Hrect Hinv (ms & gF & Hplay & Hempty) Hclick.
  destruct (canExit (UI.grid st) r c) as [[|]| |] eqn:Hexit.
  2-4: destruct (handleClick_no_exit st st' r c) as [-> _];
       [by rewrite Hexit|done|];
       (split; [done|]); (split; [done|]); (split; [by exists ms, gF|done]).
  destruct (canExit_true_head _ _ _ Hexit) as (cl & Hcl & _).
  pose proof (rect_width _ _ _ _ _ _ Hrect Hcl) as HW.
  rewrite (handleClick_exit st r c cl cols Hcl Hexit HW) in Hclick.
  injection Hclick as <-. simpl. rewrite (clearWindow_rect _ _ _ _ Hrect).
  split; [by apply rect_removePiece|]. split; [by apply gridInvariant_removePiece|].
  split.
  - destruct (solvable_after_move ms _ gF r c cl Hplay Hempty Hcl Hexit)
      as (ms' & gF' & Hplay' & Hempty' & _).
    by exists ms', gF'.
  - rewrite pieceIds_removePiece. apply subseteq_difference_l. done.
Qed.

Lemma handleClick_keeps_playable_witness :
  rect 2 3 (removePiece boardGenerated 1) ∧ gridInvariant (removePiece boardGenerated 1) ∧
  solvable (removePiece boardGenerated 1) ∧
  pieceIds (removePiece boardGenerated 1) ⊆ pieceIds boardGenerated.
Proof.
  apply (handleClick_keeps_playable 2 3
           (UI.mkGame boardGenerated boardGenerated None)
           (UI.mkGame boardGenerated (removePiece boardGenerated 1) None) 0 1).
  - apply rect_boardGenerated.
  - apply gridInvariant_boardGenerated.
  - exists [(0, 1); (1, 1)]%nat, [[None; None; None]; [None; None; None]]. by split.
  - reflexivity.
Defined.

Lemma forEach_seq_returns {S : Type} (P : nat → S → Prop) n
    (body : S → nat → result S) s :
  P 0%nat s →
  (∀ i s1, (i < n)%nat → P i s1 → ∃ s2, body s1 i = Ok s2 ∧ P (Datatypes.S i) s2) →
  ∃ s', forEach (seq 0 n) body s = Ok s' ∧ P n s'.
Proof.
  intros H0. induction n as [|n IH]; intros Hbody.
  - by exists s.
  - destruct IH as (s1 & Hrun & HP). { intros i s1 Hi. apply Hbody. lia. }
    destruct (Hbody n s1) as (s2 & Hs2 & HP2); [lia|done|].
    exists s2. by rewrite seq_S, forEach_snoc, Hrun.
Qed.

(** The scan of one row by [giveHint]. *)
Lemma hintAt_row (g : Grid) r W :
  (r < length g)%nat →
  ∃ found, forEach (seq 0 W) (UI.hintAt g r) None = Ok found ∧
    match found with
    | Some m => m.1 = r ∧ (m.2 < W)%nat ∧ canExit g r m.2 = Ok true ∧
        ∀ c, (c < m.2)%nat → canExit g r c ≠ Ok true
    | None => ∀ c, (c < W)%nat → canExit g r c ≠ Ok true
    end.
Proof.
  intros Hr.
  apply (forEach_seq_returns
    (fun j found =>
       match found with
       | Some m => m.1 = r ∧ (m.2 < j)%nat ∧ canExit g r m.2 = Ok true ∧
           ∀ c, (c < m.2)%nat → canExit g r c ≠ Ok true
       | None => ∀ c, (c < j)%nat → canExit g r c ≠ Ok true
       end)).
  - intros c Hc. lia.
  - intros j found Hj Hfound. destruct found as [m|].
    + exists (Some m). split; [done|]. destruct Hfound as (? & ? & ? & ?).
      repeat split; try done. lia.
    + unfold UI.hintAt.
      destruct (canExit_returns g r j Hr) as [b Hb].
      destruct (cellAt g r j) as [cell| |] eqn:Hcell.
      2,3: unfold canExit in Hb; by rewrite Hcell in Hb.
      simpl.
      assert (Hstep : ∀ c, (c < Datatypes.S j)%nat → canExit g r j ≠ Ok true →
                canExit g r c ≠ Ok true).
      { intros c Hc Hno. destruct (decide (c = j)) as [->|Hne]; [done|].
        apply Hfound. lia. }
      destruct cell as [cl|]; [destruct (head cl) eqn:Hhead|].
      * rewrite Hb. simpl. destruct b.
        -- exists (Some (r, j)). split; [done|]. simpl. repeat split; try done. lia.
        -- exists None. split; [done|]. intros c Hc. apply Hstep; [done|congruence].
      * exists None. split; [done|]. intros c Hc. apply Hstep; [done|].
        rewrite (canExit_false_of_not_head g r j (Some cl) Hcell); [done|].
        right. by exists cl.
      * exists None. split; [done|]. intros c Hc. apply Hstep; [done|].
        rewrite (canExit_false_of_not_head g r j None Hcell); [done|by left].
Qed.

Lemma findHint_first (g : Grid) : ∃ found, UI.findHint g = Ok found ∧ firstExit g found.
Proof.
  unfold UI.findHint, firstExit.
  set (W := default 0%nat (length <$> g !! 0%nat)).
  destruct (forEach_seq_returns
    (fun i found =>
       match found with
       | Some m => (m.1 < i)%nat ∧ (m.2 < W)%nat ∧ canExit g m.1 m.2 = Ok true ∧
           ∀ r c, (r < m.1 ∨ (r = m.1 ∧ c < m.2))%nat → (c < W)%nat →
             canExit g r c ≠ Ok true
       | None => ∀ r c, (r < i)%nat → (c < W)%nat → canExit g r c ≠ Ok true
       end)
    (length g)
    (fun found r =>
       match found with
       | Some m => Ok (Some m)
       | None => W ← width g; forEach (seq 0 W) (UI.hintAt g r) None
       end) None) as (found & Hrun & Hfound).
  - intros r c Hr. lia.
  - intros i found Hi Hfound. destruct found as [m|].
    + exists (Some m). split; [done|]. destruct Hfound as (? & ? & ? & ?).
      repeat split; try done. lia.
    + assert (HW : width g = Ok W).
      { subst W. unfold width. destruct g as [|row0 g']; [simpl in Hi; lia|done]. }
      rewrite HW. simpl.
      destruct (hintAt_row g i W Hi) as (found & Hrow & Hspec).
      exists found. split; [done|]. destruct found as [m|].
      * destruct Hspec as (Hm1 & Hm2 & Hexit & Hbefore).
        split; [lia|]. split; [done|]. split; [by rewrite Hm1|].
        intros r c [Hlt|[-> Hlt]] Hc.
        -- apply Hfound; [lia|done].
        -- rewrite Hm1. by apply Hbefore.
      * intros r c Hlt Hc. destruct (decide (r = i)) as [->|Hne]; [by apply Hspec|].
        apply Hfound; [lia|done].
  - exists found. split; [done|]. destruct found as [m|]; [|done].
    destruct Hfound as (? & ? & ? & ?). done.
Qed.

(** X13.  What Hint shows.  [giveHint] throws nothing, on any grid, and
    leaves the grid and the level kept for Reset as they are; the cell it
    highlights is the first head, in row-major order, for which [canExit]
    holds, and it highlights nothing exactly when no cell of the board can
    leave. *)
Theorem giveHint_first (st : UI.Game) :
  ∃ found,
    UI.giveHint st = Ok (UI.mkGame (UI.initialGrid st) (UI.grid st) found) ∧
    firstExit (UI.grid st) found.
Proof.
  destruct (findHint_first (UI.grid st)) as (found & Hrun & Hfirst).
  exists found. split; [|done]. unfold UI.giveHint. by rewrite Hrun.
Qed.

Lemma giveHint_example :
  UI.giveHint (UI.mkGame boardThree boardThree None)
  = Ok (UI.mkGame boardThree boardThree (Some (0, 1)%nat)).
Proof. reflexivity. Qed.

(** On a matrix no cell outside the window of [giveHint] holds a segment. *)
Lemma firstExit_None_rect rows cols (g : Grid) r c :
  rect rows cols g → firstExit g None → canExit g r c ≠ Ok true.
Proof.
  intros Hrect Hnone Hexit.
  destruct (canExit_true_head _ _ _ Hexit) as (cl & Hcl & _).
  destruct (cellAt_row0 _ _ _ _ Hcl) as [row0 H0].
  apply cellAt_Some_lookup in Hcl as (row & Hr & Hc).
  destruct (rect_insideWindow _ _ _ Hrect r c row cl Hr Hc) as [Hr' Hc'].
  apply (Hnone r c); [by destruct Hrect as [-> _]| |done].
  rewrite H0. simpl. destruct Hrect as [_ Hrows]. by rewrite (Hrows _ _ H0).
Qed.

(** The two outcomes of a click on a matrix. *)
Lemma handleClick_cases rows cols (st st' : UI.Game) r c :
  rect rows cols (UI.grid st) →
  UI.handleClick st r c = Ok st' →
  UI.initialGrid st' = UI.initialGrid st ∧
  (UI.grid st' = UI.grid st ∨
   ∃ cl, cellAt (UI.grid st) r c = Ok (Some cl) ∧ canExit (UI.grid st) r c = Ok true ∧
     UI.grid st' = removePiece (UI.grid st) (id cl)).
Proof.
  intros Hrect Hclick.
  destruct (canExit (UI.grid st) r c) as [[|]| |] eqn:Hexit.
  2-4: destruct (handleClick_no_exit st st' r c) as [-> ->];
       [by rewrite Hexit|done|]; (split; [done|by left]).
  destruct (canExit_true_head _ _ _ Hexit) as (cl & Hcl & _).
  pose proof (rect_width _ _ _ _ _ _ Hrect Hcl) as HW.
  rewrite (handleClick_exit st r c cl cols Hcl Hexit HW) in Hclick.
  injection Hclick as <-. simpl. split; [done|]. right. exists cl.
  split; [done|]. split; [done|]. by apply (clearWindow_rect rows).
Qed.

(** X14.  Hint and click agree, on a board that is a matrix.  A click on
    the cell that Hint highlights removes a piece that was on the board.
    When Hint highlights nothing no click changes the grid, and the grid,
    unless it is empty, cannot be solved. *)
Theorem hint_then_click (rows cols : nat) (st st1 : UI.Game) :
  rect rows cols (UI.grid st) →
  UI.giveHint st = Ok st1 →
  match UI.hintCell st1 with
  | Some m =>
      ∃ cl st2, cellAt (UI.grid st) m.1 m.2 = Ok (Some cl) ∧
        UI.handleClick st1 m.1 m.2 = Ok st2 ∧
        UI.grid st2 = removePiece (UI.grid st) (id cl) ∧
        id cl ∈ pieceIds (UI.grid st) ∧ id cl ∉ pieceIds (UI.grid st2)
  | None =>
      (∀ r c st2, UI.handleClick st1 r c = Ok st2 → UI.grid st2 = UI.grid st) ∧
      (allEmpty (UI.grid st) = false → ¬ solvable (UI.grid st))
  end.
Proof.
  intros Hrect Hhint.
  destruct (findHint_first (UI.grid st)) as (found & Hrun & Hfirst).
  unfold UI.giveHint in Hhint. rewrite Hrun in Hhint. injection Hhint as <-. simpl.
  destruct found as [m|].
  - destruct Hfirst as (_ & _ & Hexit & _).
    destruct (canExit_true_head _ _ _ Hexit) as (cl & Hcl & _).
    pose proof (rect_width _ _ _ _ _ _ Hrect Hcl) as HW.
    exists cl. eexists. split; [done|]. split.
    { by apply (handleClick_exit (UI.mkGame _ _ _) m.1 m.2 cl cols). }
    simpl. rewrite (clearWindow_rect _ _ _ _ Hrect). split; [done|]. split.
    + apply elem_of_pieceIds. apply cellAt_Some_lookup in Hcl as (row & Hr & Hc).
      by exists m.1, m.2, row, cl.
    + rewrite pieceIds_removePiece. intros [_ Hne]%elem_of_difference.
      apply Hne. by apply elem_of_singleton.
  - split.
    + intros r c st2 Hclick.
      apply (handleClick_no_exit (UI.mkGame _ _ _) st2 r c) in Hclick as [Hgrid _];
        [done|].
      simpl. by eapply firstExit_None_rect.
    + intros Hfull. apply stuck_unsolvable; [done|].
      intros r c. by eapply firstExit_None_rect.
Qed.

Lemma hint_then_click_witness :
  ∃ cl st2, cellAt boardThree 0 1 = Ok (Some cl) ∧
    UI.handleClick (UI.mkGame boardThree boardThree (Some (0, 1)%nat)) 0 1 = Ok st2 ∧
    UI.grid st2 = removePiece boardThree (id cl) ∧
    id cl ∈ pieceIds boardThree ∧ id cl ∉ pieceIds (UI.grid st2).
Proof.
  apply (hint_then_click 2 3 (UI.mkGame boardThree boardThree None)
           (UI.mkGame boardThree boardThree (Some (0, 1)%nat))).
  - split; [reflexivity|]. intros [|[|r]] row; simpl; [by intros [= <-]..|done].
  - reflexivity.
Defined.

(** Clicking through a replay of the solver. *)
Lemma clicks_applyMovesW rows cols (ms : list Move) (st : UI.Game) (gF : Grid) :
  length (UI.grid st) = rows → width (UI.grid st) = Ok cols →
  applyMovesW rows cols (UI.grid st) ms = Some gF →
  ∃ st', UI.clicks st ms = Ok st' ∧ UI.grid st' = gF ∧
    UI.initialGrid st' = UI.initialGrid st.
Proof.
  revert st. induction ms as [|m ms IH]; intros st Hlen HW Hplay.
  - injection Hplay as <-. by exists st.
  - simpl in Hplay.
    destruct (cellAt (UI.grid st) m.1 m.2) as [[cl|]| |] eqn:Hcl; try done.
    destruct (canExit (UI.grid st) m.1 m.2) as [[|]| |] eqn:Hexit; try done.
    simpl. rewrite (handleClick_exit st m.1 m.2 cl cols Hcl Hexit HW). simpl.
    rewrite Hlen.
    destruct (IH (UI.mkGame (UI.initialGrid st)
                    (clearWindow rows cols (id cl) (UI.grid st)) None))
      as (st' & Hrun & Hgrid & Hinit); simpl.
    + by rewrite clearWindow_length.
    + by rewrite width_clearWindow.
    + done.
    + by exists st'.
Qed.

(** X15.  The solver's answer can be played.  If [findSolutionLimited]
    returns a move sequence for the grid in play, clicking its cells in
    order throws nothing and ends on the empty grid ("Level cleared"),
    with the level kept for Reset untouched; rows of any lengths. *)
Theorem solution_clicks_clear (st : UI.Game) (maxStates : Z) (ms : list Move) :
  findSolutionLimited (UI.grid st) maxStates = Ok (Some ms) →
  ∃ st', UI.clicks st ms = Ok st' ∧ allEmpty (UI.grid st') = true ∧
    UI.initialGrid st' = UI.initialGrid st.
Proof.
  intros [n Hrun]%findSolutionLimited_solveRun.
  pose proof (solveRun_Ok_nonempty _ _ _ Hrun) as Hne.
  destruct (solveRun_spec (UI.grid st) maxStates Hne) as (res & n' & Hrun' & _ & _ & Hsol).
  rewrite Hrun in Hrun'. injection Hrun' as <- <-.
  destruct (Hsol ms eq_refl) as (cols & gF & HW & Hplay & Hempty).
  destruct (clicks_applyMovesW _ cols ms st gF eq_refl HW Hplay) as (st' & Hclicks & <- & Hinit).
  by exists st'.
Qed.

Lemma solution_clicks_clear_witness :
  ∃ st', UI.clicks (UI.mkGame boardThree boardThree None) [(0, 1); (1, 0); (1, 2)]%nat = Ok st' ∧
    allEmpty (UI.grid st') = true ∧ UI.initialGrid st' = boardThree.
Proof.
  apply (solution_clicks_clear (UI.mkGame boardThree boardThree None) 20000).
  vm_compute. reflexivity.
Defined.

(** ** A generated level in play *)

Lemma generate_cases rows cols density maxLen maxAttempts rnd (g : Grid) :
  generateRandomLevelAsync rows cols density maxLen maxAttempts rnd = Ok g →
  attempts maxAttempts rows cols density maxLen rnd 1 0 = Ok (Some g) ∨
  g = fallbackGrid rows cols.
Proof.
  unfold generateRandomLevelAsync.
  destruct (attempts _ _ _ _ _ _ _ _) as [[g'|]| |]; simpl; [| |done..]; intros [= <-];
    [by left|by right].
Qed.

Lemma generate_playable rows cols density maxLen maxAttempts rnd (g : Grid) :
  generateRandomLevelAsync rows cols density maxLen maxAttempts rnd = Ok g →
  rect rows cols g ∧ solvable g.
Proof.
  intros [Hacc| ->]%generate_cases.
  - by destruct (attempts_level _ _ _ _ _ _ _ _ _ (Z.le_refl 1) Hacc) as (? & _ & ?).
  - split; [apply rect_fallbackGrid|apply fallbackGrid_solvable].
Qed.

Lemma clicks_keep_playable rows cols (ms : list Move) (st st' : UI.Game) :
  rect rows cols (UI.grid st) → solvable (UI.grid st) →
  UI.clicks st ms = Ok st' →
  rect rows cols (UI.grid st') ∧ solvable (UI.grid st') ∧
  UI.initialGrid st' = UI.initialGrid st.
Proof.
  revert st. induction ms as [|m ms IH]; intros st Hrect Hsolv Hrun; simpl in Hrun.
  - by injection Hrun as <-.
  - destruct (UI.handleClick st m.1 m.2) as [st1| |] eqn:Hclick; simpl in Hrun; [|done..].
    destruct (handleClick_cases _ _ _ _ _ _ Hrect Hclick)
      as [Hinit [Hsame|(cl & Hcl & Hexit & Hgrid)]].
    + rewrite <- Hinit. apply IH; [by rewrite Hsame..|done].
    + rewrite <- Hinit. apply IH; [| |done]; rewrite Hgrid.
      * by apply rect_removePiece.
      * destruct Hsolv as (ms0 & gF & Hplay & Hempty).
        destruct (solvable_after_move ms0 _ gF _ _ cl Hplay Hempty Hcl Hexit)
          as (ms' & gF' & Hplay' & Hempty' & _).
        by exists ms', gF'.
Qed.

Lemma generate_total rows cols density maxLen maxAttempts rnd :
  (∀ i, (0 <= rnd i)%Q ∧ (rnd i < 1)%Q) →
  ∃ g, generateRandomLevelAsync rows cols density maxLen maxAttempts rnd = Ok g.
Proof.
  intros Hrnd. unfold generateRandomLevelAsync.
  destruct (attempts_returns maxAttempts rows cols density maxLen rnd 1 0 Hrnd)
    as [found ->].
  simpl. destruct found; eauto.
Qed.

Lemma newRandom_Ok (st : UI.Game) rows cols density maxLen rnd (g : Grid) :
  generateRandomLevelAsync rows cols density maxLen 500 rnd = Ok g →
  UI.newRandom st rows cols density maxLen rnd = Ok (UI.mkGame g g None).
Proof. intros Hgen. unfold UI.newRandom. rewrite Hgen. by rewrite cloneGrid_id. Qed.

(** X16.  A generated level never gets stuck.  After New Random (with
    random draws in [0, 1)) and any sequence of clicks, as long as the
    board is not cleared Hint highlights a head that can leave: the alert
    that no arrow can exit is never reached, whatever the player does. *)
Theorem generated_level_never_stuck (st0 st1 st2 : UI.Game) (rows cols : nat)
    (density maxLen : Q) (rnd : nat → Q) (ms : list Move) :
  (∀ i, (0 <= rnd i)%Q ∧ (rnd i < 1)%Q) →
  UI.newRandom st0 rows cols density maxLen rnd = Ok st1 →
  UI.clicks st1 ms = Ok st2 →
  allEmpty (UI.grid st2) = false →
  ∃ m, UI.giveHint st2 = Ok (UI.mkGame (UI.initialGrid st1) (UI.grid st2) (Some m)) ∧
    canExit (UI.grid st2) m.1 m.2 = Ok true.
Proof.
  intros Hrnd Hnew Hclicks Hfull.
  destruct (generate_total rows cols density maxLen 500 rnd Hrnd) as [g Hgen].
  rewrite (newRandom_Ok _ _ _ _ _ _ _ Hgen) in Hnew. injection Hnew as <-.
  destruct (generate_playable _ _ _ _ _ _ _ Hgen) as [Hrect Hsolv].
  destruct (clicks_keep_playable rows cols ms (UI.mkGame g g None) st2 Hrect Hsolv Hclicks)
    as (Hrect2 & Hsolv2 & Hinit).
  simpl in Hinit.
  destruct (findHint_first (UI.grid st2)) as (found2 & Hrun & Hfirst).
  destruct found2 as [m|].
  - exists m. unfold UI.giveHint. rewrite Hrun. simpl. rewrite Hinit.
    split; [done|]. by destruct Hfirst as (_ & _ & ? & _).
  - destruct (stuck_unsolvable (UI.grid st2) Hfull); [|done].
    intros r c. by eapply firstExit_None_rect.
Qed.

Lemma generated_level_never_stuck_witness :
  ∃ m, UI.giveHint (UI.mkGame boardGenerated (removePiece boardGenerated 1) None)
       = Ok (UI.mkGame boardGenerated (removePiece boardGenerated 1) (Some m)) ∧
    canExit (removePiece boardGenerated 1) m.1 m.2 = Ok true.
Proof.
  apply (generated_level_never_stuck
           (UI.mkGame [] [] None)
           (UI.mkGame boardGenerated boardGenerated None)
           (UI.mkGame boardGenerated (removePiece boardGenerated 1) None)
           2 3 (1 # 2) 2 rndCycle [(0, 1)%nat]).
  - intros i. unfold rndCycle. destruct (i mod 3)%nat as [|[|?]]; split; done.
  - vm_compute. reflexivity.
  - vm_compute. reflexivity.
  - reflexivity.
Defined.

(** ** The counter of the status line *)

Lemma countCells_cons P (row : Row) (g : Grid) :
  countCells P (row :: g) =
  (length (List.filter P (omap (fun cell : option Cell => cell) row)) + countCells P g)%nat.
Proof.
  unfold countCells. simpl. by rewrite omap_app, List.filter_app, length_app.
Qed.

(** The segments counted are those of the piece [pid] and those that stay
    when the piece is removed. *)
Lemma countCells_removePiece P (g : Grid) pid :
  countCells P g =
  (countCells P (removePiece g pid) + countCells (fun cl => P cl && (id cl =? pid)%Z) g)%nat.
Proof.
  induction g as [|row g IH]; [done|].
  unfold removePiece in *. rewrite fmap_cons, !countCells_cons, IH.
  assert (Hrow : length (List.filter P (omap (fun cell : option Cell => cell) row)) =
            (length (List.filter P
               (omap (fun cell : option Cell => cell) (clearId pid <$> row))) +
             length (List.filter (fun cl => P cl && (id cl =? pid)%Z)
               (omap (fun cell : option Cell => cell) row)))%nat).
  { clear IH. induction row as [|x row IHr]; [done|].
    destruct x as [cl|]; [|done]. rewrite fmap_cons. simpl.
    unfold omap in IHr.
    destruct (id cl =? pid) eqn:E1, (P cl) eqn:E2; simpl; rewrite ?E1, ?E2; simpl; lia. }
  lia.
Qed.

Lemma countRow_zero P (row : Row) :
  (∀ c cl, row !! c = Some (Some cl) → P cl = false) →
  length (List.filter P (omap (fun cell : option Cell => cell) row)) = 0%nat.
Proof.
  induction row as [|x row IH]; intros Hnone; [done|].
  assert (Hrest : ∀ c cl, row !! c = Some (Some cl) → P cl = false).
  { intros c cl. apply (Hnone (S c)). }
  destruct x as [cl|]; simpl; [|by apply IH].
  rewrite (Hnone 0%nat cl eq_refl). by apply IH.
Qed.

Lemma countCells_zero P (g : Grid) :
  (∀ r c cl, cellAt g r c = Ok (Some cl) → P cl = false) → countCells P g = 0%nat.
Proof.
  induction g as [|row g IH]; intros Hnone; [done|].
  rewrite countCells_cons, IH, countRow_zero; [done| |].
  - intros c cl Hc. apply (Hnone 0%nat c). apply cellAt_Some_lookup. by exists row.
  - intros r c cl Hcl. apply (Hnone (S r) c).
    apply cellAt_Some_lookup in Hcl as (row' & Hr & Hc). apply cellAt_Some_lookup.
    by exists row'.
Qed.

Lemma countRow_unique P (row : Row) ch clh :
  row !! ch = Some (Some clh) → P clh = true →
  (∀ c cl, row !! c = Some (Some cl) → P cl = true → c = ch) →
  length (List.filter P (omap (fun cell : option Cell => cell) row)) = 1%nat.
Proof.
  revert ch. induction row as [|x row IH]; intros ch Hh HP Huniq; [done|].
  destruct ch as [|ch].
  - injection Hh as ->. simpl. rewrite HP. simpl. f_equal. apply countRow_zero.
    intros c cl Hc. destruct (P cl) eqn:E; [|done].
    by pose proof (Huniq (S c) cl Hc E).
  - assert (Hrest : length (List.filter P (omap (fun cell : option Cell => cell) row))
                    = 1%nat).
    { apply (IH ch); [done..|]. intros c cl Hc Hcl.
      pose proof (Huniq (S c) cl Hc Hcl). lia. }
    destruct x as [cl|]; simpl; [|done].
    destruct (P cl) eqn:E; [|done]. by pose proof (Huniq 0%nat cl eq_refl E).
Qed.

(** One cell exactly satisfies [P]: the count is 1. *)
Lemma countCells_unique P (g : Grid) rh ch clh :
  cellAt g rh ch = Ok (Some clh) → P clh = true →
  (∀ r c cl, cellAt g r c = Ok (Some cl) → P cl = true → r = rh ∧ c = ch) →
  countCells P g = 1%nat.
Proof.
  revert rh. induction g as [|row g IH]; intros rh Hh HP Huniq; [done|].
  rewrite countCells_cons. destruct rh as [|rh].
  - apply cellAt_Some_lookup in Hh as (row' & [= <-] & Hc).
    rewrite (countRow_unique P row ch clh Hc HP), countCells_zero; [done| |].
    + intros r c cl Hcl. destruct (P cl) eqn:E; [|done].
      destruct (Huniq (S r) c cl) as [? _]; [|done|done].
      apply cellAt_Some_lookup in Hcl as (row' & Hr & Hc'). apply cellAt_Some_lookup.
      by exists row'.
    + intros c cl Hc' Hcl. apply (Huniq 0%nat c cl); [|done].
      apply cellAt_Some_lookup. by exists row.
  - rewrite countRow_zero, (IH rh); [done| |done| |].
    + apply cellAt_Some_lookup in Hh as (row' & Hr & Hc). apply cellAt_Some_lookup.
      by exists row'.
    + intros r c cl Hcl Hp. destruct (Huniq (S r) c cl) as [Hr Hc]; [|done|].
      * apply cellAt_Some_lookup in Hcl as (row' & Hr & Hc). apply cellAt_Some_lookup.
        by exists row'.
      * split; [lia|done].
    + intros c cl Hc. destruct (P cl) eqn:E; [|done].
      destruct (Huniq 0%nat c cl) as [? _]; [|done|done].
      apply cellAt_Some_lookup. by exists row.
Qed.

Lemma arrowsLeft_size (n : nat) (g : Grid) :
  size (pieceIds g) = n → gridInvariant g → UI.arrowsLeft g = n.
Proof.
  revert g. induction n as [|n IH]; intros g Hsize Hinv.
  - apply size_empty_inv in Hsize. apply (countCells_zero head).
    intros r c cl (row & Hr & Hc)%cellAt_Some_lookup.
    assert (Hin : id cl ∈ pieceIds g) by (apply elem_of_pieceIds; by exists r, c, row, cl).
    apply Hsize in Hin. by apply elem_of_empty in Hin.
  - destruct (size_pos_elem_of (pieceIds g)) as [pid Hpid]; [lia|].
    change (UI.arrowsLeft g) with (countCells head g).
    rewrite (countCells_removePiece head g pid).
    change (countCells head (removePiece g pid)) with (UI.arrowsLeft (removePiece g pid)).
    rewrite (IH (removePiece g pid)).
    + destruct (Hinv pid Hpid)
        as (_ & _ & _ & _ & _ & _ & _ & rh & ch & clh & Hh & Hid & Hhead & Huniq).
      rewrite (countCells_unique _ g rh ch clh Hh); [lia| |].
      * rewrite Hhead. simpl. by apply Z.eqb_eq.
      * intros r c cl Hcl [Hp Hq%Z.eqb_eq]%andb_true_iff. by apply (Huniq r c cl).
    + rewrite pieceIds_removePiece, size_difference by (by apply singleton_subseteq_l).
      rewrite size_singleton. lia.
    + by apply gridInvariant_removePiece.
Qed.

(** X17.  The status line counts the pieces.  On a grid whose pieces are
    valid (one head each), the number shown after "Arrows left" is the
    number of pieces on the board; it is 0 exactly when the grid is empty,
    the case in which "Level cleared" is shown instead. *)
Theorem arrowsLeft_counts_pieces (g : Grid) :
  gridInvariant g →
  UI.arrowsLeft g = size (pieceIds g) ∧
  (UI.arrowsLeft g = 0%nat ↔ allEmpty g = true).
Proof.
  intros Hinv. pose proof (arrowsLeft_size _ g eq_refl Hinv) as Hcount.
  split; [done|]. rewrite Hcount. split.
  - intros Hsize%size_empty_inv. apply allEmpty_pieceIds. by apply leibniz_equiv.
  - intros Hempty. by rewrite (pieceIds_allEmpty g Hempty), size_empty.
Qed.

Lemma arrowsLeft_counts_pieces_witness :
  UI.arrowsLeft boardGenerated = size (pieceIds boardGenerated) ∧
  (UI.arrowsLeft boardGenerated = 0%nat ↔ allEmpty boardGenerated = true).
Proof. apply (arrowsLeft_counts_pieces boardGenerated), gridInvariant_boardGenerated. Defined.

(** ** The handlers on the store *)

Lemma gameRel_app h ext stH stV : gameRel h stH stV → gameRel (h ++ ext) stH stV.
Proof. intros (Hi & Hg & Hh). repeat split; [by apply heap_holds_app..|done]. Qed.

Lemma heap_cloneGrid_holds h g gv :
  Heap.holds h g gv →
  HeapUI.cloneGrid g h = Ok (seq (length h) (length gv), h ++ gv).
Proof. apply heap_cloneState_holds. Qed.

Lemma heap_bind_unfold {A B : Type} (m : Heap.M A) (f : A → Heap.M B) h :
  (m ≫= f) h =
  match m h with
  | Ok (a, h') => f a h'
  | TypeError => TypeError
  | OutOfFuel => OutOfFuel
  end.
Proof. reflexivity. Qed.

(** [ng[0].length] on the rows appended to [h]. *)
Lemma heap_width_fresh h (cur : Grid) n :
  length cur = n →
  match width cur with
  | Ok W => HeapUI.width (seq (length h) n) (h ++ cur) = Ok (W, h ++ cur)
  | TypeError => HeapUI.width (seq (length h) n) (h ++ cur) = TypeError
  | OutOfFuel => HeapUI.width (seq (length h) n) (h ++ cur) = OutOfFuel
  end.
Proof.
  intros Hn. unfold width, HeapUI.width. destruct (cur !! 0%nat) as [row0|] eqn:H0.
  - apply lookup_lt_Some in H0 as Hlt. rewrite lookup_seq_lt by lia.
    unfold mbind, Heap.M_bind, Heap.read.
    rewrite lookup_app_r by lia.
    replace (length h + 0 - length h)%nat with 0%nat by lia. by rewrite H0.
  - apply lookup_ge_None in H0. by rewrite lookup_seq_ge by lia.
Qed.

(** The loops of [handleClick] on the rows appended to [h] run as the
    loops on values. *)
Lemma heap_clearClicked_loops pid h n (cur : Grid) :
  length cur = n →
  match UI.clearClicked cur pid with
  | Ok cur' =>
      HeapUI.clearClicked (seq (length h) n) pid (h ++ cur) = Ok (tt, h ++ cur') ∧
      length cur' = n
  | TypeError => HeapUI.clearClicked (seq (length h) n) pid (h ++ cur) = TypeError
  | OutOfFuel => HeapUI.clearClicked (seq (length h) n) pid (h ++ cur) = OutOfFuel
  end.
Proof.
  intros Hn. unfold UI.clearClicked, HeapUI.clearClicked. rewrite length_seq, Hn.
  apply (heap_forEach_lockstep (fun cur : Grid => h ++ cur)
           (fun cur : Grid => length cur = n)
           (fun _ rr => W ← HeapUI.width (seq (length h) n);
                        Heap.forEach (seq 0 W)
                          (Heap.removeIdAt pid (seq (length h) n) rr) tt)
           (fun ng rr => W ← width ng; forEach (seq 0 W) (removeIdAt pid rr) ng));
    [|done].
  intros s rr Hs. pose proof (heap_width_fresh h s n Hs) as Hwidth.
  destruct (width s) as [W| |]; simpl; rewrite heap_bind_unfold, Hwidth; [|done..].
  apply (heap_forEach_lockstep (fun cur : Grid => h ++ cur)
           (fun cur : Grid => length cur = n)
           (Heap.removeIdAt pid (seq (length h) n) rr) (removeIdAt pid rr)); [|done].
  intros s' c Hs'. pose proof (heap_removeIdAt_lockstep pid h s' rr c) as Hstep.
  rewrite Hs' in Hstep. destruct (removeIdAt pid rr s' c); [|done..].
  destruct Hstep as [? ?]. split; congruence.
Qed.

Lemma heap_handleClick_simulates h stH stV r c :
  gameRel h stH stV →
  simulates gameRel (HeapUI.handleClick stH r c) h (UI.handleClick stV r c).
Proof.
  intros Hrel. pose proof Hrel as (Hi & Hg & Hh).
  unfold HeapUI.handleClick, UI.handleClick.
  apply (simulates_snapshot _ _ _ _ _ _ Hg).
  apply (simulates_bind (fun _ x y => x = y) gameRel); [by apply simulates_lift|].
  intros ext cell ? <-. destruct cell as [cl|]; [|by apply simulates_ret, gameRel_app].
  destruct (negb (head cl)); [by apply simulates_ret, gameRel_app|].
  apply (simulates_bind (fun _ x y => x = y) gameRel); [by apply simulates_lift|].
  intros ext' b ? <-.
  apply (gameRel_app _ ext), (gameRel_app _ ext') in Hrel.
  destruct Hrel as (Hi' & Hg' & Hh'). set (h1 := (h ++ ext) ++ ext') in *.
  destruct b.
  - rewrite cloneGrid_id.
    pose proof (heap_clearClicked_loops (id cl) h1 (length (UI.grid stV)) (UI.grid stV)
                  eq_refl) as Hloops.
    unfold simulates.
    destruct (UI.clearClicked (UI.grid stV) (id cl)) as [gv'| |]; simpl;
      rewrite heap_bind_unfold, (heap_cloneGrid_holds _ _ _ Hg'), heap_bind_unfold.
    + destruct Hloops as [Hl Hlen]. rewrite Hl.
      eexists _, gv'. split; [done|]. split; [|split]; simpl.
      * by apply heap_holds_app.
      * rewrite <- Hlen. apply heap_holds_fresh.
      * done.
    + by rewrite Hloops.
    + by rewrite Hloops.
  - apply simulates_ret. by repeat split.
Qed.

Lemma heap_resetLevel_simulates h stH stV :
  gameRel h stH stV →
  simulates gameRel (HeapUI.resetLevel stH) h (Ok (UI.resetLevel stV)).
Proof.
  intros (Hi & Hg & Hh). unfold simulates, HeapUI.resetLevel.
  rewrite heap_bind_unfold, (heap_cloneGrid_holds _ _ _ Hi).
  eexists _, (UI.initialGrid stV). split; [done|].
  unfold UI.resetLevel. rewrite cloneGrid_id. split; [|split]; simpl.
  - by apply heap_holds_app.
  - apply heap_holds_fresh.
  - done.
Qed.

Lemma heap_giveHint_simulates h stH stV :
  gameRel h stH stV →
  simulates gameRel (HeapUI.giveHint stH) h (UI.giveHint stV).
Proof.
  intros Hrel. pose proof Hrel as (Hi & Hg & Hh).
  unfold HeapUI.giveHint, UI.giveHint.
  apply (simulates_snapshot _ _ _ _ _ _ Hg).
  apply (simulates_bind (fun _ x y => x = y) gameRel); [by apply simulates_lift|].
  intros ext found ? <-. apply simulates_ret.
  split; [|split]; simpl; [by apply heap_holds_app..|done].
Qed.

Lemma heap_run_simulates h stH stV evs :
  gameRel h stH stV →
  simulates gameRel (HeapUI.run stH evs) h (UI.run stV evs).
Proof.
  apply (heap_forEach_simulates gameRel HeapUI.step UI.step).
  clear. intros h stH stV ev Hrel. destruct ev as [r c| |]; simpl.
  - by apply heap_handleClick_simulates.
  - by apply heap_giveHint_simulates.
  - by apply heap_resetLevel_simulates.
Qed.

(** No handler changes the level kept for Reset. *)
Lemma step_initialGrid (st st' : UI.Game) ev :
  UI.step st ev = Ok st' → UI.initialGrid st' = UI.initialGrid st.
Proof.
  destruct ev as [r c| |]; simpl.
  - unfold UI.handleClick.
    destruct (cellAt (UI.grid st) r c) as [[cl|]| |]; simpl; [| |done..].
    + destruct (head cl); simpl; [|by intros [= <-]].
      destruct (canExit (UI.grid st) r c) as [[|]| |]; simpl; [| |done..].
      * destruct (UI.clearClicked _ _); simpl; [|done..]. by intros [= <-].
      * by intros [= <-].
    + by intros [= <-].
  - unfold UI.giveHint. destruct (UI.findHint _); simpl; [|done..]. by intros [= <-].
  - by intros [= <-].
Qed.

Lemma run_initialGrid (st st' : UI.Game) evs :
  UI.run st evs = Ok st' → UI.initialGrid st' = UI.initialGrid st.
Proof.
  unfold UI.run. intros Hrun.
  apply (forEach_Ok_invariant (fun s => UI.initialGrid s = UI.initialGrid st) _ _ _ _ Hrun);
    [done|].
  intros s ev s' _ Hs Hstep. rewrite <- Hs. by eapply step_initialGrid.
Qed.

(** X18.  The handlers copy before they write.  Run on a store that holds
    the level kept for Reset and the grid in play, a session of clicks,
    hints and resets that returns on values returns on the store with the
    same state; every row array that existed before the session is
    unchanged (the store has only grown), so the grid of the state before
    and the level kept for Reset read as they did. *)
Theorem session_copy_on_write (h : Heap.store) (stH : HeapUI.Game) (stV stV' : UI.Game)
    (evs : list UI.Event) :
  gameRel h stH stV →
  UI.run stV evs = Ok stV' →
  ∃ stH' h',
    HeapUI.run stH evs h = Ok (stH', h') ∧
    gameRel h' stH' stV' ∧
    (∀ l row, h !! l = Some row → h' !! l = Some row) ∧
    Heap.holds h' (HeapUI.grid stH) (UI.grid stV) ∧
    Heap.holds h' (HeapUI.initialGrid stH) (UI.initialGrid stV).
Proof.
  intros Hrel Hrun. pose proof (heap_run_simulates h stH stV evs Hrel) as Hsim.
  rewrite Hrun in Hsim. destruct Hsim as (stH' & ext & HrunH & Hrel').
  destruct Hrel as (Hi & Hg & _).
  exists stH', (h ++ ext). split; [done|]. split; [done|]. split; [|split].
  - intros l row Hl. by apply lookup_app_l_Some.
  - by apply heap_holds_app.
  - by apply heap_holds_app.
Qed.

Lemma session_copy_on_write_witness :
  ∃ stH' h',
    HeapUI.run (HeapUI.mkGame [0; 1] [2; 3] None)%nat [UI.Click 0 1; UI.Hint]
      (boardThree ++ boardThree) = Ok (stH', h') ∧
    gameRel h' stH'
      (UI.mkGame boardThree (removePiece boardThree 1) (Some (1, 0)%nat)) ∧
    (∀ l row, (boardThree ++ boardThree) !! l = Some row → h' !! l = Some row) ∧
    Heap.holds h' [2; 3]%nat boardThree ∧
    Heap.holds h' [0; 1]%nat boardThree.
Proof.
  apply (session_copy_on_write (boardThree ++ boardThree)
           (HeapUI.mkGame [0; 1] [2; 3] None)%nat
           (UI.mkGame boardThree boardThree None)).
  - split; [|split]; [repeat constructor..|done].
  - reflexivity.
Defined.

(** X19.  Reset brings the level back.  On the store, after any session of
    clicks, hints and resets that ends with Reset, the grid in play reads
    as the level kept for Reset did at the start, cell for cell, the level
    kept for Reset still reads the same, and nothing is highlighted. *)
Theorem reset_restores_level (h h' : Heap.store) (stH stH' : HeapUI.Game)
    (gi gv : Grid) (evs : list UI.Event) :
  Heap.holds h (HeapUI.initialGrid stH) gi →
  Heap.holds h (HeapUI.grid stH) gv →
  HeapUI.run stH (evs ++ [UI.Reset]) h = Ok (stH', h') →
  Heap.holds h' (HeapUI.grid stH') gi ∧
  Heap.holds h' (HeapUI.initialGrid stH') gi ∧
  HeapUI.hintCell stH' = None.
Proof.
  intros Hi Hg HrunH.
  pose proof (heap_run_simulates h stH (UI.mkGame gi gv (HeapUI.hintCell stH))
                (evs ++ [UI.Reset])) as Hsim.
  destruct (UI.run (UI.mkGame gi gv (HeapUI.hintCell stH)) (evs ++ [UI.Reset]))
    as [stV'| |] eqn:HrunV.
  2,3: specialize (Hsim ltac:(by repeat split)); simpl in Hsim; congruence.
  destruct Hsim as (stH1 & ext & HrunH1 & Hi' & Hg' & Hh'); [by repeat split|].
  rewrite HrunH in HrunH1. injection HrunH1 as <- ->.
  unfold UI.run in HrunV. rewrite forEach_snoc in HrunV.
  destruct (forEach evs UI.step _) as [st1| |] eqn:Hrun1; simpl in HrunV; [|done..].
  injection HrunV as <-.
  apply run_initialGrid in Hrun1. simpl in Hrun1.
  unfold UI.resetLevel in *. simpl in *. rewrite cloneGrid_id in Hg'.
  rewrite Hrun1 in Hi', Hg'. by rewrite Hh'.
Qed.

Lemma reset_restores_level_witness :
  Heap.holds (boardThree ++ boardThree ++ removePiece boardThree 1 ++ boardThree)
    [6; 7]%nat boardThree ∧
  Heap.holds (boardThree ++ boardThree ++ removePiece boardThree 1 ++ boardThree)
    [0; 1]%nat boardThree ∧
  @None Move = None.
Proof.
  apply (reset_restores_level (boardThree ++ boardThree)
           (boardThree ++ boardThree ++ removePiece boardThree 1 ++ boardThree)
           (HeapUI.mkGame [0; 1] [2; 3] None)%nat
           (HeapUI.mkGame [0; 1] [6; 7] None)%nat
           boardThree boardThree [UI.Click 0 1]).
  - repeat constructor.
  - repeat constructor.
  - reflexivity.
Defined.


(** ** The generator at density 0 *)




